(** * i3 configuration parser: a shallow embedding of [src/config_parser.c]

    The embedding follows the C file top to bottom: the token descriptors and
    the generated tables, the captured-value stack ([push_string],
    [push_long], [get_string], [get_long], [clear_stack]), the state trail
    with [next_state], the lexer primitives that [parse_config] inlines in its
    token loop, the error message and the recovery walk, and the main loop.

    Conventions.
    - A C string is a [string]; the bytes the C code can see are [c_bytes s],
      the characters before the first NUL.  The cursor [walk] is an offset
      into that buffer; offset [strlen] holds the terminating NUL.
    - The file-level statics ([state], [stack], [statelist], [statelist_idx],
      [subcommand_output.next_state]) are the fields of the record [parser].
    - A function that can leave the loop abnormally returns an [outcome]:
      [Exit] for [exit(1)] after the "stack full" message, [AssertFailed] for
      the failed [assert], [Undefined] where C gives the program no meaning
      (a store past the end of [statelist], [%s] applied to something that is
      not a string).
    - [long] and pointers are 64 bits wide (LP64), so that the union of a
      stack entry is one machine word.
    - A run carries of each diagnostic the message and the input.  The
      rendering of a diagnostic, which is the [errorposition] underline of
      the JSON record and the lines logged around the error, with
      [start_of_line] and [single_line], is embedded on its own in the second
      part of the definitions, as are the dump of the input to the debug
      log, [detect_version], [check_for_duplicate_bindings], the
      replacement of variables in [parse_file] and the choice of the buffer
      that [parse_config] is handed, with the converter that
      [migrate_config] runs as a parameter.  The rest of [parse_file] is
      input and output, and is left out.
    - The handlers behind [GENERATED_call] are a parameter that gives the
      state to continue in; what a handler writes to the reply is not part
      of a run. *)

From Stdlib Require Import ZArith String Ascii.
From stdpp Require Import base list strings.

(** ** Characters and C strings *)

Definition NUL : ascii := "000"%char.
Definition TAB : ascii := "009"%char.
Definition LF : ascii := "010"%char.
Definition VT : ascii := "011"%char.
Definition FF : ascii := "012"%char.
Definition CR : ascii := "013"%char.
Definition SPACE : ascii := "032"%char.
Definition DQUOTE : ascii := "034"%char.
Definition APOSTROPHE : ascii := "039"%char.
Definition BACKSLASH : ascii := "092"%char.

Definition is_char (c d : ascii) : bool := Ascii.eqb c d.

(** Length of the longest prefix whose characters all satisfy [p]: the
    number of iterations of a loop that advances [walk] while the byte under
    it satisfies [p], on a buffer whose terminating NUL fails [p]. *)
Fixpoint span_len (p : ascii → bool) (l : list ascii) : nat :=
  match l with
  | c :: l' => if p c then S (span_len p l') else 0
  | [] => 0
  end.

(** The bytes of a C string: everything before the first NUL. *)
Definition c_bytes (s : string) : list ascii :=
  let l := list_ascii_of_string s in
  take (span_len (λ c, negb (is_char c NUL)) l) l.

Definition strlen (s : string) : nat := length (c_bytes s).

(** Reading the byte under a pointer into the buffer: past the last byte
    sits the NUL. *)
Definition deref (l : list ascii) : ascii := hd NUL l.

Definition tolower (c : ascii) : ascii :=
  let n := nat_of_ascii c in
  if (65 <=? n) && (n <=? 90) then ascii_of_nat (n + 32) else c.

(** [strncasecmp(s1, s2, n) == 0]. *)
Fixpoint strncasecmp_eq (s1 s2 : list ascii) (n : nat) : bool :=
  match n with
  | 0 => true
  | S n' =>
      let c1 := deref s1 in
      let c2 := deref s2 in
      if is_char (tolower c1) (tolower c2)
      then if is_char c1 NUL then true else strncasecmp_eq (tl s1) (tl s2) n'
      else false
  end.

(** ** Generated enumeration and token descriptors *)

(** Modelled from the spec: [GENERATED_config_enums.h] is not part of the
    sources at hand.  The spec describes [cmdp_state] as a closed generated
    enumeration with the distinguished state [INITIAL] and the sentinel
    [__CALL]; every other state is [State n]. *)
Inductive cmdp_state : Type :=
  | INITIAL
  | __CALL
  | State (n : nat).

#[global] Instance cmdp_state_eq_dec : EqDecision cmdp_state.
Proof. solve_decision. Defined.

(** [struct token]; [tok_call_identifier] is [extra.call_identifier]. *)
Record cmdp_token : Type := {
  tok_name : string;
  tok_identifier : option string;
  tok_next_state : cmdp_state;
  tok_call_identifier : Z;
}.

(** ** Abnormal termination *)

Inductive outcome (A : Type) : Type :=
  | Ok (a : A)
  | Exit (status : Z) (stderr : string)
  | AssertFailed
  | Undefined.
Arguments Ok {A} a.
Arguments Exit {A} status stderr.
Arguments AssertFailed {A}.
Arguments Undefined {A}.

Definition obind {A B} (m : outcome A) (k : A → outcome B) : outcome B :=
  match m with
  | Ok a => k a
  | Exit n e => Exit n e
  | AssertFailed => AssertFailed
  | Undefined => Undefined
  end.

Notation "x ←! m ; k" := (obind m (λ x, k))
  (at level 20, m at level 100, k at level 200, right associativity,
   format "x  ←!  m ;  '/' k").

(** ** The captured-value stack *)

Inductive stack_type : Type := STACK_STR | STACK_LONG.

(** The union [val]: one machine word that is either a pointer to an owned
    heap string or a [long].  The null pointer and the integer 0 are the same
    word, [val_num 0]. *)
Inductive stack_val : Type :=
  | val_str (s : string)
  | val_num (n : Z).

Record stack_entry : Type := {
  se_identifier : option string;
  se_type : stack_type;
  se_val : stack_val;
}.

(** A zero-initialised [struct stack_entry]. *)
Definition zero_entry : stack_entry :=
  {| se_identifier := None; se_type := STACK_STR; se_val := val_num 0 |}.

(** [static struct stack_entry stack[10]] at program start. *)
Definition stack_capacity : nat := 10.
Definition zero_stack : list stack_entry := replicate stack_capacity zero_entry.

Definition stack_full_message : string :=
  "BUG: commands_parser stack full. This means either a bug in the code, or a new command which contains more than 10 identified tokens."
  +:+ String LF EmptyString.

(** [push_string]: the loop over [c] walks the slots in order; it skips a
    slot that holds another identifier and acts on the first slot that is
    free or holds [identifier]. *)
Fixpoint push_string (identifier str : string) (stack : list stack_entry)
    : outcome (list stack_entry) :=
  match stack with
  | [] => Exit 1 stack_full_message
  | e :: rest =>
      match se_identifier e with
      | Some i =>
          if String.eqb i identifier then
            (* Append the value: sasprintf("%s,%s", prev, str). *)
            match se_val e with
            | val_str prev =>
                Ok ({| se_identifier := se_identifier e;
                       se_type := se_type e;
                       se_val := val_str (prev +:+ "," +:+ str) |} :: rest)
            | val_num _ => Undefined
            end
          else
            rest' ←! push_string identifier str rest; Ok (e :: rest')
      | None =>
          (* Found a free slot. *)
          Ok ({| se_identifier := Some identifier;
                 se_type := STACK_STR;
                 se_val := val_str str |} :: rest)
      end
  end.

(** [push_long]: the first free slot, whatever the other slots hold. *)
Fixpoint push_long (identifier : string) (num : Z) (stack : list stack_entry)
    : outcome (list stack_entry) :=
  match stack with
  | [] => Exit 1 stack_full_message
  | e :: rest =>
      match se_identifier e with
      | Some _ => rest' ←! push_long identifier num rest; Ok (e :: rest')
      | None =>
          Ok ({| se_identifier := Some identifier;
                 se_type := STACK_LONG;
                 se_val := val_num num |} :: rest)
      end
  end.

(** What a reader gets from the union through its [str] member. *)
Inductive c_str_ptr : Type :=
  | NULL
  | str_ptr (s : string)
  | wild_ptr (bits : Z).

Definition val_as_str (v : stack_val) : c_str_ptr :=
  match v with
  | val_str s => str_ptr s
  | val_num n => if decide (n = 0%Z) then NULL else wild_ptr n
  end.

(** What a reader gets from the union through its [num] member. *)
Inductive c_long : Type :=
  | long_val (n : Z)
  | address_of (s : string).

Definition val_as_num (v : stack_val) : c_long :=
  match v with
  | val_str s => address_of s
  | val_num n => long_val n
  end.

(** [get_string]: scan until the first free slot. *)
Fixpoint get_string (identifier : string) (stack : list stack_entry) : c_str_ptr :=
  match stack with
  | [] => NULL
  | e :: rest =>
      match se_identifier e with
      | None => NULL
      | Some i =>
          if String.eqb identifier i then val_as_str (se_val e)
          else get_string identifier rest
      end
  end.

(** [get_long]: scan until the first free slot. *)
Fixpoint get_long (identifier : string) (stack : list stack_entry) : c_long :=
  match stack with
  | [] => long_val 0
  | e :: rest =>
      match se_identifier e with
      | None => long_val 0
      | Some i =>
          if String.eqb identifier i then val_as_num (se_val e)
          else get_long identifier rest
      end
  end.

(** [clear_stack]: every slot loses its identifier and its value; the [type]
    field is left as it is. *)
Definition clear_entry (e : stack_entry) : stack_entry :=
  {| se_identifier := None; se_type := se_type e; se_val := val_num 0 |}.

Definition clear_stack (stack : list stack_entry) : list stack_entry :=
  map clear_entry stack.

(** *** Predicates on the stack *)

Definition slot_free (e : stack_entry) : Prop := se_identifier e = None.

(** An unused slot: no identifier and the null word as value. *)
Definition unused (e : stack_entry) : Prop :=
  se_identifier e = None ∧ se_val e = val_num 0.

(** [strcmp(stack[c].identifier, identifier) == 0] on an occupied slot. *)
Definition holds (identifier : string) (e : stack_entry) : bool :=
  match se_identifier e with
  | Some i => String.eqb i identifier
  | None => false
  end.

Fixpoint slots_holding (identifier : string) (stack : list stack_entry) : nat :=
  match stack with
  | [] => 0
  | e :: rest =>
      (if holds identifier e then 1 else 0) + slots_holding identifier rest
  end.

Fixpoint free_slots (stack : list stack_entry) : nat :=
  match stack with
  | [] => 0
  | e :: rest =>
      (match se_identifier e with None => 1 | Some _ => 0 end) + free_slots rest
  end.

(** The occupied slots form a prefix of the array: behind the first free
    slot every slot is free. *)
Fixpoint contiguous (stack : list stack_entry) : Prop :=
  match stack with
  | [] => True
  | e :: rest =>
      match se_identifier e with
      | None => Forall slot_free rest
      | Some _ => contiguous rest
      end
  end.

(** The first slot of the whole array that holds [identifier], free slots
    notwithstanding. *)
Fixpoint find_slot (identifier : string) (stack : list stack_entry)
    : option stack_entry :=
  match stack with
  | [] => None
  | e :: rest =>
      if holds identifier e then Some e else find_slot identifier rest
  end.

(** The index of the first free slot. *)
Fixpoint first_free (stack : list stack_entry) : option nat :=
  match stack with
  | [] => None
  | e :: rest =>
      match se_identifier e with
      | None => Some 0
      | Some _ => S <$> first_free rest
      end
  end.

(** The loop that [get_string] and [get_long] share: the first slot holding
    [identifier] among those in front of the first free slot. *)
Fixpoint get_slot (identifier : string) (stack : list stack_entry)
    : option stack_entry :=
  match stack with
  | [] => None
  | e :: rest =>
      match se_identifier e with
      | None => None
      | Some i =>
          if String.eqb identifier i then Some e else get_slot identifier rest
      end
  end.

(** The scans of [get_string] and [get_long] miss no slot: they return what
    the first slot holding the identifier anywhere in the array holds. *)
Definition lookups_complete (stack : list stack_entry) : Prop :=
  (∀ id, get_string id stack =
         match find_slot id stack with
         | Some e => val_as_str (se_val e)
         | None => NULL
         end)
  ∧ (∀ id, get_long id stack =
           match find_slot id stack with
           | Some e => val_as_num (se_val e)
           | None => long_val 0
           end).

(** The slot [push_string] writes when it finds a free one. *)
Definition string_entry (identifier str : string) : stack_entry :=
  {| se_identifier := Some identifier; se_type := STACK_STR;
     se_val := val_str str |}.

(** The slot [push_long] writes. *)
Definition long_entry (identifier : string) (num : Z) : stack_entry :=
  {| se_identifier := Some identifier; se_type := STACK_LONG;
     se_val := val_num num |}.

(** A slot holds a number under [identifier]: the slot to which
    [push_string] would append as if it held a string. *)
Definition number_under (identifier : string) (stack : list stack_entry) : Prop :=
  ∃ e n, e ∈ stack ∧ se_identifier e = Some identifier ∧ se_val e = val_num n.

(** Several [push_long] under one identifier, in order. *)
Fixpoint push_longs (identifier : string) (nums : list Z)
    (stack : list stack_entry) : outcome (list stack_entry) :=
  match nums with
  | [] => Ok stack
  | num :: nums' =>
      stack' ←! push_long identifier num stack;
      push_longs identifier nums' stack'
  end.

(** ** The parser's statics and the state trail *)

Definition statelist_capacity : nat := 10.

Record parser : Type := {
  state : cmdp_state;
  stack : list stack_entry;
  statelist : list cmdp_state;
  statelist_idx : nat;
  (* subcommand_output.next_state *)
  subcommand_next_state : cmdp_state;
}.

(** The statics when the program starts: [statelist = { INITIAL }] (the
    elements after the first are never read before they are written) and
    [statelist_idx = 1]. *)
Definition initial_parser : parser :=
  {| state := INITIAL;
     stack := zero_stack;
     statelist := replicate statelist_capacity INITIAL;
     statelist_idx := 1;
     subcommand_next_state := INITIAL |}.

Definition set_stack (p : parser) (s : list stack_entry) : parser :=
  {| state := state p; stack := s; statelist := statelist p;
     statelist_idx := statelist_idx p;
     subcommand_next_state := subcommand_next_state p |}.

Definition set_state (p : parser) (s : cmdp_state) : parser :=
  {| state := s; stack := stack p; statelist := statelist p;
     statelist_idx := statelist_idx p;
     subcommand_next_state := subcommand_next_state p |}.

Definition set_subcommand_next_state (p : parser) (s : cmdp_state) : parser :=
  {| state := state p; stack := stack p; statelist := statelist p;
     statelist_idx := statelist_idx p;
     subcommand_next_state := s |}.

Definition set_statelist (p : parser) (l : list cmdp_state) (idx : nat) : parser :=
  {| state := state p; stack := stack p; statelist := l;
     statelist_idx := idx;
     subcommand_next_state := subcommand_next_state p |}.

(** The trail: the entries of [statelist] below [statelist_idx]. *)
Definition trail (p : parser) : list cmdp_state :=
  take (statelist_idx p) (statelist p).

(** The loop [for (i = 0; i < statelist_idx; i++)] of [next_state]: the first
    index below [n] (counted from [i]) whose entry is [s].  The loop never
    leaves the array, [statelist_idx] being at most its length. *)
Fixpoint statelist_find (s : cmdp_state) (l : list cmdp_state) (n i : nat)
    : option nat :=
  match n, l with
  | S n', x :: l' =>
      if decide (x = s) then Some i else statelist_find s l' n' (S i)
  | _, _ => None
  end.

Section Parser.

(** Modelled from the spec: [GENERATED_config_tokens.h] and
    [GENERATED_config_call.h] are not part of the sources at hand.  [tokens]
    gives each state its ordered descriptor array; [GENERATED_call] is the
    dispatch to a handler, which reads the captured values and leaves the
    state to continue in [subcommand_output.next_state] (its arguments: the
    call identifier, the value of that field before the call, the stack).
    The handlers are taken to decide on that state from these arguments;
    statics of their own and what they write through
    [subcommand_output.json_gen] are not part of the embedding. *)
Variable tokens : cmdp_state → list cmdp_token.
Variable GENERATED_call : Z → cmdp_state → list stack_entry → cmdp_state.

(** The state a transition commits: the descriptor's own [next_state], or
    for [__CALL] the one the handler leaves in [subcommand_output]. *)
Definition committed_state (token : cmdp_token) (p : parser) : cmdp_state :=
  if decide (tok_next_state token = __CALL)
  then GENERATED_call (tok_call_identifier token)
         (subcommand_next_state p) (stack p)
  else tok_next_state token.

(** [next_state]. *)
Definition next_state (token : cmdp_token) (p : parser) : outcome parser :=
  let '(_next_state, p) :=
    if decide (tok_next_state token = __CALL) then
      let r := GENERATED_call (tok_call_identifier token)
                 (subcommand_next_state p) (stack p) in
      (r, set_stack (set_subcommand_next_state p r) (clear_stack (stack p)))
    else (tok_next_state token, p) in
  let p := set_state p _next_state in
  let p := if decide (state p = INITIAL)
           then set_stack p (clear_stack (stack p)) else p in
  match statelist_find _next_state (statelist p) (statelist_idx p) 0 with
  | Some i => Ok (set_statelist p (statelist p) (i + 1))
  | None =>
      (* statelist[statelist_idx++] = _next_state *)
      if decide (statelist_idx p < length (statelist p))
      then Ok (set_statelist p (<[statelist_idx p := _next_state]> (statelist p))
                 (statelist_idx p + 1))
      else Undefined
  end.

(** ** Lexer primitives *)

(** [name[0]] and [name + 1] of a descriptor name. *)
Definition name_head (name : string) : ascii :=
  match name with String c _ => c | EmptyString => NUL end.
Definition name_tail (name : string) : string :=
  match name with String _ rest => rest | EmptyString => EmptyString end.

Definition isspace (c : ascii) : bool :=
  is_char c SPACE || is_char c TAB || is_char c LF
  || is_char c VT || is_char c FF || is_char c CR.

Definition isdigit (c : ascii) : bool :=
  let n := nat_of_ascii c in (48 <=? n) && (n <=? 57).

Definition decimal_value (l : list ascii) : Z :=
  fold_left (λ acc c, (10 * acc + (Z.of_nat (nat_of_ascii c) - 48))%Z) l 0%Z.

Definition LONG_MAX : Z := (2 ^ 63 - 1)%Z.
Definition LONG_MIN : Z := (- 2 ^ 63)%Z.

(** [strtol(nptr, &end, 10)] with [errno] cleared before the call: the value,
    [end - nptr], and whether [errno] is [ERANGE] afterwards. *)
Record strtol_result : Type := {
  sr_num : Z;
  sr_end : nat;
  sr_erange : bool;
}.

Definition strtol (nptr : list ascii) : strtol_result :=
  let ws := span_len isspace nptr in
  let after_ws := drop ws nptr in
  let negative := is_char (deref after_ws) "-" in
  let sign := if negative || is_char (deref after_ws) "+" then 1 else 0 in
  let digits := drop sign after_ws in
  let nd := span_len isdigit digits in
  if decide (nd = 0) then {| sr_num := 0; sr_end := 0; sr_erange := false |}
  else
    let v := decimal_value (take nd digits) in
    let v := if negative then (- v)%Z else v in
    let e := ws + sign + nd in
    if decide (LONG_MAX < v)%Z
    then {| sr_num := LONG_MAX; sr_end := e; sr_erange := true |}
    else if decide (v < LONG_MIN)%Z
    then {| sr_num := LONG_MIN; sr_end := e; sr_erange := true |}
    else {| sr_num := v; sr_end := e; sr_erange := false |}.

(** The scan of a quoted string, started behind the opening quote:
    the number of bytes the [while] loop walks, which stops at a NUL and at
    a double quote whose predecessor [walk[-1]] is not a backslash; [prev]
    is that predecessor. *)
Fixpoint quoted_len (prev : ascii) (l : list ascii) : nat :=
  match l with
  | c :: l' =>
      if is_char c DQUOTE && negb (is_char prev BACKSLASH) then 0
      else S (quoted_len c l')
  | [] => 0
  end.

Definition not_eol (c : ascii) : bool :=
  negb (is_char c CR) && negb (is_char c LF).

Definition not_word_delimiter (c : ascii) : bool :=
  negb (is_char c SPACE) && negb (is_char c TAB)
  && negb (is_char c "]") && negb (is_char c ",")
  && negb (is_char c ";") && negb (is_char c CR)
  && negb (is_char c LF).

Definition is_blank (c : ascii) : bool := is_char c SPACE || is_char c TAB.

(** The copy loop of the string/word branch, [n] being the number of input
    positions left ([walk - beginning - inpos]) and [b] the bytes from
    [beginning + inpos] on.  A backslash directly before a double quote is
    dropped; the look-ahead [beginning[inpos+1]] may read the byte at
    [walk]. *)
Fixpoint copy_escaped (b : list ascii) (n : nat) : list ascii :=
  match n with
  | 0 => []
  | S n' =>
      if is_char (deref b) BACKSLASH && is_char (deref (tl b)) DQUOTE
      then deref (tl b) :: copy_escaped (tl (tl b)) (pred n')
      else deref b :: copy_escaped (tl b) n'
  end.

(** The escape rule in the spec's words, for comparison with [copy_escaped]:
    scanning from the left, a backslash directly followed by a double quote
    contributes the double quote alone; every other character, every other
    backslash included, is kept. *)
Fixpoint unescape_spec (l : list ascii) : list ascii :=
  match l with
  | [] => []
  | c :: l' =>
      match l' with
      | d :: l'' =>
          if is_char c BACKSLASH && is_char d DQUOTE
          then DQUOTE :: unescape_spec l''
          else c :: unescape_spec l'
      | [] => [c]
      end
  end.

(** Whether a backslash directly followed by a double quote occurs in [l]. *)
Fixpoint has_escape (l : list ascii) : bool :=
  match l with
  | c :: l' =>
      (is_char c BACKSLASH && is_char (deref l') DQUOTE) || has_escape l'
  | [] => false
  end.

(** ** The driver *)

(** One JSON record of the reply array: [success] is [false] and
    [parse_error] is [true] in every record the parser writes.  The records
    of the embedding are those that [parse_config] writes with its own
    statements; what a handler writes through the generator that
    [next_state] hands it in [subcommand_output.json_gen] is not part of
    it. *)
Record diagnostic : Type := {
  diag_error : string;
  diag_input : string;
}.

(** The statics together with the locals of [parse_config] and the caller's
    [context->has_errors]. *)
Record run : Type := {
  globals : parser;
  walk : nat;
  linecnt : Z;
  json : list diagnostic;
  has_errors : bool;
}.

Definition set_walk (r : run) (w : nat) : run :=
  {| globals := globals r; walk := w; linecnt := linecnt r;
     json := json r; has_errors := has_errors r |}.

(** What one pass of the body of the inner [for] loop leaves behind:
    [token_handled] with the new statics and cursor, or no match with the
    cursor where the attempt left it. *)
Inductive attempt : Type :=
  | Handled (r : run)
  | NotHandled (walk : nat).

Definition push_identified (identifier : option string) (str : string)
    (stack : list stack_entry) : outcome (list stack_entry) :=
  match identifier with
  | Some id => push_string id str stack
  | None => Ok stack
  end.

(** The common tail of the successful branches: the new statics [p], the
    new cursor and the line counter. *)
Definition handled (r : run) (p : parser) (w : nat) (bump : Z) : attempt :=
  Handled {| globals := p; walk := w; linecnt := (linecnt r + bump)%Z;
             json := json r; has_errors := has_errors r |}.

(** The body of [for (c = 0; c < ptr->n; c++)] for one descriptor. *)
Definition try_token (input : list ascii) (token : cmdp_token) (r : run)
    : outcome attempt :=
  let p := globals r in
  let here := drop (walk r) input in
  let name := tok_name token in
  if is_char (name_head name) APOSTROPHE then
    (* A literal. *)
    let n := String.length name - 1 in
    if strncasecmp_eq here (list_ascii_of_string (name_tail name)) n then
      stk ←! push_identified (tok_identifier token) (name_tail name) (stack p);
      p' ←! next_state token (set_stack p stk);
      Ok (handled r p' (walk r + n) 0)
    else Ok (NotHandled (walk r))
  else if String.eqb name "number" then
    let res := strtol here in
    if (sr_erange res
        && (bool_decide (sr_num res = LONG_MIN) || bool_decide (sr_num res = LONG_MAX)))
       || (sr_erange res && bool_decide (sr_num res = 0%Z))
    then Ok (NotHandled (walk r))
    else if decide (sr_end res = 0) then Ok (NotHandled (walk r))
    else
      stk ←! match tok_identifier token with
             | Some id => push_long id (sr_num res) (stack p)
             | None => Ok (stack p)
             end;
      p' ←! next_state token (set_stack p stk);
      Ok (handled r p' (walk r + sr_end res) 0)
  else
    a ←! (if String.eqb name "string" || String.eqb name "word" then
            (* [skip]: 1 when the opening quote is stepped over. *)
            let '(skip, n) :=
              if is_char (deref here) DQUOTE then (1, quoted_len DQUOTE (tl here))
              else if is_char (name_head name) "s" then (0, span_len not_eol here)
              else (0, span_len not_word_delimiter here) in
            if decide (n ≠ 0) then
              let str := copy_escaped (drop skip here) n in
              stk ←! push_identified (tok_identifier token)
                       (string_of_list_ascii str) (stack p);
              let w := walk r + skip + n in
              let w := if is_char (deref (drop w input)) DQUOTE then w + 1 else w in
              p' ←! next_state token (set_stack p stk);
              Ok (handled r p' w 0)
            else Ok (NotHandled (walk r + skip))
          else Ok (NotHandled (walk r)));
    match a with
    | Handled r' => Ok (Handled r')
    | NotHandled w =>
        if String.eqb name "line" then
          let n := span_len not_eol (drop w input) in
          p' ←! next_state token p;
          Ok (handled r p' (w + n + 1) 1)
        else if String.eqb name "end" then
          let c := deref (drop w input) in
          if is_char c NUL || is_char c LF || is_char c CR then
            p' ←! next_state token p;
            Ok (handled r p' (w + 1) 1)
          else Ok (NotHandled w)
        else Ok (NotHandled w)
    end.

(** The inner [for] loop: the descriptors in order, the first match wins. *)
Fixpoint token_loop (input : list ascii) (l : list cmdp_token) (r : run)
    : outcome attempt :=
  match l with
  | [] => Ok (NotHandled (walk r))
  | token :: rest =>
      a ←! try_token input token r;
      match a with
      | Handled r' => Ok (Handled r')
      | NotHandled w => token_loop input rest (set_walk r w)
      end
  end.

(** The list of token names of the error message. *)
Fixpoint possible_tokens (l : list cmdp_token) : string :=
  match l with
  | [] => EmptyString
  | token :: rest =>
      (* if (c < (ptr->n - 1)) *)
      let separator := match rest with [] => EmptyString | _ => ", " end in
      let name := tok_name token in
      if is_char (name_head name) APOSTROPHE then
        "'" +:+ name_tail name +:+ "'" +:+ separator +:+ possible_tokens rest
      else if String.eqb name "error" then
        (* continue *)
        possible_tokens rest
      else
        "<" +:+ name +:+ ">" +:+ separator +:+ possible_tokens rest
  end.

Definition errormessage (l : list cmdp_token) : string :=
  "Expected one of these tokens: " +:+ possible_tokens l.

(** The inner loop of the recovery: the first descriptor named [error]. *)
Fixpoint find_error_token (l : list cmdp_token) : option cmdp_token :=
  match l with
  | [] => None
  | token :: rest =>
      if String.eqb (tok_name token) "error" then Some token
      else find_error_token rest
  end.

(** The outer loop of the recovery, [i] running from [n - 1] down to 0. *)
Fixpoint nearest_error_token (sl : list cmdp_state) (n : nat)
    : option cmdp_token :=
  match n with
  | 0 => None
  | S i =>
      match sl !! i with
      | Some s =>
          match find_error_token (tokens s) with
          | Some token => Some token
          | None => nearest_error_token sl i
          end
      | None => None
      end
  end.

(** "Skip the rest of this line": [walk] advances while it is at most [len]
    bytes into the input and the byte under it is not LF, so that it stops
    on the next LF or, when there is none, one past the NUL. *)
Definition skip_line (input : list ascii) (w : nat) : nat :=
  let here := drop w input in
  let n := span_len (λ c, negb (is_char c LF)) here in
  if decide (n < length here) then w + n else w + n + 1.

(** The branch [if (!token_handled)]. *)
Definition syntax_error (input_string : string) (ptr : list cmdp_token)
    (r : run) : outcome run :=
  let input := c_bytes input_string in
  let record := {| diag_error := errormessage ptr; diag_input := input_string |} in
  let w := skip_line input (walk r) in
  let p := set_stack (globals r) (clear_stack (stack (globals r))) in
  match nearest_error_token (statelist p) (statelist_idx p) with
  | Some token =>
      p' ←! next_state token p;
      Ok {| globals := p'; walk := w; linecnt := linecnt r;
            json := json r ++ [record]; has_errors := true |}
  | None => AssertFailed
  end.

(** One pass of the body of the main [while] loop. *)
Definition iteration (input_string : string) (r : run) : outcome run :=
  let input := c_bytes input_string in
  let r := set_walk r (walk r + span_len is_blank (drop (walk r) input)) in
  let ptr := tokens (state (globals r)) in
  a ←! token_loop input ptr r;
  match a with
  | Handled r' => Ok r'
  | NotHandled w => syntax_error input_string ptr (set_walk r w)
  end.

(** The main loop [while ((walk - input) <= len)], with [fuel] bounding the
    number of passes; [None] when the fuel runs out. *)
Fixpoint main_loop (fuel : nat) (input_string : string) (r : run)
    : option (outcome run) :=
  if decide (walk r ≤ strlen input_string) then
    match fuel with
    | 0 => None
    | S fuel' =>
        match iteration input_string r with
        | Ok r' => main_loop fuel' input_string r'
        | Exit n e => Some (Exit n e)
        | AssertFailed => Some AssertFailed
        | Undefined => Some Undefined
        end
    end
  else Some (Ok r).

(** The statics and locals on entry to the main loop: [state = INITIAL],
    [statelist_idx = 1], [walk = input], [linecnt = 1]. *)
Definition parse_start (p : parser) (context_has_errors : bool) : run :=
  {| globals := set_statelist (set_state p INITIAL) (statelist p) 1;
     walk := 0; linecnt := 1; json := []; has_errors := context_has_errors |}.

(** [parse_config], entered with the statics [p] left by whatever ran
    before and with the caller's [context->has_errors]. *)
Definition parse_config (fuel : nat) (input_string : string) (p : parser)
    (context_has_errors : bool) : option (outcome run) :=
  main_loop fuel input_string (parse_start p context_has_errors).

(** *** The token loop in two steps

    For the proofs the body of the token loop is split into what it reads
    from the input ([lex_token], which looks at the descriptor's name only)
    and what it then does to the statics ([apply_lexeme]);
    [try_token_lex] below shows that [try_token] is their composition. *)

Inductive capture : Type :=
  | capture_string (s : string)
  | capture_long (n : Z).

Inductive lexeme : Type :=
  | Match (c : option capture) (w : nat) (bump : Z)
  | NoMatch (w : nat).

Definition lex_token (input : list ascii) (name : string) (w0 : nat) : lexeme :=
  let here := drop w0 input in
  if is_char (name_head name) APOSTROPHE then
    let n := String.length name - 1 in
    if strncasecmp_eq here (list_ascii_of_string (name_tail name)) n
    then Match (Some (capture_string (name_tail name))) (w0 + n) 0
    else NoMatch w0
  else if String.eqb name "number" then
    let res := strtol here in
    if (sr_erange res
        && (bool_decide (sr_num res = LONG_MIN) || bool_decide (sr_num res = LONG_MAX)))
       || (sr_erange res && bool_decide (sr_num res = 0%Z))
    then NoMatch w0
    else if decide (sr_end res = 0) then NoMatch w0
    else Match (Some (capture_long (sr_num res))) (w0 + sr_end res) 0
  else
    let a :=
      if String.eqb name "string" || String.eqb name "word" then
        let '(skip, n) :=
          if is_char (deref here) DQUOTE then (1, quoted_len DQUOTE (tl here))
          else if is_char (name_head name) "s" then (0, span_len not_eol here)
          else (0, span_len not_word_delimiter here) in
        if decide (n ≠ 0) then
          let str := copy_escaped (drop skip here) n in
          let w := w0 + skip + n in
          let w := if is_char (deref (drop w input)) DQUOTE then w + 1 else w in
          Match (Some (capture_string (string_of_list_ascii str))) w 0
        else NoMatch (w0 + skip)
      else NoMatch w0 in
    match a with
    | Match c w bump => Match c w bump
    | NoMatch w =>
        if String.eqb name "line" then
          Match None (w + span_len not_eol (drop w input) + 1) 1
        else if String.eqb name "end" then
          let c := deref (drop w input) in
          if is_char c NUL || is_char c LF || is_char c CR
          then Match None (w + 1) 1
          else NoMatch w
        else NoMatch w
    end.

Definition push_capture (identifier : option string) (c : option capture)
    (stack : list stack_entry) : outcome (list stack_entry) :=
  match identifier, c with
  | Some id, Some (capture_string s) => push_string id s stack
  | Some id, Some (capture_long n) => push_long id n stack
  | _, _ => Ok stack
  end.

Definition apply_lexeme (token : cmdp_token) (r : run) (lx : lexeme)
    : outcome attempt :=
  match lx with
  | NoMatch w => Ok (NotHandled w)
  | Match c w bump =>
      stk ←! push_capture (tok_identifier token) c (stack (globals r));
      p' ←! next_state token (set_stack (globals r) stk);
      Ok (handled r p' w bump)
  end.

(** What the lexer hands over for a descriptor is of the descriptor's
    kind. *)
Definition capture_of_kind (name : string) (c : option capture) : Prop :=
  match c with
  | Some (capture_long _) => name = "number"
  | Some (capture_string _) => name ≠ "number"
  | None => True
  end.

(** What one pass of the main loop does to the statics: a descriptor of the
    current state matches, its capture is pushed and its transition taken; or
    the stack is cleared and the transition of the nearest [error] descriptor
    taken. *)
Inductive parser_step (p p' : parser) : Prop :=
  | step_token token c stk :
      token ∈ tokens (state p) →
      push_capture (tok_identifier token) c (stack p) = Ok stk →
      next_state token (set_stack p stk) = Ok p' →
      parser_step p p'
  | step_recover token :
      nearest_error_token (statelist p) (statelist_idx p) = Some token →
      next_state token (set_stack p (clear_stack (stack p))) = Ok p' →
      parser_step p p'.

(** The trail starts at [INITIAL] and lies inside the array. *)
Definition trail_rooted (p : parser) : Prop :=
  1 ≤ statelist_idx p ≤ length (statelist p)
  ∧ statelist p !! 0 = Some INITIAL.

(** *** Conditions on the generated tables

    The tables are generated from a grammar; what follows states, for a
    grammar, that its literals are non-empty C strings, that recovery has a
    place to go, that every state is entered along one path of at most
    [statelist_capacity] states, and that a directive captures fewer values
    than the stack has slots.  The first two are what the main loop needs
    in order to end; the others are sufficient for it to end normally, and
    not necessary: a grammar in which a state is entered from two states
    has no [path]. *)

(** A literal spells at least one character and no NUL. *)
Definition literal_ok (name : string) : Prop :=
  is_char (name_head name) APOSTROPHE = true →
  name_tail name ≠ EmptyString ∧ NUL ∉ list_ascii_of_string (name_tail name).

(** A descriptor that accepts a line end. *)
Definition has_resync (l : list cmdp_token) : bool :=
  existsb (λ t, String.eqb (tok_name t) "end" || String.eqb (tok_name t) "line") l.

(** An identifier under which some [number] descriptor captures. *)
Definition number_identifier (id : string) : Prop :=
  ∃ s t, t ∈ tokens s ∧ tok_name t = "number" ∧ tok_identifier t = Some id.

(** Every slot that is not the capture of a [number] holds a string. *)
Definition typed (stack : list stack_entry) : Prop :=
  Forall (λ e, ∀ id, se_identifier e = Some id →
                     (∃ v, se_val e = val_str v) ∨ number_identifier id) stack.

Record grammar_wf (path : cmdp_state → list cmdp_state)
    (cap : cmdp_state → nat) : Prop := {
  wf_literal : ∀ s token, token ∈ tokens s → literal_ok (tok_name token);
  (* INITIAL has an error descriptor *)
  wf_initial_error : find_error_token (tokens INITIAL) ≠ None;
  (* an error descriptor leads back along the path of its state, to a state
     that accepts a line end *)
  wf_error : ∀ s token,
    token ∈ tokens s →
    tok_name token = "error" →
    tok_next_state token ≠ __CALL
    ∧ path (tok_next_state token) `prefix_of` path s
    ∧ has_resync (tokens (tok_next_state token)) = true;
  (* path s is the trail in state s *)
  wf_path_initial : path INITIAL = [INITIAL];
  wf_path : ∀ s,
    NoDup (path s) ∧ length (path s) ≤ statelist_capacity ∧ last (path s) = Some s;
  wf_path_closed : ∀ s s', s' ∈ path s → path s' `prefix_of` path s;
  (* a transition goes back along the path or one state deeper *)
  wf_transition : ∀ s token p,
    token ∈ tokens s →
    path (committed_state token p) `prefix_of` path s
    ∨ path (committed_state token p) = path s ++ [committed_state token p];
  (* cap s bounds the number of occupied slots in state s *)
  wf_cap : ∀ s, cap s < stack_capacity;
  wf_capture : ∀ s token,
    token ∈ tokens s →
    tok_next_state token ≠ __CALL →
    tok_next_state token ≠ INITIAL →
    cap s + (match tok_identifier token with Some _ => 1 | None => 0 end)
    ≤ cap (tok_next_state token);
  (* numbers and strings are captured under different identifiers *)
  wf_identifiers : ∀ s token id,
    token ∈ tokens s →
    tok_name token ≠ "number" →
    tok_identifier token = Some id →
    ¬ number_identifier id;
}.

(** The statics a parse may start from: arrays of the declared sizes, the
    trail rooted at [INITIAL], no capture left on the stack. *)
Definition statics_fresh (p : parser) : Prop :=
  length (statelist p) = statelist_capacity
  ∧ statelist p !! 0 = Some INITIAL
  ∧ length (stack p) = stack_capacity
  ∧ Forall slot_free (stack p).

(** What holds of the statics at every head of the main loop under a
    well-formed grammar. *)
Definition parse_inv (path : cmdp_state → list cmdp_state)
    (cap : cmdp_state → nat) (p : parser) : Prop :=
  length (statelist p) = statelist_capacity
  ∧ trail_rooted p
  ∧ trail p = path (state p)
  ∧ length (stack p) = stack_capacity
  ∧ stack_capacity ≤ free_slots (stack p) + cap (state p)
  ∧ typed (stack p).

(** A quantity that every pass of the main loop decreases when recovery
    leads to states that accept a line end: twice the distance of the cursor
    from the end of the loop, plus one while the state does not accept a
    line end. *)
Definition measure (input_string : string) (r : run) : nat :=
  2 * (strlen input_string + 1 - walk r)
  + (if has_resync (tokens (state (globals r))) then 0 else 1).

(** The runs a parse passes through at the head of its main loop. *)
Inductive reaches (input_string : string) : run → run → Prop :=
  | reaches_here r : reaches input_string r r
  | reaches_step r r' r'' :
      walk r ≤ strlen input_string →
      iteration input_string r = Ok r' →
      reaches input_string r' r'' →
      reaches input_string r r''.

(** How a pass entered with [r] can end other than normally: by [exit(1)]
    when no slot is free for a capture, by an undefined step when the trail
    fills [statelist] or a slot holds a number under some identifier; not by
    a failed assertion. *)
Definition abnormal {A} (r : run) (o : outcome A) : Prop :=
  match o with
  | Ok _ => True
  | Exit status message =>
      status = 1%Z ∧ message = stack_full_message
      ∧ free_slots (stack (globals r)) = 0
  | AssertFailed => False
  | Undefined =>
      statelist_idx (globals r) = length (statelist (globals r))
      ∨ ∃ id, number_under id (stack (globals r))
  end.

(** How the main loop, entered with [start], has ended with [o].  It ends
    normally after a chain of passes that leaves the cursor one byte past
    the terminating NUL.  It ends by [exit(1)] in a pass that finds no free
    slot for a capture, and it ends by an undefined step in a pass that
    stores behind the last element of [statelist] or that appends a string
    to a slot holding a number; the assertion of the recovery does not
    fail. *)
Definition ends_as (input_string : string) (start : run) (o : outcome run)
    : Prop :=
  match o with
  | Ok r => reaches input_string start r ∧ walk r = strlen input_string + 1
  | Exit status message =>
      status = 1%Z ∧ message = stack_full_message
      ∧ ∃ r, reaches input_string start r
             ∧ walk r ≤ strlen input_string
             ∧ iteration input_string r = Exit status message
             ∧ free_slots (stack (globals r)) = 0
  | Undefined =>
      ∃ r, reaches input_string start r
           ∧ walk r ≤ strlen input_string
           ∧ iteration input_string r = Undefined
           ∧ (statelist_idx (globals r) = length (statelist (globals r))
              ∨ ∃ id, number_under id (stack (globals r)))
  | AssertFailed => False
  end.

End Parser.

(** ** Grammars used in the examples *)

Definition mk_token (name : string) (identifier : option string)
    (next : cmdp_state) (call : Z) : cmdp_token :=
  {| tok_name := name; tok_identifier := identifier;
     tok_next_state := next; tok_call_identifier := call |}.

(** A handler dispatch under which every handler continues in [INITIAL]. *)
Definition call_to_INITIAL (call : Z) (before : cmdp_state)
    (stack : list stack_entry) : cmdp_state := INITIAL.

(** The directives of the spec's scenarios S1 to S5:
<<
  state INITIAL:         error ->    end ->
                         'workspace' -> WORKSPACE
                         'exec' -> EXEC
                         'tags' -> TAGS
                         'mode' -> MODE_NAME
  state WORKSPACE:       num = number -> WORKSPACE_END
  state WORKSPACE_END:   end -> call set_workspace
  state EXEC:            cmd = string -> EXEC_END
  state EXEC_END:        end -> call exec
  state TAGS:            t = word -> TAGS_MORE
  state TAGS_MORE:       t = word -> TAGS_END
  state TAGS_END:        end -> call tag
  state MODE_NAME:       word -> MODE_BRACE
  state MODE_BRACE:      '{' -> MODE
  state MODE:            error ->    end ->
                         'bindsym' -> MODE_BINDING
                         '}' -> INITIAL
  state MODE_BINDING:    key = word -> MODE_BINDCOMMAND
  state MODE_BINDCOMMAND: command = string -> MODE_BINDING_END
  state MODE_BINDING_END: end -> call mode_binding; MODE
>>
    The handlers of the first three calls (call identifier 0) continue in
    [INITIAL], the handler of [mode_binding] (call identifier 1) in [MODE]. *)
Definition WORKSPACE : cmdp_state := State 1.
Definition WORKSPACE_END : cmdp_state := State 2.
Definition EXEC : cmdp_state := State 3.
Definition EXEC_END : cmdp_state := State 4.
Definition TAGS : cmdp_state := State 5.
Definition TAGS_MORE : cmdp_state := State 6.
Definition TAGS_END : cmdp_state := State 7.
Definition MODE_NAME : cmdp_state := State 8.
Definition MODE_BRACE : cmdp_state := State 9.
Definition MODE : cmdp_state := State 10.
Definition MODE_BINDING : cmdp_state := State 11.
Definition MODE_BINDCOMMAND : cmdp_state := State 12.
Definition MODE_BINDING_END : cmdp_state := State 13.

Definition scenario_tokens (s : cmdp_state) : list cmdp_token :=
  match s with
  | INITIAL =>
      [mk_token "error" None INITIAL 0;
       mk_token "end" None INITIAL 0;
       mk_token "'workspace" None WORKSPACE 0;
       mk_token "'exec" None EXEC 0;
       mk_token "'tags" None TAGS 0;
       mk_token "'mode" None MODE_NAME 0]
  | State 1 => [mk_token "number" (Some "num") WORKSPACE_END 0]
  | State 2 => [mk_token "end" None __CALL 0]
  | State 3 => [mk_token "string" (Some "cmd") EXEC_END 0]
  | State 4 => [mk_token "end" None __CALL 0]
  | State 5 => [mk_token "word" (Some "t") TAGS_MORE 0]
  | State 6 => [mk_token "word" (Some "t") TAGS_END 0]
  | State 7 => [mk_token "end" None __CALL 0]
  | State 8 => [mk_token "word" None MODE_BRACE 0]
  | State 9 => [mk_token "'{" None MODE 0]
  | State 10 =>
      [mk_token "error" None MODE 0;
       mk_token "end" None MODE 0;
       mk_token "'bindsym" None MODE_BINDING 0;
       mk_token "'}" None INITIAL 0]
  | State 11 => [mk_token "word" (Some "key") MODE_BINDCOMMAND 0]
  | State 12 => [mk_token "string" (Some "command") MODE_BINDING_END 0]
  | State 13 => [mk_token "end" None __CALL 1]
  | _ => []
  end.

Definition scenario_call (call : Z) (before : cmdp_state)
    (stack : list stack_entry) : cmdp_state :=
  if decide (call = 1%Z) then MODE else INITIAL.

(** The trail the parser keeps in each state of [scenario_tokens], and a
    bound on the captures of the current directive. *)
Definition scenario_path (s : cmdp_state) : list cmdp_state :=
  match s with
  | INITIAL => [INITIAL]
  | State 2 => [INITIAL; WORKSPACE; WORKSPACE_END]
  | State 4 => [INITIAL; EXEC; EXEC_END]
  | State 6 => [INITIAL; TAGS; TAGS_MORE]
  | State 7 => [INITIAL; TAGS; TAGS_MORE; TAGS_END]
  | State 9 => [INITIAL; MODE_NAME; MODE_BRACE]
  | State 10 => [INITIAL; MODE_NAME; MODE_BRACE; MODE]
  | State 11 => [INITIAL; MODE_NAME; MODE_BRACE; MODE; MODE_BINDING]
  | State 12 =>
      [INITIAL; MODE_NAME; MODE_BRACE; MODE; MODE_BINDING; MODE_BINDCOMMAND]
  | State 13 =>
      [INITIAL; MODE_NAME; MODE_BRACE; MODE; MODE_BINDING; MODE_BINDCOMMAND;
       MODE_BINDING_END]
  | _ => [INITIAL; s]
  end.

Definition scenario_cap (s : cmdp_state) : nat :=
  match s with
  | State 2 | State 4 | State 6 | State 12 => 1
  | State 7 | State 13 => 2
  | _ => 0
  end.

(** The state of the spec's scenario S6, as [INITIAL]. *)
Definition binding_state_tokens : list cmdp_token :=
  [mk_token "'bindsym" None (State 1) 0;
   mk_token "'bindcode" None (State 1) 0;
   mk_token "word" None (State 1) 0;
   mk_token "error" None INITIAL 0].

Definition binding_tokens (s : cmdp_state) : list cmdp_token :=
  match s with
  | INITIAL => binding_state_tokens
  | _ => [mk_token "end" None INITIAL 0]
  end.

(** A grammar that nests eleven states deep: [INITIAL] and each of
    [State 1] to [State 9] accept the literal [a] and go one state deeper, to
    [State 10] at last. *)
Definition chain_tokens (s : cmdp_state) : list cmdp_token :=
  match s with
  | INITIAL => [mk_token "error" None INITIAL 0; mk_token "'a" None (State 1) 0]
  | State n =>
      if decide (n < 10) then [mk_token "'a" None (State (S n)) 0] else []
  | __CALL => []
  end.

(** A grammar with a literal that spells nothing, and a grammar without an
    [error] descriptor. *)
Definition empty_literal_tokens (s : cmdp_state) : list cmdp_token :=
  [mk_token "error" None INITIAL 0;
   mk_token "end" None INITIAL 0;
   mk_token "'" None INITIAL 0].

Definition no_error_tokens (s : cmdp_state) : list cmdp_token :=
  [mk_token "end" None INITIAL 0].

(** The statics after ten distinct states have been entered. *)
Definition full_trail_parser : parser :=
  {| state := State 9;
     stack := zero_stack;
     statelist := INITIAL :: map State (seq 1 9);
     statelist_idx := 10;
     subcommand_next_state := INITIAL |}.

(** The statics with one captured string. *)
Definition one_capture_parser : parser :=
  set_stack initial_parser (string_entry "t" "a" :: replicate 9 zero_entry).

Definition LF_string : string := String LF EmptyString.
Definition DQUOTE_string : string := String DQUOTE EmptyString.
Definition BACKSLASH_string : string := String BACKSLASH EmptyString.

(** The input of the spec's scenario S3: a line of garbage, then a
    directive. *)
Definition bogus_input : string :=
  "bogus line here" +:+ LF_string +:+ "workspace 7" +:+ LF_string.

(** The quoted string of the spec's scenario S2, quotes included, and the
    value it stands for. *)
Definition quoted_echo : string :=
  DQUOTE_string +:+ "echo " +:+ BACKSLASH_string +:+ DQUOTE_string +:+ "hi"
  +:+ BACKSLASH_string +:+ DQUOTE_string +:+ DQUOTE_string.

Definition echo_value : string :=
  "echo " +:+ DQUOTE_string +:+ "hi" +:+ DQUOTE_string.

Definition exec_input : string := "exec " +:+ quoted_echo +:+ LF_string.

(** The input of the spec's scenario S5: a mode block with a line of garbage
    in it. *)
Definition mode_input : string :=
  "mode " +:+ DQUOTE_string +:+ "x" +:+ DQUOTE_string +:+ " {" +:+ LF_string
  +:+ "  garbage" +:+ LF_string
  +:+ "  bindsym a nop" +:+ LF_string
  +:+ "}" +:+ LF_string.

(** * The rest of the file: rendering, version detection, duplicate
    bindings, variables *)

(** ** The buffer of the error message *)

(** The size [parse_config] computes for the buffer that takes the list of
    token names, [tokenlen]: for every descriptor the length of its name and
    four bytes more, which is [strlen] of the quotes, comma and blank; the
    buffer allocated has [tokenlen + 1] bytes. *)
Definition tokenlen (l : list cmdp_token) : nat :=
  fold_left (λ n token, n + (strlen (tok_name token) + 4)) l 0.

(** For comparison with [possible_tokens]: how the message shows one
    descriptor, a literal between single quotes and any other between angle
    brackets, and which descriptors it shows at all. *)
Definition format_token (token : cmdp_token) : string :=
  let name := tok_name token in
  if is_char (name_head name) APOSTROPHE
  then "'" +:+ name_tail name +:+ "'"
  else "<" +:+ name +:+ ">".

Definition listed (token : cmdp_token) : bool :=
  is_char (name_head (tok_name token)) APOSTROPHE
  || negb (String.eqb (tok_name token) "error").

(** ** The rendering of a diagnostic *)

(** The byte under [beginning + i].  Below the buffer the memory is not the
    program's; [below] stands for whatever is there. *)
Definition byte_at (below : Z → ascii) (input : list ascii) (i : Z) : ascii :=
  if decide (0 ≤ i)%Z then deref (drop (Z.to_nat i) input) else below i.

(** The loop of [start_of_line], [walk] being an offset from [beginning]:
    the byte under [walk] is read before [walk >= beginning] is tested.
    [fuel] bounds the number of passes. *)
Fixpoint start_of_line_loop (below : Z → ascii) (input : list ascii)
    (fuel : nat) (walk : Z) : Z :=
  let c := byte_at below input walk in
  if negb (is_char c LF) && negb (is_char c CR) && bool_decide (0 ≤ walk)%Z then
    match fuel with
    | 0 => (walk + 1)%Z
    | S fuel' => start_of_line_loop below input fuel' (walk - 1)
    end
  else (walk + 1)%Z.

(** [start_of_line(walk, beginning)]: the loop passes at most once for each
    offset from [walk] down to 0. *)
Definition start_of_line (below : Z → ascii) (input : list ascii) (walk : Z) : Z :=
  start_of_line_loop below input (Z.to_nat (walk + 1)) walk.

(** For comparison with [start_of_line]: a byte that ends no line, and the
    offset behind the last line end among the [n] bytes before offset [n],
    0 when there is none. *)
Definition not_newline (c : ascii) : bool :=
  negb (is_char c LF) && negb (is_char c CR).

Fixpoint line_start (input : list ascii) (n : nat) : nat :=
  match n with
  | 0 => 0
  | S k => if not_newline (deref (drop k input)) then line_start input k else S k
  end.

(** The C string that starts at offset [i]. *)
Definition string_at (below : Z → ascii) (input : list ascii) (i : Z)
    : list ascii :=
  let s := if decide (0 ≤ i)%Z then drop (Z.to_nat i) input
           else map (λ k, below (i + Z.of_nat k)%Z) (seq 0 (Z.to_nat (- i))) ++ input in
  take (span_len (λ c, negb (is_char c NUL)) s) s.

(** [single_line]: a copy of the string, ended at its first LF. *)
Definition single_line (start : list ascii) : list ascii :=
  take (span_len (λ c, negb (is_char c LF)) start) start.

(** [error_line] for an error found with the cursor at [walk]. *)
Definition error_line (below : Z → ascii) (input : list ascii) (walk : nat) : Z :=
  start_of_line below input (Z.of_nat walk).

(** [position], the value of [errorposition] in the reply: one byte for each
    byte of the line at [error_line], a caret from the cursor on, before it a
    tab for a tab and a blank for anything else. *)
Definition errorposition (below : Z → ascii) (input : list ascii) (walk : nat)
    : list ascii :=
  let error_line := error_line below input walk in
  let line := string_at below input error_line in
  let n := span_len (λ c, negb (is_char c LF) && negb (is_char c CR)) line in
  imap (λ k c, if decide (Z.of_nat walk ≤ error_line + Z.of_nat k)%Z
               then "^"%char
               else if is_char c TAB then TAB else SPACE)
       (take n line).

(** [error_copy], the text logged as the line of the error. *)
Definition error_copy (below : Z → ascii) (input : list ascii) (walk : nat)
    : list ascii :=
  single_line (string_at below input (error_line below input walk)).

(** The context lines logged before the line of the error, with their
    numbers: [context_p2_line] and [context_p1_line]. *)
Definition context_before (below : Z → ascii) (input : list ascii)
    (walk : nat) (linecnt : Z) : list (Z * list ascii) :=
  if decide (1 < linecnt)%Z then
    let context_p1_start :=
      start_of_line below input (error_line below input walk - 2) in
    let context_p1_line := single_line (string_at below input context_p1_start) in
    if decide (2 < linecnt)%Z then
      let context_p2_start := start_of_line below input (context_p1_start - 2) in
      let context_p2_line := single_line (string_at below input context_p2_start) in
      [((linecnt - 2)%Z, context_p2_line); ((linecnt - 1)%Z, context_p1_line)]
    else [((linecnt - 1)%Z, context_p1_line)]
  else [].

(** ** [detect_version] *)

(** [strchr(s, c)] for a character [c] other than NUL: the offset of its
    first occurrence in the C string [s]. *)
Definition strchr (s : list ascii) (c : ascii) : option nat :=
  let n := span_len (λ x, negb (is_char x c) && negb (is_char x NUL)) s in
  if is_char (deref (drop n s)) c then Some n else None.

(** [strncasecmp(s, keyword, strlen(keyword)) == 0]. *)
Definition starts_with (s : list ascii) (keyword : string) : bool :=
  strncasecmp_eq s (list_ascii_of_string keyword) (strlen keyword).

Definition v4_statements : list string :=
  ["bindcode"; "force_focus_wrapping"; "# i3 config file (v4)"; "workspace_layout"].

Definition v4_commands : list string :=
  ["layout"; "floating"; "workspace"; "focus left"; "focus right"; "focus up";
   "focus down"; "border normal"; "border 1pixel"; "border pixel";
   "border borderless"; "--no-startup-id"; "bar"].

(** The loop that advances [bind] while the byte under it is a blank or a
    tab. *)
Definition skip_blanks (bind : list ascii) : list ascii :=
  drop (span_len is_blank bind) bind.

(** The test of a [bind] statement: [false] stands for [goto next]. *)
Definition v4_bind_command (line : list ascii) : bool :=
  if starts_with line "bind" then
    match strchr line SPACE with
    | None => false
    | Some i =>
        let bind := skip_blanks (drop i line) in
        if is_char (deref bind) NUL then false
        else
          match strchr bind SPACE with
          | None => false
          | Some j =>
              let bind := skip_blanks (drop j bind) in
              if is_char (deref bind) NUL then false
              else existsb (starts_with bind) v4_commands
          end
    end
  else false.

(** The loop of [detect_version]; [line] and [walk] are the buffer from the
    two pointers on.  The result is the line printed when the function
    decides for version 4, [None] when the loop runs to the NUL. *)
Fixpoint detect_version_loop (line walk : list ascii) : option (list ascii) :=
  match walk with
  | [] => None
  | c :: rest =>
      if is_char c NUL then None
      else if negb (is_char c LF) then detect_version_loop line rest
      else if existsb (starts_with line) v4_statements || v4_bind_command line
      then Some (take (length line - length walk) line)
      else detect_version_loop rest rest
  end.

Definition detect_version (buf : list ascii) : Z :=
  match detect_version_loop buf buf with
  | Some _ => 4
  | None => 3
  end.

(** ** [check_for_duplicate_bindings] *)

(** Modelled from the spec: [Binding] is declared in a header that is not
    part of the sources at hand, and the spec leaves the check of duplicate
    bindings to its callers; the fields are those the function reads.
    [symbol] is [None] for the null pointer. *)
Record Binding : Type := {
  release : Z;
  symbol : option string;
  keycode : Z;
  mods : Z;
  command : string;
}.

(** [strcasecmp(a, b) == 0]. *)
Definition strcasecmp_eq (a b : string) : bool :=
  bool_decide (map tolower (c_bytes a) = map tolower (c_bytes b)).

(** The body of the inner loop from its first test to the point where the
    flag is set: [false] stands for [continue]. *)
Definition duplicate_binding (bind current : Binding) : bool :=
  if (bool_decide (symbol bind = None) && negb (bool_decide (symbol current = None)))
     || (negb (bool_decide (symbol bind = None)) && bool_decide (symbol current = None))
  then false
  else if match symbol bind, symbol current with
          | Some a, Some b => negb (strcasecmp_eq a b)
          | _, _ => false
          end
  then false
  else if negb (bool_decide (keycode bind = keycode current))
          || negb (bool_decide (mods bind = mods current))
          || negb (bool_decide (release bind = release current))
  then false
  else true.

(** What the function leaves behind: [context->has_errors] and, for every
    message logged, the binding it names. *)
Record duplicates : Type := {
  dup_has_errors : bool;
  dup_logged : list Binding;
}.

(** The inner loop for one [current], over the bindings before it. *)
Fixpoint check_against (before : list Binding) (current : Binding)
    (d : duplicates) : duplicates :=
  match before with
  | [] => d
  | bind :: rest =>
      check_against rest current
        (if duplicate_binding bind current
         then {| dup_has_errors := true; dup_logged := dup_logged d ++ [current] |}
         else d)
  end.

(** The outer loop: [before] are the bindings already passed, in order. *)
Fixpoint check_from (before bindings : list Binding) (d : duplicates)
    : duplicates :=
  match bindings with
  | [] => d
  | current :: rest =>
      check_from (before ++ [current]) rest (check_against before current d)
  end.

Definition check_for_duplicate_bindings (bindings : list Binding)
    (has_errors : bool) : duplicates :=
  check_from [] bindings {| dup_has_errors := has_errors; dup_logged := [] |}.

(** The pairs of a list, one binding before the other, that are duplicates
    of each other, counted. *)
Fixpoint duplicate_pairs (bindings : list Binding) : nat :=
  match bindings with
  | [] => 0
  | bind :: rest =>
      length (filter (λ current, duplicate_binding bind current = true) rest)
      + duplicate_pairs rest
  end.

(** ** [parse_file]: variables and their replacement *)

(** Modelled from the spec: [struct Variable] is declared in a header that
    is not part of the sources at hand, and the spec leaves the replacement
    of variables to the callers of the parser; the fields are those
    [parse_file] uses, [key] and [value] as the bytes of the two C strings.
    [next_match] is computed and used within one pass of the replacement
    loop, where it is [strcasestr] of the key below. *)
Record variable : Type := {
  var_key : list ascii;
  var_value : list ascii;
}.

(** The bytes of the C string at a pointer, [s] being the memory from the
    pointer on. *)
Definition cstr (s : list ascii) : list ascii :=
  take (span_len (λ c, negb (is_char c NUL)) s) s.



(** [strcasestr(haystack, needle)]: the offset of the first occurrence of
    [needle] in the C string [haystack], the case of letters ignored. *)
Fixpoint strcasestr (haystack needle : list ascii) : option nat :=
  if strncasecmp_eq haystack needle (length needle) then Some 0
  else
    match haystack with
    | [] => None
    | c :: rest =>
        if is_char c NUL then None else S <$> strcasestr rest needle
    end.

(** The [for] loop that counts the occurrences of one variable in
    [bufcopy], marking each with an underscore; [next] is an offset into
    [bufcopy], [size] is [stbuf.st_size].  [fuel] bounds the number of
    passes, [None] when it runs out. *)
Fixpoint count_matches (fuel size : nat) (key : list ascii) (extra : Z)
    (bufcopy : list ascii) (next : nat) (extra_bytes : Z)
    : option (list ascii * Z) :=
  match fuel with
  | 0 => None
  | S fuel' =>
      if decide (next < size) then
        match strcasestr (drop next bufcopy) key with
        | Some i =>
            count_matches fuel' size key extra
              (<[next + i := "_"%char]> bufcopy)
              (next + i + length key) (extra_bytes + extra)%Z
        | None => Some (bufcopy, extra_bytes)
        end
      else Some (bufcopy, extra_bytes)
  end.

(** The loop over the variables around it: [extra_bytes] at its end. *)
Fixpoint count_extra_bytes (fuel size : nat) (variables : list variable)
    (bufcopy : list ascii) (extra_bytes : Z) : option Z :=
  match variables with
  | [] => Some extra_bytes
  | current :: rest =>
      let extra := (Z.of_nat (length (var_value current))
                    - Z.of_nat (length (var_key current)))%Z in
      match count_matches fuel size (var_key current) extra bufcopy 0 extra_bytes with
      | Some (bufcopy', extra_bytes') =>
          count_extra_bytes fuel size rest bufcopy' extra_bytes'
      | None => None
      end
  end.

(** The two loops that find the next variable: [nearest] and [distance]
    after them, [here] being the buffer from [walk] on. *)
Definition find_nearest (size : nat) (variables : list variable)
    (here : list ascii) : option variable * nat :=
  fold_left (λ '(nearest, distance) current,
               match strcasestr here (var_key current) with
               | None => (nearest, distance)
               | Some d =>
                   if decide (d < distance) then (Some current, d)
                   else (nearest, distance)
               end)
            variables (None, size).

(** The [n] bytes that [strncpy(dest, src, n)] writes: the bytes of the C
    string [src], as far as [n] goes, and NUL for the rest. *)
Definition strncpy_bytes (src : list ascii) (n : nat) : list ascii :=
  take n (cstr src) ++ replicate (n - length (cstr src)) NUL.

(** The buffer [new] after the loop: [None] is a byte that has not been
    written since [smalloc] returned the buffer.  [Overrun] stands for a
    store behind the end of the buffer, [OutOfMemory] for a size that is
    negative, with which [smalloc] does not return. *)
Inductive written : Type :=
  | Written (new : list (option ascii))
  | Overrun
  | OutOfMemory.

(** A store of [bytes] at offset [dest] of [new]; [None] when it reaches
    behind the end of the buffer. *)
Definition store (new : list (option ascii)) (dest : nat) (bytes : list ascii)
    : option (list (option ascii)) :=
  if decide (dest + length bytes ≤ length new)
  then Some (take dest new ++ map Some bytes ++ drop (dest + length bytes) new)
  else None.

(** The loop that copies the file to [new] and replaces the variables;
    [walk] and [destwalk] are offsets into [buf] and [new].  [fuel] bounds
    the number of passes, [None] when it runs out. *)
Fixpoint replace_loop (fuel size : nat) (variables : list variable)
    (buf : list ascii) (walk : nat) (new : list (option ascii)) (destwalk : nat)
    : option written :=
  match fuel with
  | 0 => None
  | S fuel' =>
      if decide (walk < size) then
        let here := drop walk buf in
        match find_nearest size variables here with
        | (None, _) =>
            (* copy the rest, write the NUL, break *)
            match store new destwalk (strncpy_bytes here (size - walk)) with
            | None => Some Overrun
            | Some new =>
                match store new (destwalk + (size - walk)) [NUL] with
                | None => Some Overrun
                | Some new => Some (Written new)
                end
            end
        | (Some nearest, distance) =>
            match store new destwalk (strncpy_bytes here distance) with
            | None => Some Overrun
            | Some new =>
                match store new (destwalk + distance)
                        (strncpy_bytes (var_value nearest)
                           (length (var_value nearest))) with
                | None => Some Overrun
                | Some new =>
                    replace_loop fuel' size variables buf
                      (walk + distance + length (var_key nearest)) new
                      (destwalk + distance + length (var_value nearest))
                end
            end
        end
      else Some (Written new)
  end.

(** The segment of [parse_file] from the count of the extra bytes to the end
    of the replacement loop, for a file of the bytes [buf] and the variables
    in the order of the list: the buffer [new] when the loop is left. *)
Definition replace_variables (fuel : nat) (variables : list variable)
    (buf : list ascii) : option written :=
  let size := length buf in
  match count_extra_bytes fuel size variables (cstr buf) 0 with
  | None => None
  | Some extra_bytes =>
      let bytes := (Z.of_nat size + extra_bytes + 1)%Z in
      if decide (bytes < 0)%Z then Some OutOfMemory
      else replace_loop fuel size variables buf 0
             (replicate (Z.to_nat bytes) None) 0
  end.

(** ** [parse_file]: the buffer that [parse_config] is handed *)

Section Migration.

(** The converter [i3-migrate-config-to-v4] is another program, which
    [migrate_config] runs between two pipes.  [migration_script] gives, for
    the bytes written to the script, the bytes read from it when the script
    ends with exit code 0; [None] stands for every way in which
    [migrate_config] returns NULL: a pipe that cannot be made, written or
    read, a script that does not end or ends with another code. *)
Variable migration_script : list (option ascii) → option (list ascii).

Definition conv_chunk : nat := Z.to_nat 65535.

(** The size of [converted] once [read_bytes] bytes have been read: 65535
    bytes at first, and as many more whenever the buffer is full before a
    [read]. *)
Definition conv_size (read_bytes : nat) : nat :=
  conv_chunk * (read_bytes / conv_chunk + 1).

(** The buffer [converted] that [migrate_config] returns: the bytes read at
    its front; the bytes behind them have not been written since [malloc]
    or [realloc] returned the buffer. *)
Definition converted_buffer (output : list ascii) : list (option ascii) :=
  map Some output
  ++ replicate (conv_size (length output) - length output) None.

(** [migrate_config]: the first [size] bytes of [input] go to the script;
    [None] for NULL. *)
Definition migrate_config (input : list (option ascii)) (size : nat)
    : option (list (option ascii)) :=
  converted_buffer <$> migration_script (take size input).

(** The segment of [parse_file] from the count of the extra bytes to the
    call of [parse_config]: the buffer that [parse_config] is handed as
    its input.  For a file of version 3 it is the result of
    [migrate_config] unless that is NULL; the script is given
    [stbuf.st_size] bytes of [new], which is an [Overrun] when [new] is
    shorter than the file. *)
Definition config_buffer (fuel : nat) (variables : list variable)
    (buf : list ascii) : option written :=
  match replace_variables fuel variables buf with
  | Some (Written new) =>
      if decide (detect_version buf = 3%Z) then
        if decide (length buf ≤ length new) then
          match migrate_config new (length buf) with
          | Some converted => Some (Written converted)
          | None => Some (Written new)
          end
        else Some Overrun
      else Some (Written new)
  | other => other
  end.

End Migration.

(** ** [parse_config]: the dump of the input to the debug log *)

(** The loop at the head of [parse_config] that logs the input line by line:
    the messages in order, each with its line number and its text.  [fuel]
    bounds the number of passes, [None] when it runs out. *)
Fixpoint dump_config (fuel : nat) (dumpwalk : list ascii) (linecnt : Z)
    : option (list (Z * list ascii)) :=
  if is_char (deref dumpwalk) NUL then Some []
  else
    match fuel with
    | 0 => None
    | S fuel' =>
        match strchr dumpwalk LF with
        | Some next_nl =>
            cons (linecnt, take next_nl dumpwalk)
              <$> dump_config fuel' (drop (next_nl + 1) dumpwalk) (linecnt + 1)
        | None => Some [(linecnt, cstr dumpwalk)]
        end
    end.

(** * Properties *)

(** ** The captured-value stack *)

Section StackLemmas.

Implicit Types (st : list stack_entry) (e : stack_entry) (id : string).

Lemma holds_true id e : holds id e = true ↔ se_identifier e = Some id.
Proof.
  unfold holds. destruct (se_identifier e) as [i|]; [|split; discriminate].
  rewrite String.eqb_eq. split; congruence.
Qed.

Lemma holds_false id e : holds id e = false ↔ se_identifier e ≠ Some id.
Proof.
  rewrite <- holds_true. destruct (holds id e); split; congruence.
Qed.

Lemma eqb_sym_string (a b : string) : String.eqb a b = String.eqb b a.
Proof.
  destruct (String.eqb_spec a b) as [->|Hne].
  - symmetry. apply String.eqb_refl.
  - symmetry. apply String.eqb_neq. congruence.
Qed.

Lemma length_clear_stack st : length (clear_stack st) = length st.
Proof. unfold clear_stack. apply length_map. Qed.

Lemma clear_stack_unused st : Forall unused (clear_stack st).
Proof.
  unfold clear_stack. apply Forall_map, Forall_forall.
  intros e _. split; reflexivity.
Qed.

Lemma unused_free e : unused e → slot_free e.
Proof. intros [H _]. exact H. Qed.

Lemma all_free_contiguous st : Forall slot_free st → contiguous st.
Proof.
  induction 1 as [|e st He Hst IH]; simpl; [exact I|].
  rewrite He. exact Hst.
Qed.

Lemma clear_stack_contiguous st : contiguous (clear_stack st).
Proof.
  apply all_free_contiguous.
  eapply Forall_impl; [apply clear_stack_unused|]. apply unused_free.
Qed.

Lemma zero_stack_unused : Forall unused zero_stack.
Proof. apply Forall_replicate. split; reflexivity. Qed.

Lemma push_string_length id s st st' :
  push_string id s st = Ok st' → length st' = length st.
Proof.
  revert st'. induction st as [|e st IH]; intros st'; simpl; [discriminate|].
  destruct (se_identifier e) as [i|].
  - destruct (String.eqb i id).
    + destruct (se_val e); [|discriminate]. intros [= <-]. reflexivity.
    + destruct (push_string id s st) as [r| | |]; simpl; try discriminate.
      intros [= <-]. simpl. f_equal. apply IH. reflexivity.
  - intros [= <-]. reflexivity.
Qed.

Lemma push_long_length id n st st' :
  push_long id n st = Ok st' → length st' = length st.
Proof.
  revert st'. induction st as [|e st IH]; intros st'; simpl; [discriminate|].
  destruct (se_identifier e) as [i|].
  - destruct (push_long id n st) as [r| | |]; simpl; try discriminate.
    intros [= <-]. simpl. f_equal. apply IH. reflexivity.
  - intros [= <-]. reflexivity.
Qed.

Lemma push_string_contiguous id s st st' :
  contiguous st → push_string id s st = Ok st' → contiguous st'.
Proof.
  revert st'. induction st as [|e st IH]; intros st'; simpl; [discriminate|].
  destruct (se_identifier e) as [i|] eqn:Hi.
  - intros Hc. destruct (String.eqb i id).
    + destruct (se_val e); [|discriminate]. intros [= <-]. simpl.
      exact Hc.
    + destruct (push_string id s st) as [r| | |]; simpl; try discriminate.
      intros [= <-]. simpl. rewrite Hi. apply IH; [exact Hc|reflexivity].
  - intros Hc [= <-]. simpl. apply all_free_contiguous, Hc.
Qed.

Lemma push_long_contiguous id n st st' :
  contiguous st → push_long id n st = Ok st' → contiguous st'.
Proof.
  revert st'. induction st as [|e st IH]; intros st'; simpl; [discriminate|].
  destruct (se_identifier e) as [i|] eqn:Hi.
  - intros Hc. destruct (push_long id n st) as [r| | |]; simpl; try discriminate.
    intros [= <-]. simpl. rewrite Hi. apply IH; [exact Hc|reflexivity].
  - intros Hc [= <-]. simpl. apply all_free_contiguous, Hc.
Qed.

Lemma find_slot_all_free id st : Forall slot_free st → find_slot id st = None.
Proof.
  induction 1 as [|e st He Hst IH]; simpl; [reflexivity|].
  unfold holds. rewrite He. exact IH.
Qed.

(** On a contiguous stack the scans of [get_string] and [get_long], which
    stop at the first free slot, see what a scan of all slots sees. *)
Lemma get_string_find_slot id st :
  contiguous st →
  get_string id st =
    match find_slot id st with Some e => val_as_str (se_val e) | None => NULL end.
Proof.
  induction st as [|e st IH]; simpl; [reflexivity|].
  unfold holds. destruct (se_identifier e) as [i|].
  - intros Hc. rewrite (eqb_sym_string id i).
    destruct (String.eqb i id); [reflexivity|]. apply IH, Hc.
  - intros Hc. rewrite find_slot_all_free by exact Hc. reflexivity.
Qed.

Lemma get_long_find_slot id st :
  contiguous st →
  get_long id st =
    match find_slot id st with
    | Some e => val_as_num (se_val e)
    | None => long_val 0
    end.
Proof.
  induction st as [|e st IH]; simpl; [reflexivity|].
  unfold holds. destruct (se_identifier e) as [i|].
  - intros Hc. rewrite (eqb_sym_string id i).
    destruct (String.eqb i id); [reflexivity|]. apply IH, Hc.
  - intros Hc. rewrite find_slot_all_free by exact Hc. reflexivity.
Qed.

Lemma slots_holding_0_head id e st :
  slots_holding id (e :: st) = 0 → holds id e = false ∧ slots_holding id st = 0.
Proof. simpl. destruct (holds id e); [discriminate|]. auto. Qed.

(** C5: for an identifier [id] that no slot holds and a stack with a free
    slot, [push_string id s1] stores [s1] in the first free slot, where
    [get_string id] reads it; a following [push_string id s2] replaces the
    stored value by the old value, a comma and [s2], and [get_string id]
    reads that comma-joined accumulation. *)
Theorem push_string_accumulates id s1 s2 st :
  slots_holding id st = 0 →
  0 < free_slots st →
  ∃ k st1 st2,
    first_free st = Some k ∧
    push_string id s1 st = Ok st1 ∧
    st1 = <[k := string_entry id s1]> st ∧
    get_string id st1 = str_ptr s1 ∧
    push_string id s2 st1 = Ok st2 ∧
    st2 = <[k := string_entry id (s1 +:+ "," +:+ s2)]> st ∧
    get_string id st2 = str_ptr (s1 +:+ "," +:+ s2).
Proof.
  induction st as [|e st IH]; simpl; [lia|].
  intros Habs Hfree.
  apply (slots_holding_0_head id e st) in Habs as [Hne Habs].
  unfold holds in Hne.
  destruct (se_identifier e) as [i|] eqn:Hi.
  - destruct (IH Habs) as (k & st1 & st2 & Hk & Hp1 & E1 & Hg1 & Hp2 & E2 & Hg2);
      [simpl in Hfree; lia|].
    exists (S k), (e :: st1), (e :: st2). rewrite Hk, Hp1. simpl.
    rewrite Hi, Hne, Hp2, (eqb_sym_string id i), Hne. simpl.
    subst st1 st2. auto 10.
  - exists 0, (string_entry id s1 :: st),
      (string_entry id (s1 +:+ "," +:+ s2) :: st).
    simpl. rewrite !String.eqb_refl. auto 10.
Qed.

(** The theorem at [id = "t"], [s1 = "foo"], [s2 = "bar"] and the empty
    stack. *)
Lemma push_string_accumulates_witness :
  ∃ k st1 st2,
    first_free zero_stack = Some k ∧
    push_string "t" "foo" zero_stack = Ok st1 ∧
    st1 = <[k := string_entry "t" "foo"]> zero_stack ∧
    get_string "t" st1 = str_ptr "foo" ∧
    push_string "t" "bar" st1 = Ok st2 ∧
    st2 = <[k := string_entry "t" "foo,bar"]> zero_stack ∧
    get_string "t" st2 = str_ptr "foo,bar".
Proof.
  apply (push_string_accumulates "t" "foo" "bar" zero_stack).
  - reflexivity.
  - vm_compute. lia.
Defined.

Lemma get_long_get_slot id st :
  get_long id st =
    match get_slot id st with
    | Some e => val_as_num (se_val e)
    | None => long_val 0
    end.
Proof.
  induction st as [|e st IH]; simpl; [reflexivity|].
  destruct (se_identifier e) as [i|]; [|reflexivity].
  destruct (String.eqb id i); [reflexivity|exact IH].
Qed.

Lemma get_string_get_slot id st :
  get_string id st =
    match get_slot id st with
    | Some e => val_as_str (se_val e)
    | None => NULL
    end.
Proof.
  induction st as [|e st IH]; simpl; [reflexivity|].
  destruct (se_identifier e) as [i|]; [|reflexivity].
  destruct (String.eqb id i); [reflexivity|exact IH].
Qed.

Lemma get_slot_absent id st : slots_holding id st = 0 → get_slot id st = None.
Proof.
  induction st as [|e st IH]; simpl; [reflexivity|].
  unfold holds. destruct (se_identifier e) as [i|]; [|reflexivity].
  rewrite (eqb_sym_string id i). destruct (String.eqb i id); [discriminate|].
  exact IH.
Qed.

(** [push_long] on a stack with a free slot: the slot count of the pushed
    identifier grows by one and one free slot is used up. *)
Lemma push_long_counts id num st :
  0 < free_slots st →
  ∃ st', push_long id num st = Ok st'
         ∧ slots_holding id st' = S (slots_holding id st)
         ∧ S (free_slots st') = free_slots st.
Proof.
  induction st as [|e st IH]; simpl; [lia|].
  unfold holds. destruct (se_identifier e) as [i|] eqn:Hi; intros Hfree.
  - destruct IH as (st' & -> & Hh & Hf); [simpl in Hfree; lia|].
    exists (e :: st'). simpl. unfold holds. rewrite Hi, Hh. split; [reflexivity|].
    simpl in Hfree. split; lia.
  - eexists. split; [reflexivity|]. simpl. unfold holds. simpl.
    rewrite String.eqb_refl. split; lia.
Qed.

(** A slot that the lookups already see stays the one they see after any
    further [push_long]. *)
Lemma push_long_get_slot id id' num st st' e :
  get_slot id st = Some e → push_long id' num st = Ok st' →
  get_slot id st' = Some e.
Proof.
  revert st'. induction st as [|e0 st IH]; intros st'; simpl; [discriminate|].
  destruct (se_identifier e0) as [i|] eqn:Hi; [|discriminate].
  intros Hg. destruct (push_long id' num st) as [r| | |]; simpl; try discriminate.
  intros [= <-]. simpl. rewrite Hi.
  destruct (String.eqb id i); [exact Hg|]. apply IH; [exact Hg|reflexivity].
Qed.

(** The first [push_long] of an identifier that no slot holds is the one the
    lookups see. *)
Lemma push_long_fresh_get_slot id num st st' :
  slots_holding id st = 0 → push_long id num st = Ok st' →
  get_slot id st' =
    Some {| se_identifier := Some id; se_type := STACK_LONG; se_val := val_num num |}.
Proof.
  revert st'. induction st as [|e st IH]; intros st'; simpl; [discriminate|].
  unfold holds. destruct (se_identifier e) as [i|] eqn:Hi.
  - destruct (String.eqb i id) eqn:Hne; [discriminate|]. simpl. intros Habs.
    destruct (push_long id num st) as [r| | |]; simpl; try discriminate.
    intros [= <-]. simpl. rewrite Hi, (eqb_sym_string id i), Hne.
    apply IH; [exact Habs|reflexivity].
  - intros _ [= <-]. simpl. rewrite String.eqb_refl. reflexivity.
Qed.

Lemma push_longs_counts id nums st e :
  get_slot id st = Some e →
  length nums ≤ free_slots st →
  ∃ st', push_longs id nums st = Ok st'
         ∧ slots_holding id st' = slots_holding id st + length nums
         ∧ get_slot id st' = Some e.
Proof.
  revert st. induction nums as [|num nums IH]; intros st Hg Hfree; simpl.
  - exists st. split; [reflexivity|]. split; [lia|exact Hg].
  - simpl in Hfree.
    destruct (push_long_counts id num st) as (st1 & Hp & Hh & Hf); [lia|].
    rewrite Hp. simpl.
    destruct (IH st1) as (st' & Hps & Hh' & Hg'); [|lia|].
    { eapply push_long_get_slot; eassumption. }
    exists st'. split; [exact Hps|]. split; [lia|exact Hg'].
Qed.

(** [push_long] writes the first free slot and nothing else, whatever the
    identifier and whatever the other slots hold; without a free slot it ends
    the program. *)
Lemma push_long_first_free id num st :
  match first_free st with
  | Some k => push_long id num st = Ok (<[k := long_entry id num]> st)
  | None => push_long id num st = Exit 1 stack_full_message
  end.
Proof.
  induction st as [|e st IH]; simpl; [reflexivity|].
  destruct (se_identifier e) as [i|]; [|reflexivity].
  destruct (first_free st) as [k|]; simpl; rewrite IH; reflexivity.
Qed.

(** C8 (as amended): [push_long] does not look for an entry of the same
    identifier: every [push_long], for every identifier, value and stack,
    fills the first free slot and leaves every other slot as it is (and ends
    the program when no slot is free).  For an identifier [id] that no slot
    holds, [get_long id] is 0, and after [push_long] of [num] and then of
    each of [nums] under [id], with enough free slots and no clear in
    between, as many slots hold [id] as values were pushed and [get_long id]
    returns [num], the first value pushed. *)
Theorem push_long_first_value_wins id num nums st :
  slots_holding id st = 0 →
  length (num :: nums) ≤ free_slots st →
  (∀ id' num' st0,
     match first_free st0 with
     | Some k => push_long id' num' st0 = Ok (<[k := long_entry id' num']> st0)
     | None => push_long id' num' st0 = Exit 1 stack_full_message
     end)
  ∧ (∃ k, first_free st = Some k
          ∧ push_long id num st = Ok (<[k := long_entry id num]> st))
  ∧ get_long id st = long_val 0
  ∧ ∃ st', push_longs id (num :: nums) st = Ok st'
           ∧ slots_holding id st' = length (num :: nums)
           ∧ get_long id st' = long_val num.
Proof.
  intros Habs Hfree. simpl in Hfree.
  split; [intros id' num' st0; apply push_long_first_free|].
  split; [|split].
  - pose proof (push_long_first_free id num st) as Hp.
    destruct (first_free st) as [k|]; [eauto|].
    destruct (push_long_counts id num st) as (st1 & Hp1 & _); [lia|].
    congruence.
  - rewrite get_long_get_slot, get_slot_absent by exact Habs. reflexivity.
  - simpl.
    destruct (push_long_counts id num st) as (st1 & Hp & Hh & Hf); [lia|].
    rewrite Hp. simpl.
    pose proof (push_long_fresh_get_slot id num st st1 Habs Hp) as Hg.
    destruct (push_longs_counts id nums st1 _ Hg) as (st' & Hps & Hh' & Hg'); [lia|].
    exists st'. split; [exact Hps|]. split; [lia|].
    rewrite get_long_get_slot, Hg'. reflexivity.
Qed.

(** The theorem at [id = "num"], the values 1 then 2 and the empty stack. *)
Lemma push_long_first_value_wins_witness :
  (∀ id' num' st0,
     match first_free st0 with
     | Some k => push_long id' num' st0 = Ok (<[k := long_entry id' num']> st0)
     | None => push_long id' num' st0 = Exit 1 stack_full_message
     end)
  ∧ (∃ k, first_free zero_stack = Some k
          ∧ push_long "num" 1 zero_stack = Ok (<[k := long_entry "num" 1]> zero_stack))
  ∧ get_long "num" zero_stack = long_val 0
  ∧ ∃ st', push_longs "num" [1; 2]%Z zero_stack = Ok st'
           ∧ slots_holding "num" st' = 2
           ∧ get_long "num" st' = long_val 1.
Proof.
  apply (push_long_first_value_wins "num" 1%Z [2%Z] zero_stack).
  - reflexivity.
  - vm_compute. lia.
Defined.

(** C8 as stated fails: after [push_long("num", 1)] and
    [push_long("num", 2)] on the empty stack two slots hold ["num"], not
    one, and [get_long("num")] is 1, not the value pushed last. *)
Lemma push_long_twice_counterexample :
  ∃ st, push_longs "num" [1; 2]%Z zero_stack = Ok st
        ∧ slots_holding "num" st = 2
        ∧ get_long "num" st = long_val 1
        ∧ ¬ (slots_holding "num" st = 1 ∧ get_long "num" st = long_val 2).
Proof.
  eexists. split; [reflexivity|]. split; [reflexivity|]. split; [reflexivity|].
  intros [H _]. vm_compute in H. discriminate.
Qed.

End StackLemmas.

(** ** Transitions and the state trail *)

Section TrailLemmas.

Variable GENERATED_call : Z → cmdp_state → list stack_entry → cmdp_state.

Local Abbreviation next_state := (next_state GENERATED_call).
Local Abbreviation committed_state := (committed_state GENERATED_call).

Implicit Types (p : parser) (s : cmdp_state) (l : list cmdp_state).

Lemma clear_stack_idemp (st : list stack_entry) :
  clear_stack (clear_stack st) = clear_stack st.
Proof.
  unfold clear_stack. rewrite map_map. apply map_ext. intros e. reflexivity.
Qed.

Lemma statelist_find_Some s l n i j :
  statelist_find s l n i = Some j →
  ∃ k, j = i + k ∧ k < n ∧ l !! k = Some s ∧ ∀ k', k' < k → l !! k' ≠ Some s.
Proof.
  revert l i. induction n as [|n IH]; intros [|x l] i; simpl; try discriminate.
  destruct (decide (x = s)) as [->|Hne].
  - intros [= <-]. exists 0. repeat split; [lia|lia|]. intros k' Hk'. lia.
  - intros Hf. apply IH in Hf as (k & -> & Hk & Hl & Hmin).
    exists (S k). repeat split; [lia|lia|exact Hl|].
    intros [|k'] Hk'; simpl; [congruence|]. apply Hmin. lia.
Qed.

Lemma statelist_find_None s l n i :
  statelist_find s l n i = None → n ≤ length l → s ∉ take n l.
Proof.
  revert l i. induction n as [|n IH]; intros l i.
  - intros _ _. rewrite take_0. apply not_elem_of_nil.
  - destruct l as [|x l]; simpl; [lia|].
    destruct (decide (x = s)) as [->|Hne]; [discriminate|].
    intros Hf Hlen. rewrite not_elem_of_cons. split; [congruence|].
    eapply IH; [exact Hf|lia].
Qed.

(** [next_state] with its sequence of assignments carried out. *)
Lemma next_state_unfold token p :
  next_state token p =
    let s := committed_state token p in
    let stk := if decide (tok_next_state token = __CALL ∨ s = INITIAL)
               then clear_stack (stack p) else stack p in
    let sub := if decide (tok_next_state token = __CALL)
               then s else subcommand_next_state p in
    match statelist_find s (statelist p) (statelist_idx p) 0 with
    | Some i =>
        Ok {| state := s; stack := stk; statelist := statelist p;
              statelist_idx := i + 1; subcommand_next_state := sub |}
    | None =>
        if decide (statelist_idx p < length (statelist p))
        then Ok {| state := s; stack := stk;
                   statelist := <[statelist_idx p := s]> (statelist p);
                   statelist_idx := statelist_idx p + 1;
                   subcommand_next_state := sub |}
        else Undefined
    end.
Proof.
  unfold next_state, committed_state.
  destruct (decide (tok_next_state token = __CALL)) as [Hc|Hc]; simpl.
  - destruct (decide (GENERATED_call _ _ _ = INITIAL)) as [Hi|Hi]; simpl;
      rewrite ?clear_stack_idemp;
      destruct (decide (_ ∨ _)) as [Ho|Ho]; try reflexivity; exfalso; tauto.
  - destruct (decide (tok_next_state token = INITIAL)) as [Hi|Hi]; simpl;
      destruct (decide (_ ∨ _)) as [Ho|Ho]; try reflexivity; exfalso; tauto.
Qed.

Lemma next_state_state token p p' :
  next_state token p = Ok p' → state p' = committed_state token p.
Proof.
  rewrite next_state_unfold. simpl.
  destruct (statelist_find _ _ _ _); [intros [= <-]; reflexivity|].
  destruct (decide _); [intros [= <-]; reflexivity|discriminate].
Qed.

Lemma next_state_stack token p p' :
  next_state token p = Ok p' →
  stack p' = if decide (tok_next_state token = __CALL ∨ state p' = INITIAL)
             then clear_stack (stack p) else stack p.
Proof.
  intros H. rewrite (next_state_state _ _ _ H). revert H.
  rewrite next_state_unfold. simpl.
  destruct (statelist_find _ _ _ _); [intros [= <-]; reflexivity|].
  destruct (decide (_ < _)); [intros [= <-]; reflexivity|discriminate].
Qed.

(** [next_state] completes whenever the trail has room for the committed
    state. *)
Lemma next_state_room token p :
  statelist_idx p ≤ length (statelist p) →
  committed_state token p ∈ trail p ∨ statelist_idx p < length (statelist p) →
  ∃ p', next_state token p = Ok p'.
Proof.
  intros Hhi Hroom. rewrite next_state_unfold. simpl.
  destruct (statelist_find _ _ _ _) as [j|] eqn:Hf; [eexists; reflexivity|].
  destruct Hroom as [Hin|Hlt].
  - exfalso. eapply statelist_find_None; eassumption.
  - rewrite decide_True by exact Hlt. eexists; reflexivity.
Qed.

(** [next_state] neither exits nor asserts. *)
Lemma next_state_outcome token p :
  (∃ p', next_state token p = Ok p') ∨ next_state token p = Undefined.
Proof.
  rewrite next_state_unfold. simpl.
  destruct (statelist_find _ _ _ _); [left; eexists; reflexivity|].
  destruct (decide _); [left; eexists; reflexivity|right; reflexivity].
Qed.

(** C2: a transition through [__CALL] (a handler invocation) and a
    transition that commits [INITIAL] both leave every slot of the
    captured-value stack unused: no identifier, null value.  The array keeps
    its size. *)
Theorem next_state_clears_stack token p p' :
  next_state token p = Ok p' →
  tok_next_state token = __CALL ∨ state p' = INITIAL →
  Forall unused (stack p') ∧ length (stack p') = length (stack p).
Proof.
  intros H Hc. rewrite (next_state_stack _ _ _ H).
  rewrite decide_True by exact Hc.
  split; [apply clear_stack_unused|apply length_clear_stack].
Qed.

Lemma trail_take_of_trail p k :
  k ≤ statelist_idx p → take k (statelist p) = take k (trail p).
Proof.
  intros Hk. unfold trail. rewrite take_take. f_equal. lia.
Qed.

(** The two ways in which a transition that completes changes the trail:
    it cuts the trail behind the first entry equal to the committed state, or
    it appends the committed state, which the trail does not contain. *)
Lemma next_state_trail_shape token p p' :
  statelist_idx p ≤ length (statelist p) →
  next_state token p = Ok p' →
  (∃ k, k < statelist_idx p
        ∧ trail p !! k = Some (committed_state token p)
        ∧ trail p' = take (k + 1) (trail p)
        ∧ statelist p' = statelist p
        ∧ statelist_idx p' = k + 1)
  ∨ ((committed_state token p ∉ trail p)
     ∧ statelist_idx p < length (statelist p)
     ∧ trail p' = trail p ++ [committed_state token p]
     ∧ statelist_idx p' = statelist_idx p + 1
     ∧ length (statelist p') = length (statelist p)).
Proof.
  intros Hhi. rewrite next_state_unfold. simpl.
  set (s := committed_state token p) in *.
  destruct (statelist_find s (statelist p) (statelist_idx p) 0) as [j|] eqn:Hf.
  - apply statelist_find_Some in Hf as (k & -> & Hk & Hl & _). simpl.
    intros [= <-]. left. exists k. unfold trail at 2. simpl.
    rewrite (trail_take_of_trail p (k + 1)) by lia.
    split; [exact Hk|]. split; [|auto].
    unfold trail. rewrite lookup_take_lt by exact Hk. exact Hl.
  - apply statelist_find_None in Hf; [|exact Hhi]. fold (trail p) in Hf.
    destruct (decide _) as [Hlt|]; [|discriminate].
    intros [= <-]. right. unfold trail at 2. simpl.
    split; [exact Hf|]. split; [exact Hlt|]. split; [|split; [reflexivity|]].
    + replace (statelist_idx p + 1) with (S (statelist_idx p)) by lia.
      erewrite take_S_r by (apply list_lookup_insert_eq; exact Hlt).
      rewrite take_insert_ge by lia. reflexivity.
    + apply length_insert.
Qed.

(** The trail stays free of duplicates and non-empty across a
    transition. *)
Lemma next_state_NoDup token p p' :
  NoDup (trail p) ∧ 1 ≤ statelist_idx p ≤ length (statelist p) →
  next_state token p = Ok p' →
  NoDup (trail p') ∧ 1 ≤ statelist_idx p' ≤ length (statelist p').
Proof.
  intros [Hnd [Hlo Hhi]] Hn.
  destruct (next_state_trail_shape token p p' Hhi Hn)
    as [(k & Hk & _ & -> & -> & ->)|(Hnot & Hlt & -> & -> & ->)].
  - split; [|lia]. eapply sublist_NoDup; [exact Hnd|apply sublist_take].
  - split; [|lia].
    apply NoDup_app. split; [exact Hnd|]. split; [|apply NoDup_singleton].
    intros x Hx. rewrite list_elem_of_singleton. intros ->. contradiction.
Qed.

(** C3: a transition that commits the state [s], made with a duplicate-free
    trail that has room for [s], ends in [s].  If [s] is in the trail at
    position [i], the trail is cut to its first [i + 1] entries and nothing is
    stored in [statelist]; otherwise [s] is appended.  Afterwards the trail is
    again free of duplicates and [statelist_idx] is at least 1. *)
Theorem next_state_trail token p :
  NoDup (trail p) →
  1 ≤ statelist_idx p ≤ length (statelist p) →
  committed_state token p ∈ trail p ∨ statelist_idx p < length (statelist p) →
  ∃ p', next_state token p = Ok p'
        ∧ state p' = committed_state token p
        ∧ (∀ i, trail p !! i = Some (committed_state token p) →
                trail p' = take (i + 1) (trail p)
                ∧ statelist p' = statelist p)
        ∧ (committed_state token p ∉ trail p →
           trail p' = trail p ++ [committed_state token p])
        ∧ NoDup (trail p')
        ∧ 1 ≤ statelist_idx p' ≤ length (statelist p').
Proof.
  intros Hnd Hidx Hroom.
  destruct (next_state_room token p (proj2 Hidx) Hroom) as [p' Hn].
  exists p'. split; [exact Hn|].
  split; [exact (next_state_state _ _ _ Hn)|].
  split; [|split; [|exact (next_state_NoDup _ _ _ (conj Hnd Hidx) Hn)]].
  - intros i Hi.
    destruct (next_state_trail_shape token p p' (proj2 Hidx) Hn)
      as [(k & Hk & Htk & Htr & Hsl & _)|(Hnot & _)].
    + rewrite (NoDup_lookup _ _ _ _ Hnd Hi Htk). auto.
    + exfalso. apply Hnot. eapply list_elem_of_lookup_2, Hi.
  - intros Hnot.
    destruct (next_state_trail_shape token p p' (proj2 Hidx) Hn)
      as [(k & _ & Htk & _)|(_ & _ & Htr & _)]; [|exact Htr].
    exfalso. apply Hnot. eapply list_elem_of_lookup_2, Htk.
Qed.

(** C9 (what the code does): with [statelist_idx] at the capacity of
    [statelist] and a committed state that is not in the trail, [next_state]
    stores past the end of the array; no check precedes the store, so that
    the outcome is not the fatal exit the claim describes. *)
Theorem next_state_overflow token p :
  length (statelist p) = statelist_capacity →
  statelist_idx p = statelist_capacity →
  committed_state token p ∉ trail p →
  next_state token p = Undefined.
Proof.
  intros Hlen Hidx Hnot. rewrite next_state_unfold. simpl.
  destruct (statelist_find _ _ _ _) as [j|] eqn:Hf.
  - apply statelist_find_Some in Hf as (k & -> & Hk & Hl & _).
    exfalso. apply Hnot. apply elem_of_take. eauto.
  - rewrite decide_False by lia. reflexivity.
Qed.

End TrailLemmas.

(** C2 at the descriptor [end -> call] and a stack with one capture. *)
Lemma next_state_clears_stack_witness :
  let token := mk_token "end" None __CALL 0 in
  let p' := set_stack initial_parser (clear_stack (stack one_capture_parser)) in
  next_state call_to_INITIAL token one_capture_parser = Ok p'
  ∧ Forall unused (stack p')
  ∧ length (stack p') = length (stack one_capture_parser).
Proof.
  intros token p'. split; [reflexivity|].
  apply (next_state_clears_stack call_to_INITIAL token one_capture_parser p').
  - reflexivity.
  - left. reflexivity.
Defined.

(** C3 at the first transition of a parse, [INITIAL] to [WORKSPACE]. *)
Lemma next_state_trail_witness :
  let token := mk_token "'workspace" None WORKSPACE 0 in
  ∃ p', next_state call_to_INITIAL token initial_parser = Ok p'
        ∧ state p' = WORKSPACE
        ∧ (∀ i, trail initial_parser !! i = Some WORKSPACE →
                trail p' = take (i + 1) (trail initial_parser)
                ∧ statelist p' = statelist initial_parser)
        ∧ (WORKSPACE ∉ trail initial_parser →
           trail p' = trail initial_parser ++ [WORKSPACE])
        ∧ NoDup (trail p')
        ∧ 1 ≤ statelist_idx p' ≤ length (statelist p').
Proof.
  intros token.
  apply (next_state_trail call_to_INITIAL token initial_parser).
  - apply NoDup_singleton.
  - simpl. lia.
  - right. simpl. lia.
Defined.

(** C9 at a full trail and a transition to an eleventh state. *)
Lemma next_state_overflow_witness :
  next_state call_to_INITIAL (mk_token "'a" None (State 10) 0) full_trail_parser
  = Undefined.
Proof.
  apply next_state_overflow.
  - reflexivity.
  - reflexivity.
  - vm_compute. intros H. repeat (apply elem_of_cons in H as [H|H]; [discriminate|]).
    apply elem_of_nil in H. exact H.
Defined.

(** The same overflow reached by a parse: under [chain_tokens] the tenth [a]
    of the input commits an eleventh state. *)
Example parse_config_trail_overflow :
  parse_config chain_tokens call_to_INITIAL 20 "aaaaaaaaaa" initial_parser false
  = Some Undefined.
Proof. vm_compute. reflexivity. Qed.

(** ** The error message *)

(** C4 (what the code does): for a descriptor list named, in order,
    ['bindsym], ['bindcode], [word], [error], the message ends in a
    separator.  The separator is written after every descriptor but the last
    of the array, and the [continue] that skips the [error] descriptor, here
    the last one, comes too late to take back the separator written after
    [<word>]. *)
Theorem errormessage_binding_state (l : list cmdp_token) :
  map tok_name l = ["'bindsym"; "'bindcode"; "word"; "error"] →
  errormessage l = "Expected one of these tokens: 'bindsym', 'bindcode', <word>, "
  ∧ errormessage l ≠ "Expected one of these tokens: 'bindsym', 'bindcode', <word>".
Proof.
  intros H.
  destruct l as [|t1 [|t2 [|t3 [|t4 [|t5 l]]]]]; try discriminate.
  injection H as H1 H2 H3 H4.
  assert (E : errormessage [t1; t2; t3; t4]
              = "Expected one of these tokens: 'bindsym', 'bindcode', <word>, ").
  { unfold errormessage. simpl. rewrite H1, H2, H3, H4. reflexivity. }
  split; [exact E|]. rewrite E. discriminate.
Qed.

Lemma errormessage_binding_state_witness :
  errormessage binding_state_tokens
  = "Expected one of these tokens: 'bindsym', 'bindcode', <word>, "
  ∧ errormessage binding_state_tokens
    ≠ "Expected one of these tokens: 'bindsym', 'bindcode', <word>".
Proof.
  apply (errormessage_binding_state binding_state_tokens). reflexivity.
Defined.

(** The message as the parser emits it: the input [;] matches none of the
    descriptors of [binding_state_tokens]. *)
Example parse_config_binding_state_message :
  ∃ r, parse_config binding_tokens call_to_INITIAL 5 ";" initial_parser false
       = Some (Ok r)
       ∧ map diag_error (json r)
         = ["Expected one of these tokens: 'bindsym', 'bindcode', <word>, "]
       ∧ has_errors r = true.
Proof. eexists. split; [vm_compute; reflexivity|]. split; reflexivity. Qed.

(** With the [error] descriptor in front, as in [scenario_tokens], the
    message has no trailing separator. *)
Example errormessage_error_first :
  errormessage (scenario_tokens INITIAL)
  = "Expected one of these tokens: <end>, 'workspace', 'exec', 'tags', 'mode'".
Proof. reflexivity. Qed.

(** ** The token loop *)

Section DriverLemmas.

Variable tokens : cmdp_state → list cmdp_token.
Variable GENERATED_call : Z → cmdp_state → list stack_entry → cmdp_state.

Local Abbreviation next_state := (next_state GENERATED_call).
Local Abbreviation try_token := (try_token GENERATED_call).
Local Abbreviation token_loop := (token_loop GENERATED_call).
Local Abbreviation apply_lexeme := (apply_lexeme GENERATED_call).
Local Abbreviation syntax_error := (syntax_error tokens GENERATED_call).
Local Abbreviation iteration := (iteration tokens GENERATED_call).
Local Abbreviation main_loop := (main_loop tokens GENERATED_call).
Local Abbreviation reaches := (reaches tokens GENERATED_call).

Lemma set_stack_same p : set_stack p (stack p) = p.
Proof. destruct p. reflexivity. Qed.

(** [try_token] reads the input as [lex_token] does and then acts on the
    statics as [apply_lexeme] does. *)
Lemma try_token_lex input token r :
  try_token input token r
  = apply_lexeme token r (lex_token input (tok_name token) (walk r)).
Proof.
  unfold try_token, lex_token.
  destruct (is_char (name_head (tok_name token)) APOSTROPHE).
  { destruct (strncasecmp_eq _ _ _); [|reflexivity].
    unfold apply_lexeme, push_identified, push_capture.
    destruct (tok_identifier token); [reflexivity|].
    reflexivity. }
  destruct (String.eqb (tok_name token) "number").
  { destruct (_ || _); [reflexivity|].
    destruct (decide (sr_end _ = 0)); [reflexivity|].
    unfold apply_lexeme, push_capture.
    destruct (tok_identifier token); reflexivity. }
  destruct (String.eqb (tok_name token) "string" || String.eqb (tok_name token) "word").
  { destruct (if is_char (deref (drop (walk r) input)) DQUOTE then _ else _)
      as [skip n].
    destruct (decide (n ≠ 0)).
    - unfold apply_lexeme, push_identified, push_capture.
      destruct (tok_identifier token); simpl;
        [destruct (push_string _ _ _); simpl; try reflexivity|];
        destruct (next_state _ _); reflexivity.
    - simpl.
      destruct (String.eqb (tok_name token) "line").
      { unfold apply_lexeme, push_capture.
        destruct (tok_identifier token); simpl; rewrite set_stack_same; reflexivity. }
      destruct (String.eqb (tok_name token) "end"); [|reflexivity].
      destruct (_ || _); [|reflexivity].
      unfold apply_lexeme, push_capture.
      destruct (tok_identifier token); simpl; rewrite set_stack_same; reflexivity. }
  simpl.
  destruct (String.eqb (tok_name token) "line").
  { unfold apply_lexeme, push_capture.
    destruct (tok_identifier token); simpl; rewrite set_stack_same; reflexivity. }
  destruct (String.eqb (tok_name token) "end"); [|reflexivity].
  destruct (_ || _); [|reflexivity].
  unfold apply_lexeme, push_capture.
  destruct (tok_identifier token); simpl; rewrite set_stack_same; reflexivity.
Qed.

Lemma token_loop_Handled input l r r' :
  token_loop input l r = Ok (Handled r') →
  ∃ token c stk,
    token ∈ l
    ∧ push_capture (tok_identifier token) c (stack (globals r)) = Ok stk
    ∧ next_state token (set_stack (globals r) stk) = Ok (globals r')
    ∧ json r' = json r ∧ has_errors r' = has_errors r.
Proof.
  revert r. induction l as [|token l IH]; intros r; simpl; [discriminate|].
  rewrite try_token_lex.
  destruct (lex_token input (tok_name token) (walk r)) as [c w bump|w]; simpl.
  - destruct (push_capture _ _ _) as [stk| | |] eqn:Hp; simpl; try discriminate.
    destruct (next_state _ _) as [p'| | |] eqn:Hn; simpl; try discriminate.
    intros [= <-]. exists token, c, stk. simpl.
    split; [apply list_elem_of_here|]. auto.
  - intros H. apply IH in H as (t & c & stk & Hin & Hp & Hn & Hj & He).
    exists t, c, stk. split; [apply list_elem_of_further, Hin|]. auto.
Qed.

Lemma syntax_error_Ok input ptr r r' :
  syntax_error input ptr r = Ok r' →
  ∃ token,
    nearest_error_token tokens (statelist (globals r)) (statelist_idx (globals r))
      = Some token
    ∧ next_state token (set_stack (globals r) (clear_stack (stack (globals r))))
      = Ok (globals r')
    ∧ walk r' = skip_line (c_bytes input) (walk r)
    ∧ json r' = json r ++ [{| diag_error := errormessage ptr; diag_input := input |}]
    ∧ has_errors r' = true.
Proof.
  unfold syntax_error. simpl.
  destruct (nearest_error_token _ _ _) as [token|]; [|discriminate].
  destruct (next_state _ _) as [p'| | |] eqn:Hn; simpl; try discriminate.
  intros [= <-]. exists token. simpl. auto.
Qed.

Lemma iteration_step input r r' :
  iteration input r = Ok r' → parser_step tokens GENERATED_call (globals r) (globals r').
Proof.
  unfold iteration.
  destruct (token_loop _ _ _) as [[r1|w]| | |] eqn:Hl; simpl; try discriminate.
  - intros [= <-].
    apply token_loop_Handled in Hl as (t & c & stk & Hin & Hp & Hn & _).
    simpl in *. eapply step_token; eassumption.
  - intros H. apply syntax_error_Ok in H as (t & Hnear & Hn & _).
    simpl in *. eapply step_recover; eassumption.
Qed.

(** A property of the statics that every step keeps holds all along a
    parse. *)
Lemma reaches_invariant (P : parser → Prop) input r r' :
  (∀ p p', P p → parser_step tokens GENERATED_call p p' → P p') →
  reaches input r r' → P (globals r) → P (globals r').
Proof.
  intros Hstep. induction 1 as [r|r r1 r2 _ Hit _ IH]; [auto|].
  intros HP. apply IH. eapply Hstep; [exact HP|]. exact (iteration_step _ _ _ Hit).
Qed.

Lemma main_loop_reaches fuel input r r' :
  main_loop fuel input r = Some (Ok r') →
  reaches input r r' ∧ strlen input < walk r'.
Proof.
  revert r. induction fuel as [|fuel IH]; intros r; simpl.
  - destruct (decide (walk r ≤ strlen input)); [discriminate|].
    intros [= <-]. split; [apply reaches_here|lia].
  - destruct (decide (walk r ≤ strlen input)) as [Hw|Hw].
    + destruct (iteration input r) as [r1| | |] eqn:Hit; try discriminate.
      intros H. apply IH in H as [Hr Hlt]. split; [|exact Hlt].
      eapply reaches_step; eassumption.
    + intros [= <-]. split; [apply reaches_here|lia].
Qed.

(** *** Invariants of the statics *)

Lemma push_capture_contiguous identifier c st st' :
  contiguous st → push_capture identifier c st = Ok st' → contiguous st'.
Proof.
  unfold push_capture. destruct identifier as [id|]; [|intros ? [= <-]; assumption].
  destruct c as [[s|n]|]; [| |intros ? [= <-]; assumption]; intros Hc Hp.
  - eapply push_string_contiguous; eassumption.
  - eapply push_long_contiguous; eassumption.
Qed.

Lemma next_state_contiguous token p p' :
  contiguous (stack p) → next_state token p = Ok p' → contiguous (stack p').
Proof.
  intros Hc H. rewrite (next_state_stack _ _ _ _ H).
  destruct (decide _); [apply clear_stack_contiguous|exact Hc].
Qed.

Lemma parser_step_contiguous p p' :
  contiguous (stack p) → parser_step tokens GENERATED_call p p' →
  contiguous (stack p').
Proof.
  intros Hc [token c stk _ Hp Hn|token _ Hn];
    (eapply next_state_contiguous; [|exact Hn]); simpl.
  - eapply push_capture_contiguous; eassumption.
  - apply clear_stack_contiguous.
Qed.

Lemma next_state_trail_rooted token p p' :
  trail_rooted p → next_state token p = Ok p' → trail_rooted p'.
Proof.
  intros [[Hlo Hhi] H0]. rewrite next_state_unfold. simpl.
  destruct (statelist_find _ _ _ _) as [j|] eqn:Hf.
  - apply statelist_find_Some in Hf as (k & -> & Hk & _).
    intros [= <-]. split; simpl; [lia|exact H0].
  - destruct (decide _) as [Hlt|]; [|discriminate].
    intros [= <-]. split; simpl.
    + rewrite length_insert. lia.
    + rewrite list_lookup_insert_ne by lia. exact H0.
Qed.

Lemma parser_step_trail_rooted p p' :
  trail_rooted p → parser_step tokens GENERATED_call p p' → trail_rooted p'.
Proof.
  intros Hr [token c stk _ _ Hn|token _ Hn];
    (eapply next_state_trail_rooted; [|exact Hn]); exact Hr.
Qed.

(** During a parse the trail has no duplicates and is never empty. *)
Lemma trail_NoDup_during_parse input p context_has_errors r :
  0 < length (statelist p) →
  reaches input (parse_start p context_has_errors) r →
  NoDup (trail (globals r))
  ∧ 1 ≤ statelist_idx (globals r) ≤ length (statelist (globals r)).
Proof.
  intros Hlen Hr.
  apply (reaches_invariant
           (λ q, NoDup (trail q) ∧ 1 ≤ statelist_idx q ≤ length (statelist q))
           input _ _) in Hr; [exact Hr| |].
  - intros q q' Hq [token c stk _ _ Hn|token _ Hn];
      (eapply next_state_NoDup; [|exact Hn]); exact Hq.
  - unfold trail. simpl. split; [|lia].
    destruct (statelist p) as [|x l]; [simpl in Hlen; lia|].
    simpl. apply NoDup_singleton.
Qed.

(** Whenever a pass of the main loop ends in [INITIAL], and after every
    recovery, the stack is unused at the head of the next pass. *)
Lemma iteration_INITIAL_unused input r r' :
  iteration input r = Ok r' →
  state (globals r') = INITIAL →
  Forall unused (stack (globals r')).
Proof.
  intros Hit Hst. apply iteration_step in Hit.
  destruct Hit as [token c stk _ _ Hn|token _ Hn];
    rewrite (next_state_stack _ _ _ _ Hn), decide_True by (right; exact Hst);
    apply clear_stack_unused.
Qed.

End DriverLemmas.

(** *** The stacks a handler is called with

    A handler reads the stack through [get_string] and [get_long] while
    [next_state] runs, after the push of what the matching descriptor has
    captured.  Two handlers that agree on every contiguous stack give the
    same parse: no handler is ever called with another stack. *)

Section HandlerStacks.

Variable tokens : cmdp_state → list cmdp_token.
Variables GENERATED_call handler : Z → cmdp_state → list stack_entry → cmdp_state.
Hypothesis Hagree :
  ∀ call sub st, contiguous st → handler call sub st = GENERATED_call call sub st.

Lemma next_state_agree token q :
  contiguous (stack q) →
  next_state handler token q = next_state GENERATED_call token q.
Proof.
  intros Hc. unfold next_state.
  destruct (decide (tok_next_state token = __CALL)); [|reflexivity].
  rewrite (Hagree _ _ _ Hc). reflexivity.
Qed.

Lemma apply_lexeme_agree token r lx :
  contiguous (stack (globals r)) →
  apply_lexeme handler token r lx = apply_lexeme GENERATED_call token r lx.
Proof.
  intros Hc. destruct lx as [c w bump|w]; [|reflexivity]. unfold apply_lexeme.
  destruct (push_capture (tok_identifier token) c (stack (globals r)))
    as [stk| | |] eqn:Hp; try reflexivity.
  simpl. rewrite next_state_agree; [reflexivity|]. simpl.
  eapply push_capture_contiguous; eassumption.
Qed.

Lemma token_loop_agree input l r :
  contiguous (stack (globals r)) →
  token_loop handler input l r = token_loop GENERATED_call input l r.
Proof.
  revert r. induction l as [|token l IH]; intros r Hc; [reflexivity|].
  simpl. rewrite !try_token_lex, (apply_lexeme_agree _ _ _ Hc).
  destruct (apply_lexeme GENERATED_call token r _) as [[r'|w]| | |];
    try reflexivity.
  simpl. apply IH. exact Hc.
Qed.

Lemma syntax_error_agree input ptr r :
  syntax_error tokens handler input ptr r
  = syntax_error tokens GENERATED_call input ptr r.
Proof.
  unfold syntax_error. simpl.
  destruct (nearest_error_token _ _ _) as [token|]; [|reflexivity].
  rewrite next_state_agree; [reflexivity|]. simpl. apply clear_stack_contiguous.
Qed.

Lemma iteration_agree input r :
  contiguous (stack (globals r)) →
  iteration tokens handler input r = iteration tokens GENERATED_call input r.
Proof.
  intros Hc. unfold iteration. rewrite token_loop_agree by exact Hc.
  destruct (token_loop GENERATED_call _ _ _) as [[r'|w]| | |]; try reflexivity.
  simpl. apply syntax_error_agree.
Qed.

Lemma main_loop_agree fuel input r :
  contiguous (stack (globals r)) →
  main_loop tokens handler fuel input r
  = main_loop tokens GENERATED_call fuel input r.
Proof.
  revert r. induction fuel as [|fuel IH]; intros r Hc; [reflexivity|].
  simpl. destruct (decide (walk r ≤ strlen input)); [|reflexivity].
  rewrite iteration_agree by exact Hc.
  destruct (iteration tokens GENERATED_call input r) as [r'| | |] eqn:Hit;
    try reflexivity.
  apply IH. eapply parser_step_contiguous; [exact Hc|].
  eapply iteration_step. exact Hit.
Qed.

End HandlerStacks.


(** ** The stack during a parse *)

Section ParseInvariants.

Variable tokens : cmdp_state → list cmdp_token.
Variable GENERATED_call : Z → cmdp_state → list stack_entry → cmdp_state.

Local Abbreviation next_state := (next_state GENERATED_call).
Local Abbreviation committed_state := (committed_state GENERATED_call).
Local Abbreviation syntax_error := (syntax_error tokens GENERATED_call).
Local Abbreviation reaches := (reaches tokens GENERATED_call).
Local Abbreviation nearest_error_token := (nearest_error_token tokens).

(** C10: at every point of a parse that starts with a contiguous stack (the
    stack of the program start is one) the occupied slots form a prefix of
    the array, so that the scans of [get_string] and [get_long], which stop
    at the first free slot, return what the first slot holding the identifier
    anywhere in the array holds.  This is so at every head of the main loop;
    after the push of whatever a descriptor captures there, which is the
    stack the handler of that descriptor reads; and after the clears of
    [next_state] and of the recovery.  No handler is ever called with
    another stack: replacing the handlers by any that agree with them on
    contiguous stacks changes neither the pass nor the rest of the parse. *)
Theorem stack_contiguous_during_parse input p context_has_errors r :
  contiguous (stack p) →
  reaches input (parse_start p context_has_errors) r →
  contiguous (stack (globals r))
  ∧ (∀ id, get_string id (stack (globals r)) =
           match find_slot id (stack (globals r)) with
           | Some e => val_as_str (se_val e)
           | None => NULL
           end)
  ∧ (∀ id, get_long id (stack (globals r)) =
           match find_slot id (stack (globals r)) with
           | Some e => val_as_num (se_val e)
           | None => long_val 0
           end)
  ∧ (∀ identifier c stk,
       push_capture identifier c (stack (globals r)) = Ok stk →
       contiguous stk ∧ lookups_complete stk
       ∧ contiguous (clear_stack stk) ∧ lookups_complete (clear_stack stk))
  ∧ (contiguous (clear_stack (stack (globals r)))
     ∧ lookups_complete (clear_stack (stack (globals r))))
  ∧ (∀ handler,
       (∀ call sub st, contiguous st →
                       handler call sub st = GENERATED_call call sub st) →
       iteration tokens handler input r
       = iteration tokens GENERATED_call input r
       ∧ ∀ fuel, main_loop tokens handler fuel input r
                 = main_loop tokens GENERATED_call fuel input r).
Proof.
  intros Hc Hr.
  assert (Hc' : contiguous (stack (globals r))).
  { apply (reaches_invariant tokens GENERATED_call
             (λ q, contiguous (stack q)) input _ _
             (parser_step_contiguous tokens GENERATED_call) Hr).
    exact Hc. }
  assert (Hlook : ∀ st, contiguous st → lookups_complete st).
  { intros st Hst. split; intros id;
      [apply get_string_find_slot|apply get_long_find_slot]; exact Hst. }
  split; [exact Hc'|]. split; [apply (Hlook _ Hc')|]. split; [apply (Hlook _ Hc')|].
  split; [|split].
  - intros identifier c stk Hp.
    pose proof (push_capture_contiguous _ _ _ _ Hc' Hp) as Hs.
    pose proof (clear_stack_contiguous stk) as Hcl. auto.
  - pose proof (clear_stack_contiguous (stack (globals r))) as Hcl. auto.
  - intros handler Hagree. split.
    + apply iteration_agree; [exact Hagree|exact Hc'].
    + intros fuel. apply main_loop_agree; [exact Hagree|exact Hc'].
Qed.

(** ** Recovery *)

Lemma span_len_le (f : ascii → bool) (l : list ascii) : span_len f l ≤ length l.
Proof. induction l as [|c l IH]; simpl; [lia|]. destruct (f c); simpl; lia. Qed.

Lemma span_len_lookup (f : ascii → bool) (l : list ascii) k c :
  k < span_len f l → l !! k = Some c → f c = true.
Proof.
  revert k. induction l as [|x l IH]; intros k; simpl; [lia|].
  destruct (f x) eqn:Hx; [|lia].
  destruct k as [|k]; simpl; [intros _ [= <-]; exact Hx|].
  intros Hk. apply IH. lia.
Qed.

Lemma span_len_stop (f : ascii → bool) (l : list ascii) :
  span_len f l < length l →
  ∃ c, l !! span_len f l = Some c ∧ f c = false.
Proof.
  induction l as [|x l IH]; simpl; [lia|].
  destruct (f x) eqn:Hx; simpl.
  - intros H. apply IH. lia.
  - intros _. exists x. auto.
Qed.

Lemma is_char_true c d : is_char c d = true ↔ c = d.
Proof. unfold is_char. apply Ascii.eqb_eq. Qed.

Lemma is_char_false c d : is_char c d = false ↔ c ≠ d.
Proof. unfold is_char. apply Ascii.eqb_neq. Qed.

(** Where "skip the rest of this line" leaves the cursor: on the first LF at
    or behind [w], or one past the NUL when the rest of the input has no
    LF. *)
Lemma skip_line_spec (input : list ascii) w :
  w ≤ length input →
  w ≤ skip_line input w
  ∧ (∀ k, w ≤ k < skip_line input w → input !! k ≠ Some LF)
  ∧ (input !! skip_line input w = Some LF
     ∨ skip_line input w = length input + 1).
Proof.
  intros Hw. unfold skip_line.
  set (f := λ c, negb (is_char c LF)).
  pose proof (span_len_le f (drop w input)) as Hle.
  rewrite length_drop in *.
  assert (Hno : ∀ k, w ≤ k < w + span_len f (drop w input) → input !! k ≠ Some LF).
  { intros k Hk Hl.
    assert (Hf : f LF = true).
    { apply (span_len_lookup f (drop w input) (k - w)); [lia|].
      rewrite lookup_drop. replace (w + (k - w)) with k by lia. exact Hl. }
    discriminate Hf. }
  destruct (decide (span_len f (drop w input) < length input - w)) as [Hlt|Hge].
  - split; [lia|]. split; [exact Hno|]. left.
    destruct (span_len_stop f (drop w input)) as (c & Hc & Hfc);
      [rewrite length_drop; exact Hlt|].
    rewrite lookup_drop in Hc. rewrite Hc. f_equal.
    unfold f in Hfc. apply negb_false_iff, is_char_true in Hfc. exact Hfc.
  - split; [lia|]. split; [|right; lia].
    intros k Hk. destruct (decide (k < w + span_len f (drop w input))) as [Hk'|Hk'].
    + apply Hno. lia.
    + rewrite lookup_ge_None_2 by lia. discriminate.
Qed.

Lemma find_error_token_Some l token :
  find_error_token l = Some token → token ∈ l ∧ tok_name token = "error".
Proof.
  induction l as [|t l IH]; simpl; [discriminate|].
  destruct (String.eqb_spec (tok_name t) "error") as [He|He].
  - intros [= <-]. split; [apply list_elem_of_here|exact He].
  - intros H. apply IH in H as [Hin Hn]. split; [apply list_elem_of_further, Hin|exact Hn].
Qed.

(** The recovery walk returns the first [error] descriptor of the topmost
    trail state that has one. *)
Lemma nearest_error_token_Some sl n token :
  nearest_error_token sl n = Some token →
  ∃ i s, i < n ∧ sl !! i = Some s
         ∧ find_error_token (tokens s) = Some token
         ∧ ∀ j s', i < j < n → sl !! j = Some s' →
                   find_error_token (tokens s') = None.
Proof.
  induction n as [|n IH]; simpl; [discriminate|].
  destruct (sl !! n) as [s|] eqn:Hs; [|discriminate].
  destruct (find_error_token (tokens s)) as [t|] eqn:Ht.
  - intros [= <-]. exists n, s. repeat split; [lia|exact Hs|exact Ht|].
    intros j s' Hj. lia.
  - intros H. apply IH in H as (i & s0 & Hi & Hs0 & Ht0 & Hnone).
    exists i, s0. repeat split; [lia|exact Hs0|exact Ht0|].
    intros j s' Hj Hs'. destruct (decide (j = n)) as [->|Hne].
    + rewrite Hs in Hs'. injection Hs' as <-. exact Ht.
    + apply (Hnone j s'); [lia|exact Hs'].
Qed.

Lemma nearest_error_token_rooted sl n :
  find_error_token (tokens INITIAL) ≠ None →
  1 ≤ n ≤ length sl → sl !! 0 = Some INITIAL →
  nearest_error_token sl n ≠ None.
Proof.
  intros HI [Hlo Hhi] H0. induction n as [|n IH]; [lia|]. simpl.
  destruct (sl !! n) as [s|] eqn:Hs.
  - destruct (find_error_token (tokens s)) as [t|] eqn:Ht; [discriminate|].
    destruct n as [|n]; [|apply IH; lia].
    rewrite H0 in Hs. injection Hs as <-. contradiction.
  - apply lookup_ge_None in Hs. lia.
Qed.

Lemma parse_start_trail_rooted p context_has_errors :
  statelist p !! 0 = Some INITIAL →
  trail_rooted (globals (parse_start p context_has_errors)).
Proof.
  intros H0. split; simpl; [|exact H0].
  apply lookup_lt_Some in H0. lia.
Qed.

(** C1: at every syntax error of a parse, under a grammar whose [INITIAL]
    has an [error] descriptor, the recovery finds a descriptor: it is the
    first [error] descriptor of the topmost trail state that has one.  The
    branch clears the stack, takes the transition of that descriptor, and
    leaves the cursor on the next LF, or one past the NUL when the rest of the
    input has none; the assertion never fails.  When that transition has room
    in the trail the branch returns to the main loop, in the committed state
    and with every stack slot unused. *)
Theorem syntax_error_recovers input ptr p context_has_errors r w :
  find_error_token (tokens INITIAL) ≠ None →
  statelist p !! 0 = Some INITIAL →
  reaches input (parse_start p context_has_errors) r →
  w ≤ strlen input →
  let q := set_stack (globals r) (clear_stack (stack (globals r))) in
  let w' := skip_line (c_bytes input) w in
  ∃ i s token,
    i < statelist_idx (globals r)
    ∧ statelist (globals r) !! i = Some s
    ∧ find_error_token (tokens s) = Some token
    ∧ tok_name token = "error"
    ∧ (∀ j s', i < j < statelist_idx (globals r) →
               statelist (globals r) !! j = Some s' →
               find_error_token (tokens s') = None)
    ∧ syntax_error input ptr (set_walk r w) =
        (p' ←! next_state token q;
         Ok {| globals := p'; walk := w'; linecnt := linecnt r;
               json := json r ++ [{| diag_error := errormessage ptr;
                                     diag_input := input |}];
               has_errors := true |})
    ∧ syntax_error input ptr (set_walk r w) ≠ AssertFailed
    ∧ w ≤ w'
    ∧ (∀ k, w ≤ k < w' → c_bytes input !! k ≠ Some LF)
    ∧ (c_bytes input !! w' = Some LF ∨ w' = strlen input + 1)
    ∧ (committed_state token q ∈ trail q
       ∨ statelist_idx q < length (statelist q) →
       ∃ r', syntax_error input ptr (set_walk r w) = Ok r'
             ∧ state (globals r') = committed_state token q
             ∧ Forall unused (stack (globals r'))
             ∧ walk r' = w').
Proof.
  intros HI H0 Hr Hw q w'.
  assert (Hroot : trail_rooted (globals r)).
  { apply (reaches_invariant tokens GENERATED_call trail_rooted input _ _
             (parser_step_trail_rooted tokens GENERATED_call) Hr).
    apply parse_start_trail_rooted, H0. }
  destruct Hroot as [Hidx Hz].
  destruct (nearest_error_token (statelist (globals r)) (statelist_idx (globals r)))
    as [token|] eqn:Hnear;
    [|exfalso; eapply nearest_error_token_rooted; eassumption].
  destruct (nearest_error_token_Some _ _ _ Hnear) as (i & s & Hi & Hs & Ht & Hnone).
  destruct (find_error_token_Some _ _ Ht) as [_ Hname].
  destruct (skip_line_spec (c_bytes input) w Hw) as (Hc1 & Hc2 & Hc3).
  assert (Heq : syntax_error input ptr (set_walk r w) =
                (p' ←! next_state token q;
                 Ok {| globals := p'; walk := w'; linecnt := linecnt r;
                       json := json r ++ [{| diag_error := errormessage ptr;
                                             diag_input := input |}];
                       has_errors := true |})).
  { unfold syntax_error. simpl. rewrite Hnear. reflexivity. }
  exists i, s, token.
  split; [exact Hi|]. split; [exact Hs|]. split; [exact Ht|].
  split; [exact Hname|]. split; [exact Hnone|]. split; [exact Heq|].
  split; [|split; [exact Hc1|split; [exact Hc2|split; [exact Hc3|]]]].
  - rewrite Heq.
    destruct (next_state_outcome GENERATED_call token q) as [[p' ->]| ->];
      discriminate.
  - intros Hroom. rewrite Heq.
    destruct (next_state_room GENERATED_call token q) as [p' Hn];
      [exact (proj2 Hidx)|exact Hroom|].
    rewrite Hn. simpl. eexists. split; [reflexivity|]. simpl.
    split; [exact (next_state_state _ _ _ _ Hn)|]. split; [|reflexivity].
    rewrite (next_state_stack _ _ _ _ Hn).
    destruct (decide _); [|simpl]; apply clear_stack_unused.
Qed.

End ParseInvariants.

(** C10 two passes into the parse of [tags a b]: the stack holds the capture
    [t = a] in slot 0. *)
Lemma stack_contiguous_during_parse_witness :
  ∃ r, reaches scenario_tokens call_to_INITIAL "tags a b"
         (parse_start initial_parser false) r
       ∧ get_string "t" (stack (globals r)) = str_ptr "a"
       ∧ contiguous (stack (globals r))
       ∧ (∀ id, get_string id (stack (globals r)) =
                match find_slot id (stack (globals r)) with
                | Some e => val_as_str (se_val e)
                | None => NULL
                end)
       ∧ (∀ id, get_long id (stack (globals r)) =
                match find_slot id (stack (globals r)) with
                | Some e => val_as_num (se_val e)
                | None => long_val 0
                end)
       ∧ (∀ identifier c stk,
            push_capture identifier c (stack (globals r)) = Ok stk →
            contiguous stk ∧ lookups_complete stk
            ∧ contiguous (clear_stack stk) ∧ lookups_complete (clear_stack stk))
       ∧ (contiguous (clear_stack (stack (globals r)))
          ∧ lookups_complete (clear_stack (stack (globals r))))
       ∧ (∀ handler,
            (∀ call sub st, contiguous st →
                            handler call sub st = call_to_INITIAL call sub st) →
            iteration scenario_tokens handler "tags a b" r
            = iteration scenario_tokens call_to_INITIAL "tags a b" r
            ∧ ∀ fuel, main_loop scenario_tokens handler fuel "tags a b" r
                      = main_loop scenario_tokens call_to_INITIAL fuel "tags a b" r).
Proof.
  assert (H : ∃ r, reaches scenario_tokens call_to_INITIAL "tags a b"
                     (parse_start initial_parser false) r
                   ∧ get_string "t" (stack (globals r)) = str_ptr "a").
  { eexists. split.
    - eapply reaches_step; [vm_compute; lia|vm_compute; reflexivity|].
      eapply reaches_step; [vm_compute; lia|vm_compute; reflexivity|].
      apply reaches_here.
    - reflexivity. }
  destruct H as (r & Hr & Hg). exists r.
  split; [exact Hr|]. split; [exact Hg|].
  apply (stack_contiguous_during_parse scenario_tokens call_to_INITIAL
           "tags a b" initial_parser false r).
  - simpl. repeat constructor.
  - exact Hr.
Defined.

(** C1 at the first line of [bogus_input], which no descriptor of [INITIAL]
    matches. *)
Lemma syntax_error_recovers_witness :
  let tokens := scenario_tokens in
  let input := bogus_input in
  let ptr := scenario_tokens INITIAL in
  let r := parse_start initial_parser false in
  let w := 0 in
  let q := set_stack (globals r) (clear_stack (stack (globals r))) in
  let w' := skip_line (c_bytes input) w in
  ∃ i s token,
    i < statelist_idx (globals r)
    ∧ statelist (globals r) !! i = Some s
    ∧ find_error_token (tokens s) = Some token
    ∧ tok_name token = "error"
    ∧ (∀ j s', i < j < statelist_idx (globals r) →
               statelist (globals r) !! j = Some s' →
               find_error_token (tokens s') = None)
    ∧ syntax_error tokens call_to_INITIAL input ptr (set_walk r w) =
        (p' ←! next_state call_to_INITIAL token q;
         Ok {| globals := p'; walk := w'; linecnt := linecnt r;
               json := json r ++ [{| diag_error := errormessage ptr;
                                     diag_input := input |}];
               has_errors := true |})
    ∧ syntax_error tokens call_to_INITIAL input ptr (set_walk r w) ≠ AssertFailed
    ∧ w ≤ w'
    ∧ (∀ k, w ≤ k < w' → c_bytes input !! k ≠ Some LF)
    ∧ (c_bytes input !! w' = Some LF ∨ w' = strlen input + 1)
    ∧ (committed_state call_to_INITIAL token q ∈ trail q
       ∨ statelist_idx q < length (statelist q) →
       ∃ r', syntax_error tokens call_to_INITIAL input ptr (set_walk r w) = Ok r'
             ∧ state (globals r') = committed_state call_to_INITIAL token q
             ∧ Forall unused (stack (globals r'))
             ∧ walk r' = w').
Proof.
  apply (syntax_error_recovers scenario_tokens call_to_INITIAL bogus_input
           (scenario_tokens INITIAL) initial_parser false
           (parse_start initial_parser false) 0).
  - discriminate.
  - reflexivity.
  - apply reaches_here.
  - vm_compute. lia.
Defined.

(** The whole of scenario S3: one diagnostic for the first line, the cursor
    resynchronised on its LF, the second line parsed, the error flag set. *)
Example parse_config_bogus_input :
  ∃ r, parse_config scenario_tokens call_to_INITIAL 10 bogus_input
         initial_parser false = Some (Ok r)
       ∧ map diag_error (json r)
         = ["Expected one of these tokens: <end>, 'workspace', 'exec', 'tags', 'mode'"]
       ∧ has_errors r = true
       ∧ state (globals r) = INITIAL
       ∧ walk r = strlen bogus_input + 1.
Proof. eexists. split; [vm_compute; reflexivity|]. repeat split. Qed.

(** ** Quoted strings and words *)

Section QuotedLemmas.

Implicit Types (l rest content : list ascii) (c prev : ascii).

Lemma unescape_spec_no_escape l : has_escape l = false → unescape_spec l = l.
Proof.
  induction l as [|c l IH]; [reflexivity|].
  simpl. intros H. apply orb_false_iff in H as [Hc Hl].
  destruct l as [|d l]; [reflexivity|].
  simpl in Hc. rewrite Hc. f_equal. apply IH, Hl.
Qed.

Lemma unescape_spec_escape a b :
  has_escape a = false →
  unescape_spec (a ++ BACKSLASH :: DQUOTE :: b) = a ++ DQUOTE :: unescape_spec b.
Proof.
  induction a as [|c a IH]; [reflexivity|].
  intros H. simpl in H. apply orb_false_iff in H as [Hc Ha].
  specialize (IH Ha).
  destruct a as [|d a].
  - change (unescape_spec ([c] ++ BACKSLASH :: DQUOTE :: b))
      with (if is_char c BACKSLASH && is_char BACKSLASH DQUOTE
            then DQUOTE :: unescape_spec (DQUOTE :: b)
            else c :: unescape_spec (BACKSLASH :: DQUOTE :: b)).
    change (is_char BACKSLASH DQUOTE) with false.
    rewrite andb_false_r. reflexivity.
  - change ((c :: d :: a) ++ BACKSLASH :: DQUOTE :: b)
      with (c :: d :: (a ++ BACKSLASH :: DQUOTE :: b)).
    change (unescape_spec (c :: d :: (a ++ BACKSLASH :: DQUOTE :: b)))
      with (if is_char c BACKSLASH && is_char d DQUOTE
            then DQUOTE :: unescape_spec (a ++ BACKSLASH :: DQUOTE :: b)
            else c :: unescape_spec ((d :: a) ++ BACKSLASH :: DQUOTE :: b)).
    simpl in Hc. rewrite Hc, IH. reflexivity.
Qed.

Lemma quoted_len_le prev l : quoted_len prev l ≤ length l.
Proof.
  revert prev. induction l as [|c l IH]; intros prev; simpl; [lia|].
  destruct (_ && _); [lia|]. specialize (IH c). lia.
Qed.

(** The scan stops on a double quote or at the end of the input. *)
Lemma quoted_len_stop prev l :
  l !! quoted_len prev l = Some DQUOTE ∨ quoted_len prev l = length l.
Proof.
  revert prev. induction l as [|c l IH]; intros prev; simpl; [auto|].
  destruct (is_char c DQUOTE && negb (is_char prev BACKSLASH)) eqn:H.
  - left. apply andb_true_iff in H as [H _]. apply is_char_true in H.
    simpl. congruence.
  - destruct (IH c) as [H1|H1]; [left; exact H1|right; lia].
Qed.

(** A double quote inside the scanned content follows a backslash. *)
Lemma quoted_len_inside prev l i :
  i < quoted_len prev l → l !! i = Some DQUOTE →
  match i with 0 => prev = BACKSLASH | S i' => l !! i' = Some BACKSLASH end.
Proof.
  revert prev i. induction l as [|c l IH]; intros prev i; simpl; [lia|].
  destruct (is_char c DQUOTE && negb (is_char prev BACKSLASH)) eqn:H; [lia|].
  destruct i as [|i]; simpl.
  - intros _ [= ->]. simpl in H. apply negb_false_iff, is_char_true in H. exact H.
  - intros Hi Hl. specialize (IH c i ltac:(lia) Hl).
    destruct i as [|i]; simpl; [congruence|exact IH].
Qed.

(** The copy loop, run over the content the scan of a quoted string
    delimits, implements the escape rule of the spec. *)
Lemma copy_escaped_quoted prev l :
  copy_escaped l (quoted_len prev l) = unescape_spec (take (quoted_len prev l) l).
Proof.
  remember (length l) as m eqn:Hm. revert prev l Hm.
  induction m as [m IH] using lt_wf_ind. intros prev l Hm.
  destruct l as [|c l]; [reflexivity|].
  simpl quoted_len.
  destruct (is_char c DQUOTE && negb (is_char prev BACKSLASH)); [reflexivity|].
  simpl copy_escaped. simpl take.
  destruct (is_char c BACKSLASH && is_char (deref l) DQUOTE) eqn:Hesc.
  - apply andb_true_iff in Hesc as [Hc Hd].
    apply is_char_true in Hc. subst c.
    destruct l as [|d l]; [discriminate Hd|].
    simpl in Hd. apply is_char_true in Hd. subst d.
    simpl. f_equal. simpl in Hm.
    apply (IH (length l)); [lia|reflexivity].
  - rewrite (IH (length l) ltac:(simpl in Hm; lia) c l eq_refl).
    destruct l as [|d l]; [reflexivity|].
    simpl quoted_len.
    destruct (is_char d DQUOTE && negb (is_char c BACKSLASH)) eqn:Hstop;
      [reflexivity|].
    simpl take. simpl in Hesc.
    change (unescape_spec (c :: d :: take (quoted_len d l) l))
      with (if is_char c BACKSLASH && is_char d DQUOTE
            then DQUOTE :: unescape_spec (take (quoted_len d l) l)
            else c :: unescape_spec (d :: take (quoted_len d l) l)).
    rewrite Hesc. reflexivity.
Qed.

Variable GENERATED_call : Z → cmdp_state → list stack_entry → cmdp_state.

Local Abbreviation next_state := (next_state GENERATED_call).
Local Abbreviation try_token := (try_token GENERATED_call).

Lemma deref_drop l n c : is_char (deref (drop n l)) c = true ↔ (l !! n = Some c ∨ (length l ≤ n ∧ c = NUL)).
Proof.
  unfold deref. rewrite is_char_true.
  destruct (l !! n) as [x|] eqn:Hx.
  - pose proof (lookup_lt_Some _ _ _ Hx).
    rewrite (drop_S _ _ _ Hx). simpl. split; [intros ->; auto|].
    intros [[= ->]|[? _]]; [reflexivity|lia].
  - apply lookup_ge_None in Hx. rewrite drop_ge by exact Hx. simpl.
    split; [intros <-; auto|]. intros [[=]|[_ ->]]. reflexivity.
Qed.

(** C6: a [string] or [word] descriptor tried on a double quote.  The
    content runs from behind the opening quote to the first double quote that
    does not follow a backslash, or to the end of the input.  Empty content
    is no match.  Otherwise the descriptor matches, and the value it
    captures is the content with every backslash-doublequote pair replaced by
    a double quote and every other byte, other backslashes included,
    unchanged ([unescape_spec], whose two equations say so: content without
    such a pair is copied as it is, and the first pair becomes one double
    quote between the unchanged bytes before it and the unescaped rest). *)
Theorem quoted_token_capture (input : list ascii) token r rest :
  tok_name token = "string" ∨ tok_name token = "word" →
  drop (walk r) input = DQUOTE :: rest →
  let n := quoted_len DQUOTE rest in
  let content := take n rest in
  let v := string_of_list_ascii (unescape_spec content) in
  let w := walk r + 1 + n + (if decide (rest !! n = Some DQUOTE) then 1 else 0) in
  (content = [] → try_token input token r = Ok (NotHandled (walk r + 1)))
  ∧ (content ≠ [] →
     try_token input token r =
       (stk ←! push_identified (tok_identifier token) v (stack (globals r));
        p' ←! next_state token (set_stack (globals r) stk);
        Ok (handled r p' w 0)))
  ∧ (rest !! n = Some DQUOTE ∨ n = length rest)
  ∧ (∀ i, i < n → rest !! i = Some DQUOTE →
          ∃ i', i = S i' ∧ rest !! i' = Some BACKSLASH)
  ∧ (∀ a, has_escape a = false → unescape_spec a = a)
  ∧ (∀ a b, has_escape a = false →
            unescape_spec (a ++ BACKSLASH :: DQUOTE :: b)
            = a ++ DQUOTE :: unescape_spec b).
Proof.
  intros Hname Hdrop n content v w.
  assert (Hempty : content = [] ↔ n = 0).
  { unfold content. pose proof (quoted_len_le DQUOTE rest) as Hle. fold n in Hle.
    split.
    - intros H. apply (f_equal length) in H. rewrite length_take in H.
      simpl in H. lia.
    - intros ->. apply take_0. }
  assert (Htry : try_token input token r =
            if decide (n ≠ 0) then
              stk ←! push_identified (tok_identifier token) v (stack (globals r));
              p' ←! next_state token (set_stack (globals r) stk);
              Ok (handled r p' w 0)
            else Ok (NotHandled (walk r + 1))).
  { unfold try_token.
    assert (Hhead : is_char (name_head (tok_name token)) APOSTROPHE = false)
      by (destruct Hname as [-> | ->]; reflexivity).
    assert (Hnum : String.eqb (tok_name token) "number" = false)
      by (destruct Hname as [-> | ->]; reflexivity).
    assert (Hsw : String.eqb (tok_name token) "string"
                  || String.eqb (tok_name token) "word" = true)
      by (destruct Hname as [-> | ->]; reflexivity).
    assert (Hline : String.eqb (tok_name token) "line" = false)
      by (destruct Hname as [-> | ->]; reflexivity).
    assert (Hend : String.eqb (tok_name token) "end" = false)
      by (destruct Hname as [-> | ->]; reflexivity).
    rewrite Hhead, Hnum, Hsw, Hdrop. simpl deref. simpl tl.
    change (is_char DQUOTE DQUOTE) with true. cbv iota beta. fold n.
    destruct (decide (n ≠ 0)) as [Hn|Hn].
    - change (drop 1 (DQUOTE :: rest)) with rest.
      unfold n at 1. rewrite copy_escaped_quoted. fold n. fold content. fold v.
      replace (if is_char (deref (drop (walk r + 1 + n) input)) DQUOTE
               then walk r + 1 + n + 1 else walk r + 1 + n) with w.
      + destruct (push_identified _ _ _) as [stk| | |]; simpl; try reflexivity.
        destruct (next_state _ _) as [p'| | |]; reflexivity.
      + unfold w.
        replace (walk r + 1 + n) with (walk r + (1 + n)) by lia.
        rewrite <- drop_drop, Hdrop. simpl drop.
        destruct (is_char (deref (drop n rest)) DQUOTE) eqn:Hq.
        * apply deref_drop in Hq as [Hq|[_ Hq]]; [|discriminate].
          rewrite decide_True by exact Hq. lia.
        * rewrite decide_False; [lia|]. intros Hq'.
          assert (is_char (deref (drop n rest)) DQUOTE = true)
            by (apply deref_drop; auto). congruence.
    - simpl. rewrite Hline, Hend. reflexivity. }
  split; [|split; [|split; [|split; [|split]]]].
  - intros H. apply Hempty in H. rewrite Htry, decide_False by lia. reflexivity.
  - intros H. rewrite Htry, decide_True; [reflexivity|]. rewrite <- Hempty. exact H.
  - apply quoted_len_stop.
  - intros i Hi Hl. pose proof (quoted_len_inside DQUOTE rest i Hi Hl) as H.
    destruct i as [|i']; [discriminate H|]. eauto.
  - apply unescape_spec_no_escape.
  - apply unescape_spec_escape.
Qed.

End QuotedLemmas.

(** C6 at the quoted string of scenario S2, tried by [cmd = string]. *)
Lemma quoted_token_capture_witness :
  let input := c_bytes quoted_echo in
  let token := mk_token "string" (Some "cmd") EXEC_END 0 in
  let r := parse_start initial_parser false in
  let rest := tl input in
  let n := quoted_len DQUOTE rest in
  let content := take n rest in
  let v := string_of_list_ascii (unescape_spec content) in
  let w := walk r + 1 + n + (if decide (rest !! n = Some DQUOTE) then 1 else 0) in
  v = echo_value
  ∧ (content = [] →
     try_token call_to_INITIAL input token r = Ok (NotHandled (walk r + 1)))
  ∧ (content ≠ [] →
     try_token call_to_INITIAL input token r =
       (stk ←! push_identified (tok_identifier token) v (stack (globals r));
        p' ←! next_state call_to_INITIAL token (set_stack (globals r) stk);
        Ok (handled r p' w 0)))
  ∧ (rest !! n = Some DQUOTE ∨ n = length rest)
  ∧ (∀ i, i < n → rest !! i = Some DQUOTE →
          ∃ i', i = S i' ∧ rest !! i' = Some BACKSLASH)
  ∧ (∀ a, has_escape a = false → unescape_spec a = a)
  ∧ (∀ a b, has_escape a = false →
            unescape_spec (a ++ BACKSLASH :: DQUOTE :: b)
            = a ++ DQUOTE :: unescape_spec b).
Proof.
  intros input token r rest n content v w. split; [reflexivity|].
  apply (quoted_token_capture call_to_INITIAL input token r rest).
  - left. reflexivity.
  - reflexivity.
Defined.

(** Scenario S2 up to the handler call: two passes into the parse of
    [exec_input] the captured [cmd] is the unescaped value, and the parse as
    a whole emits no diagnostic. *)
Example parse_config_exec_input :
  (∃ r, reaches scenario_tokens call_to_INITIAL exec_input
          (parse_start initial_parser false) r
        ∧ state (globals r) = EXEC_END
        ∧ get_string "cmd" (stack (globals r)) = str_ptr echo_value)
  ∧ ∃ r, parse_config scenario_tokens call_to_INITIAL 10 exec_input
           initial_parser false = Some (Ok r)
         ∧ json r = [] ∧ state (globals r) = INITIAL.
Proof.
  split.
  - eexists. split.
    + eapply reaches_step; [vm_compute; lia|vm_compute; reflexivity|].
      eapply reaches_step; [vm_compute; lia|vm_compute; reflexivity|].
      apply reaches_here.
    + split; reflexivity.
  - eexists. split; [vm_compute; reflexivity|]. split; reflexivity.
Qed.

(** An empty quoted string is no match, and the cursor stays behind the
    opening quote. *)
Example empty_quoted_string_no_match :
  try_token call_to_INITIAL
    (c_bytes (DQUOTE_string +:+ DQUOTE_string))
    (mk_token "string" (Some "cmd") EXEC_END 0)
    (parse_start initial_parser false)
  = Ok (NotHandled 1).
Proof. reflexivity. Qed.

(** ** How far the lexer moves the cursor *)

Section LexerBounds.

Implicit Types (input here l : list ascii) (name : string).

Lemma tolower_NUL c : tolower c = NUL → c = NUL.
Proof.
  destruct c as [[] [] [] [] [] [] [] []]; vm_compute; intros H;
    first [reflexivity | discriminate H].
Qed.

Lemma deref_not_NUL l : deref l ≠ NUL → 0 < length l.
Proof. destruct l; simpl; [congruence|lia]. Qed.

(** A literal without NUL matches only bytes that are there. *)
Lemma strncasecmp_eq_length here lit n :
  strncasecmp_eq here lit n = true →
  n ≤ length lit → NUL ∉ lit → n ≤ length here.
Proof.
  revert here lit. induction n as [|n IH]; intros here lit; simpl; [lia|].
  destruct (is_char (tolower (deref here)) (tolower (deref lit))) eqn:Hc;
    [|discriminate].
  apply is_char_true in Hc.
  intros H Hlen Hnul.
  destruct lit as [|c2 lit]; [simpl in Hlen; lia|].
  assert (Hc2 : c2 ≠ NUL).
  { intros ->. apply Hnul, list_elem_of_here. }
  assert (Hc1 : deref here ≠ NUL).
  { intros H1. rewrite H1 in Hc. simpl in Hc. symmetry in Hc.
    apply tolower_NUL in Hc. contradiction. }
  destruct here as [|c1 here]; [contradiction|]. simpl in *.
  apply is_char_false in Hc1. rewrite Hc1 in H.
  apply IH in H; [lia|lia|].
  intros Hin. apply Hnul, list_elem_of_further, Hin.
Qed.

Lemma strtol_end_le l : sr_end (strtol l) ≤ length l.
Proof.
  unfold strtol.
  set (ws := span_len isspace l).
  set (after_ws := drop ws l).
  set (sign := if is_char (deref after_ws) "-" || is_char (deref after_ws) "+"
               then 1 else 0).
  set (digits := drop sign after_ws).
  set (nd := span_len isdigit digits).
  assert (Hws : ws ≤ length l) by apply span_len_le.
  assert (Hlen_after : length after_ws = length l - ws) by apply length_drop.
  assert (Hsign : sign ≤ length after_ws).
  { unfold sign.
    destruct (is_char (deref after_ws) "-" || is_char (deref after_ws) "+") eqn:Hs;
      [|lia].
    apply deref_not_NUL. intros H0. rewrite H0 in Hs. discriminate Hs. }
  assert (Hnd : nd ≤ length after_ws - sign).
  { unfold nd. etransitivity; [apply span_len_le|].
    unfold digits. rewrite length_drop. lia. }
  destruct (decide (nd = 0)); simpl; [lia|].
  repeat (destruct (decide _); simpl); lia.
Qed.

(** The string and word scans stay inside the input. *)
Lemma quoted_scan_le here :
  is_char (deref here) DQUOTE = true →
  1 + quoted_len DQUOTE (tl here) ≤ length here.
Proof.
  destruct here as [|c here]; simpl; [discriminate|].
  intros _. pose proof (quoted_len_le DQUOTE here). lia.
Qed.

Lemma closing_quote_le input w :
  w ≤ length input →
  (if is_char (deref (drop w input)) DQUOTE then w + 1 else w) ≤ length input.
Proof.
  intros Hw. destruct (is_char (deref (drop w input)) DQUOTE) eqn:Hq; [|exact Hw].
  assert (0 < length (drop w input)).
  { apply deref_not_NUL. intros H0. rewrite H0 in Hq. discriminate Hq. }
  rewrite length_drop in *. lia.
Qed.

Lemma string_length_tail name :
  is_char (name_head name) APOSTROPHE = true →
  String.length name - 1 = length (list_ascii_of_string (name_tail name)).
Proof.
  destruct name as [|c name]; [discriminate|]. intros _. simpl.
  rewrite Nat.sub_0_r. induction name as [|d name IH]; simpl; [reflexivity|].
  f_equal. exact IH.
Qed.

Lemma name_tail_nonempty name :
  name_tail name ≠ EmptyString → 0 < length (list_ascii_of_string (name_tail name)).
Proof. destruct (name_tail name); simpl; [congruence|lia]. Qed.

(** A match moves the cursor forward and at most one byte past the NUL. *)
Lemma lex_token_Match input name w0 c w bump :
  w0 ≤ length input → literal_ok name →
  lex_token input name w0 = Match c w bump →
  w0 < w ≤ length input + 1.
Proof.
  intros Hw0 Hlit. unfold lex_token.
  destruct (is_char (name_head name) APOSTROPHE) eqn:Hhead.
  { destruct (Hlit Hhead) as [Hne Hnul].
    destruct (strncasecmp_eq _ _ _) eqn:Hcmp; [|discriminate].
    intros [= <- <- <-].
    rewrite string_length_tail in * by exact Hhead.
    apply strncasecmp_eq_length in Hcmp; [|lia|exact Hnul].
    apply name_tail_nonempty in Hne. rewrite length_drop in Hcmp. lia. }
  destruct (String.eqb name "number").
  { destruct (_ || _); [discriminate|].
    destruct (decide (sr_end _ = 0)) as [|Hne]; [discriminate|].
    intros [= <- <- <-].
    pose proof (strtol_end_le (drop w0 input)) as Hle.
    rewrite length_drop in Hle. lia. }
  assert (Htail : ∀ w1, w0 ≤ w1 ≤ length input →
            (if String.eqb name "line"
             then Match None (w1 + span_len not_eol (drop w1 input) + 1) 1
             else if String.eqb name "end"
                  then if is_char (deref (drop w1 input)) NUL
                          || is_char (deref (drop w1 input)) LF
                          || is_char (deref (drop w1 input)) CR
                       then Match None (w1 + 1) 1 else NoMatch w1
                  else NoMatch w1) = Match c w bump →
            w0 < w ≤ length input + 1).
  { intros w1 Hw1. destruct (String.eqb name "line").
    - intros [= <- <- <-].
      pose proof (span_len_le not_eol (drop w1 input)) as Hle.
      rewrite length_drop in Hle. lia.
    - destruct (String.eqb name "end"); [|discriminate].
      destruct (_ || _); [|discriminate]. intros [= <- <- <-]. lia. }
  destruct (String.eqb name "string" || String.eqb name "word").
  - destruct (is_char (deref (drop w0 input)) DQUOTE) eqn:Hq.
    + pose proof (quoted_scan_le _ Hq) as Hle. rewrite length_drop in Hle.
      destruct (decide (quoted_len DQUOTE (tl (drop w0 input)) ≠ 0)) as [Hn|Hn].
      * intros [= <- <- <-].
        pose proof (closing_quote_le input
                      (w0 + 1 + quoted_len DQUOTE (tl (drop w0 input)))
                      ltac:(lia)) as Hcl.
        destruct (is_char _ DQUOTE); lia.
      * apply Htail. lia.
    + destruct (is_char (name_head name) "s").
      * pose proof (span_len_le not_eol (drop w0 input)) as Hle.
        rewrite length_drop in Hle.
        destruct (decide (span_len not_eol (drop w0 input) ≠ 0)) as [Hn|Hn].
        -- intros [= <- <- <-].
           pose proof (closing_quote_le input
                         (w0 + 0 + span_len not_eol (drop w0 input))
                         ltac:(lia)) as Hcl.
           destruct (is_char _ DQUOTE); lia.
        -- apply Htail. lia.
      * pose proof (span_len_le not_word_delimiter (drop w0 input)) as Hle.
        rewrite length_drop in Hle.
        destruct (decide (span_len not_word_delimiter (drop w0 input) ≠ 0)) as [Hn|Hn].
        -- intros [= <- <- <-].
           pose proof (closing_quote_le input
                         (w0 + 0 + span_len not_word_delimiter (drop w0 input))
                         ltac:(lia)) as Hcl.
           destruct (is_char _ DQUOTE); lia.
        -- apply Htail. lia.
  - apply Htail. lia.
Qed.

(** A descriptor that does not match leaves the cursor inside the input; a
    [line] descriptor always matches, and an [end] descriptor fails only on a
    byte that is neither NUL nor a line end. *)
Lemma lex_token_NoMatch input name w0 w :
  w0 ≤ length input →
  lex_token input name w0 = NoMatch w →
  w0 ≤ w ≤ length input
  ∧ name ≠ "line"
  ∧ (name = "end" → ∃ c, input !! w = Some c ∧ c ≠ LF).
Proof.
  intros Hw0. unfold lex_token.
  destruct (is_char (name_head name) APOSTROPHE) eqn:Hhead.
  { destruct (strncasecmp_eq _ _ _); [discriminate|]. intros [= <-].
    split; [lia|]. split; [intros ->; discriminate Hhead|].
    intros ->; discriminate Hhead. }
  destruct (String.eqb name "number") eqn:Hnum.
  { apply String.eqb_eq in Hnum. subst name.
    destruct (_ || _); [|destruct (decide _); [|discriminate]];
      intros [= <-]; (split; [lia|]); split; discriminate. }
  assert (Htail : ∀ w1, w0 ≤ w1 ≤ length input →
            (if String.eqb name "line"
             then Match None (w1 + span_len not_eol (drop w1 input) + 1) 1
             else if String.eqb name "end"
                  then if is_char (deref (drop w1 input)) NUL
                          || is_char (deref (drop w1 input)) LF
                          || is_char (deref (drop w1 input)) CR
                       then Match None (w1 + 1) 1 else NoMatch w1
                  else NoMatch w1) = NoMatch w →
            w0 ≤ w ≤ length input
            ∧ name ≠ "line"
            ∧ (name = "end" → ∃ c, input !! w = Some c ∧ c ≠ LF)).
  { intros w1 Hw1.
    destruct (String.eqb_spec name "line") as [|Hline]; [discriminate|].
    destruct (String.eqb_spec name "end") as [Hend|Hend].
    - destruct (_ || _) eqn:Hc; [discriminate|]. intros [= <-].
      split; [lia|]. split; [exact Hline|]. intros _.
      apply orb_false_iff in Hc as [Hc Hcr].
      apply orb_false_iff in Hc as [Hnul Hlf].
      apply is_char_false in Hnul, Hlf.
      destruct (input !! w1) as [c|] eqn:Hl.
      + exists c. split; [reflexivity|].
        rewrite (drop_S _ _ _ Hl) in Hlf. exact Hlf.
      + apply lookup_ge_None in Hl. rewrite drop_ge in Hnul by exact Hl.
        contradiction.
    - intros [= <-]. split; [lia|]. split; [exact Hline|]. contradiction. }
  destruct (String.eqb name "string" || String.eqb name "word") eqn:Hsw.
  - assert (Hline : name ≠ "line") by (intros ->; discriminate Hsw).
    assert (Hend : name ≠ "end") by (intros ->; discriminate Hsw).
    apply String.eqb_neq in Hline, Hend. rewrite Hline, Hend.
    apply String.eqb_neq in Hline, Hend.
    destruct (is_char (deref (drop w0 input)) DQUOTE) eqn:Hq.
    + pose proof (quoted_scan_le _ Hq) as Hle. rewrite length_drop in Hle.
      destruct (decide _); [discriminate|]. intros [= <-].
      split; [lia|]. split; [exact Hline|]. contradiction.
    + destruct (is_char (name_head name) "s");
        (destruct (decide _); [discriminate|]); intros [= <-];
        (split; [lia|]); split; [exact Hline|contradiction|exact Hline|contradiction].
  - apply Htail. lia.
Qed.

(** A [number] descriptor captures an integer, every other descriptor a
    string. *)
Lemma lex_token_kind input name w0 c w bump :
  lex_token input name w0 = Match (Some c) w bump →
  match c with
  | capture_long _ => name = "number"
  | capture_string _ => name ≠ "number"
  end.
Proof.
  unfold lex_token.
  destruct (is_char (name_head name) APOSTROPHE) eqn:Hhead.
  { destruct (strncasecmp_eq _ _ _); [|discriminate]. intros [= <- _ _].
    intros ->. discriminate Hhead. }
  destruct (String.eqb_spec name "number") as [Hnum|Hnum].
  { destruct (_ || _); [discriminate|]. destruct (decide _); [discriminate|].
    intros [= <- _ _]. exact Hnum. }
  destruct (String.eqb name "string" || String.eqb name "word").
  - destruct (if is_char (deref (drop w0 input)) DQUOTE then _ else _) as [skip n].
    destruct (decide (n ≠ 0)).
    + intros [= <- _ _]. exact Hnum.
    + destruct (String.eqb name "line"); [discriminate|].
      destruct (String.eqb name "end"); [|discriminate].
      destruct (_ || _); discriminate.
  - destruct (String.eqb name "line"); [discriminate|].
    destruct (String.eqb name "end"); [|discriminate].
    destruct (_ || _); discriminate.
Qed.

End LexerBounds.

(** ** The main loop under a well-formed grammar *)

Section Termination.

Variable tokens : cmdp_state → list cmdp_token.
Variable GENERATED_call : Z → cmdp_state → list stack_entry → cmdp_state.
Variable path : cmdp_state → list cmdp_state.
Variable cap : cmdp_state → nat.
Hypothesis Hwf : grammar_wf tokens GENERATED_call path cap.

Local Abbreviation next_state := (next_state GENERATED_call).
Local Abbreviation committed_state := (committed_state GENERATED_call).
Local Abbreviation try_token := (try_token GENERATED_call).
Local Abbreviation token_loop := (token_loop GENERATED_call).
Local Abbreviation apply_lexeme := (apply_lexeme GENERATED_call).
Local Abbreviation syntax_error := (syntax_error tokens GENERATED_call).
Local Abbreviation iteration := (iteration tokens GENERATED_call).
Local Abbreviation main_loop := (main_loop tokens GENERATED_call).
Local Abbreviation parse_config := (parse_config tokens GENERATED_call).
Local Abbreviation reaches := (reaches tokens GENERATED_call).
Local Abbreviation typed := (typed tokens).
Local Abbreviation number_identifier := (number_identifier tokens).
Local Abbreviation parse_inv := (parse_inv tokens path cap).
Local Abbreviation measure := (measure tokens).

Implicit Types (p q : parser) (r : run) (st : list stack_entry).

(** *** Transitions along the paths *)

Lemma path_last s : ∃ l, path s = l ++ [s].
Proof. apply last_Some. apply (wf_path _ _ _ _ Hwf s). Qed.

Lemma path_elem s : s ∈ path s.
Proof.
  destruct (path_last s) as [l ->]. apply elem_of_app. right.
  apply list_elem_of_here.
Qed.

Lemma next_state_path token p :
  length (statelist p) = statelist_capacity →
  trail_rooted p →
  trail p = path (state p) →
  path (committed_state token p) `prefix_of` path (state p)
  ∨ path (committed_state token p) = path (state p) ++ [committed_state token p] →
  ∃ p', next_state token p = Ok p'
        ∧ state p' = committed_state token p
        ∧ length (statelist p') = statelist_capacity
        ∧ trail_rooted p'
        ∧ trail p' = path (state p')
        ∧ stack p' = if decide (tok_next_state token = __CALL
                                ∨ committed_state token p = INITIAL)
                     then clear_stack (stack p) else stack p.
Proof.
  intros Hlen Hroot Htrail Hmove.
  set (t := committed_state token p) in *.
  assert (Hidx : statelist_idx p = length (path (state p))).
  { rewrite <- Htrail. unfold trail. rewrite length_take.
    destruct Hroot as [[_ Hhi] _]. lia. }
  destruct (wf_path _ _ _ _ Hwf t) as (Hnd_t & Hlen_t & _).
  destruct (wf_path _ _ _ _ Hwf (state p)) as (Hnd_s & _ & _).
  assert (Hex : ∃ p', next_state token p = Ok p' ∧ trail p' = path t).
  { rewrite next_state_unfold. simpl. fold t.
    destruct (statelist_find t (statelist p) (statelist_idx p) 0) as [j|] eqn:Hf.
    - apply statelist_find_Some in Hf as (k & -> & Hk & Hl & _).
      assert (Htk : path (state p) !! k = Some t).
      { rewrite <- Htrail. unfold trail. rewrite lookup_take_lt by exact Hk.
        exact Hl. }
      eexists. split; [reflexivity|]. unfold trail. simpl.
      rewrite (trail_take_of_trail p (k + 1)) by lia. rewrite Htrail.
      destruct Hmove as [[rest Hpre]|Happ].
      + destruct (path_last t) as [l Hl'].
        assert (Hk' : k = length l).
        { eapply NoDup_lookup; [exact Hnd_s|exact Htk|].
          rewrite Hpre, Hl', <- app_assoc. simpl.
          apply list_lookup_middle. reflexivity. }
        rewrite Hpre. replace (k + 1) with (length (path t))
          by (rewrite Hl', length_app; simpl; lia).
        apply take_app_length.
      + exfalso. rewrite Happ in Hnd_t. apply NoDup_app in Hnd_t as (_ & Hnot & _).
        apply (Hnot t); [eapply list_elem_of_lookup_2, Htk|apply list_elem_of_here].
    - destruct Hroot as [[Hlo Hhi] H0].
      apply statelist_find_None in Hf; [|exact Hhi]. fold (trail p) in Hf.
      rewrite Htrail in Hf.
      destruct Hmove as [[rest Hpre]|Happ].
      + exfalso. apply Hf. rewrite Hpre. apply elem_of_app. left. apply path_elem.
      + assert (Hlt : statelist_idx p < length (statelist p)).
        { rewrite Hlen, Hidx. rewrite Happ, length_app in Hlen_t. simpl in Hlen_t.
          unfold statelist_capacity in *. lia. }
        rewrite decide_True by exact Hlt.
        eexists. split; [reflexivity|]. unfold trail. simpl.
        replace (statelist_idx p + 1) with (S (statelist_idx p)) by lia.
        erewrite take_S_r by (apply list_lookup_insert_eq; exact Hlt).
        rewrite take_insert_ge by lia. fold (trail p). rewrite Htrail, Happ.
        reflexivity. }
  destruct Hex as (p' & Hn & Htr). exists p'.
  pose proof (next_state_state _ _ _ _ Hn) as Hst. fold t in Hst.
  split; [exact Hn|]. split; [exact Hst|].
  split; [|split; [eapply next_state_trail_rooted; eassumption|split]].
  - revert Hn. rewrite next_state_unfold. simpl.
    destruct (statelist_find _ _ _ _); [intros [= <-]; exact Hlen|].
    destruct (decide _); [|discriminate]. intros [= <-]. simpl.
    rewrite length_insert. exact Hlen.
  - rewrite Hst. exact Htr.
  - rewrite (next_state_stack _ _ _ _ Hn), Hst. reflexivity.
Qed.

(** *** Captures within the capacity of the stack *)

Lemma free_slots_clear_stack st : free_slots (clear_stack st) = length st.
Proof. induction st as [|e st IH]; simpl; [reflexivity|]. rewrite IH. reflexivity. Qed.

Lemma typed_all_free st : Forall slot_free st → typed st.
Proof.
  intros H. eapply Forall_impl; [exact H|].
  intros e He id Hid. unfold slot_free in He. congruence.
Qed.

Lemma typed_clear_stack st : typed (clear_stack st).
Proof.
  apply typed_all_free. eapply Forall_impl; [apply clear_stack_unused|].
  apply unused_free.
Qed.

Lemma push_string_inv id s st :
  typed st → ¬ number_identifier id → 0 < free_slots st →
  ∃ st', push_string id s st = Ok st'
         ∧ length st' = length st
         ∧ free_slots st ≤ free_slots st' + 1
         ∧ typed st'.
Proof.
  intros Hty Hid. induction st as [|e st IH]; simpl; [lia|].
  apply Forall_cons in Hty as [He Hty]. specialize (IH Hty).
  destruct (se_identifier e) as [i|] eqn:Hi.
  - destruct (String.eqb_spec i id) as [->|Hne].
    + destruct (He id eq_refl) as [[v Hv]|Hnum]; [|contradiction].
      rewrite Hv. intros _. eexists. split; [reflexivity|]. simpl. rewrite ?Hi.
      split; [reflexivity|]. split; [lia|].
      apply Forall_cons. split; [|exact Hty].
      intros id' _. left. eexists. reflexivity.
    + intros Hfree. destruct IH as (st' & -> & Hl & Hf & Hty'); [simpl in Hfree; lia|].
      simpl. eexists. split; [reflexivity|]. simpl. rewrite ?Hi.
      split; [lia|]. split; [lia|]. apply Forall_cons. split; [|exact Hty'].
      intros id'. rewrite Hi. apply He.
  - intros _. eexists. split; [reflexivity|]. simpl.
    split; [reflexivity|]. split; [lia|].
    apply Forall_cons. split; [|exact Hty].
    intros id' _. left. eexists. reflexivity.
Qed.

Lemma push_long_inv id n st :
  typed st → number_identifier id → 0 < free_slots st →
  ∃ st', push_long id n st = Ok st'
         ∧ length st' = length st
         ∧ free_slots st ≤ free_slots st' + 1
         ∧ typed st'.
Proof.
  intros Hty Hid. induction st as [|e st IH]; simpl; [lia|].
  apply Forall_cons in Hty as [He Hty]. specialize (IH Hty).
  destruct (se_identifier e) as [i|] eqn:Hi.
  - intros Hfree. destruct IH as (st' & -> & Hl & Hf & Hty'); [simpl in Hfree; lia|].
    simpl. eexists. split; [reflexivity|]. simpl. rewrite ?Hi.
    split; [lia|]. split; [lia|]. apply Forall_cons. split; [|exact Hty'].
    intros id'. rewrite Hi. apply He.
  - intros _. eexists. split; [reflexivity|]. simpl.
    split; [reflexivity|]. split; [lia|].
    apply Forall_cons. split; [|exact Hty].
    intros id' [= <-]. right. exact Hid.
Qed.

Lemma push_capture_inv s token c st :
  token ∈ tokens s → capture_of_kind (tok_name token) c →
  typed st → 0 < free_slots st →
  ∃ stk, push_capture (tok_identifier token) c st = Ok stk
         ∧ length stk = length st
         ∧ free_slots st
           ≤ free_slots stk
             + (match tok_identifier token with Some _ => 1 | None => 0 end)
         ∧ typed stk.
Proof.
  intros Hin Hkind Hty Hfree. unfold push_capture.
  destruct (tok_identifier token) as [id|] eqn:Hid;
    [|exists st; split; [reflexivity|]; split; [reflexivity|]; split; [lia|exact Hty]].
  destruct c as [[v|n]|]; simpl in Hkind.
  - apply push_string_inv; [exact Hty| |exact Hfree].
    eapply (wf_identifiers _ _ _ _ Hwf); eassumption.
  - apply push_long_inv; [exact Hty| |exact Hfree].
    exists s, token. auto.
  - exists st. split; [reflexivity|]. split; [reflexivity|]. split; [lia|exact Hty].
Qed.

(** *** One pass of the main loop *)

Lemma parse_inv_free_slot p : parse_inv p → 0 < free_slots (stack p).
Proof.
  intros (_ & _ & _ & _ & Hfree & _).
  pose proof (wf_cap _ _ _ _ Hwf (state p)). lia.
Qed.

(** A matching descriptor of the current state is applied without a fault,
    and the invariant holds afterwards. *)
Lemma apply_lexeme_ok token r c w bump :
  parse_inv (globals r) →
  token ∈ tokens (state (globals r)) →
  capture_of_kind (tok_name token) c →
  ∃ r', apply_lexeme token r (Match c w bump) = Ok (Handled r')
        ∧ parse_inv (globals r') ∧ walk r' = w.
Proof.
  intros Hinv Hin Hkind.
  pose proof (parse_inv_free_slot _ Hinv) as Hfree.
  destruct Hinv as (Hlen & Hroot & Htrail & Hslen & Hcap & Hty).
  destruct (push_capture_inv _ token c (stack (globals r)) Hin Hkind Hty Hfree)
    as (stk & Hp & Hl & Hf & Hty').
  set (q := set_stack (globals r) stk).
  destruct (next_state_path token q) as (p' & Hn & Hst & Hlen' & Hroot' & Htrail' & Hstack');
    [exact Hlen|exact Hroot|exact Htrail|apply (wf_transition _ _ _ _ Hwf); exact Hin|].
  unfold apply_lexeme. rewrite Hp. simpl. fold q. rewrite Hn. simpl.
  eexists. split; [reflexivity|]. simpl. split; [|reflexivity].
  split; [exact Hlen'|]. split; [exact Hroot'|]. split; [exact Htrail'|].
  rewrite Hstack'. simpl.
  destruct (decide (tok_next_state token = __CALL ∨ committed_state token q = INITIAL))
    as [Hclear|Hkeep].
  - rewrite length_clear_stack, free_slots_clear_stack, Hl.
    split; [exact Hslen|]. split; [lia|apply typed_clear_stack].
  - split; [lia|]. split; [|exact Hty'].
    assert (Hcs : committed_state token q = tok_next_state token).
    { unfold committed_state. rewrite decide_False by tauto. reflexivity. }
    rewrite Hst, Hcs.
    assert (Hc : cap (state (globals r))
                 + (match tok_identifier token with Some _ => 1 | None => 0 end)
                 ≤ cap (tok_next_state token)).
    { apply (wf_capture _ _ _ _ Hwf); [exact Hin|tauto|].
      rewrite <- Hcs. tauto. }
    lia.
Qed.

(** The error branch ends without a fault, in a state that accepts a line
    end, and the invariant holds afterwards. *)
Lemma syntax_error_ok input ptr r :
  parse_inv (globals r) →
  ∃ r', syntax_error input ptr r = Ok r'
        ∧ parse_inv (globals r')
        ∧ has_resync (tokens (state (globals r'))) = true
        ∧ walk r' = skip_line (c_bytes input) (walk r).
Proof.
  intros (Hlen & Hroot & Htrail & Hslen & Hcap & Hty).
  set (q := set_stack (globals r) (clear_stack (stack (globals r)))).
  destruct (nearest_error_token tokens (statelist (globals r))
              (statelist_idx (globals r))) as [token|] eqn:Hnear.
  2:{ exfalso. destruct Hroot as [Hidx H0].
      eapply nearest_error_token_rooted;
        [apply (wf_initial_error _ _ _ _ Hwf)|exact Hidx|exact H0|exact Hnear]. }
  destruct (nearest_error_token_Some _ _ _ _ Hnear) as (i & s & Hi & Hs & Ht & _).
  destruct (find_error_token_Some _ _ Ht) as [Hin Hname].
  destruct (wf_error _ _ _ _ Hwf s token Hin Hname) as (Hncall & Hpre & Hres).
  assert (Hs_in : s ∈ path (state (globals r))).
  { rewrite <- Htrail. apply elem_of_take. eauto. }
  assert (Hcs : committed_state token q = tok_next_state token).
  { unfold committed_state. rewrite decide_False by exact Hncall. reflexivity. }
  destruct (next_state_path token q) as (p' & Hn & Hst & Hlen' & Hroot' & Htrail' & Hstack');
    [exact Hlen|exact Hroot|exact Htrail| |].
  { left. rewrite Hcs. etransitivity; [exact Hpre|].
    apply (wf_path_closed _ _ _ _ Hwf), Hs_in. }
  unfold syntax_error. simpl. rewrite Hnear. fold q. rewrite Hn. simpl.
  eexists. split; [reflexivity|]. simpl.
  split; [|split; [rewrite Hst, Hcs; exact Hres|reflexivity]].
  split; [exact Hlen'|]. split; [exact Hroot'|]. split; [exact Htrail'|].
  assert (Hstk : stack p' = clear_stack (stack (globals r))).
  { rewrite Hstack'. simpl. destruct (decide _); [apply clear_stack_idemp|reflexivity]. }
  rewrite Hstk, length_clear_stack, free_slots_clear_stack.
  split; [exact Hslen|]. split; [lia|apply typed_clear_stack].
Qed.

Lemma skip_line_le (input : list ascii) w :
  w ≤ length input → skip_line input w ≤ length input + 1.
Proof.
  intros Hw. unfold skip_line.
  pose proof (span_len_le (λ c, negb (is_char c LF)) (drop w input)) as Hle.
  rewrite length_drop in *. destruct (decide _); lia.
Qed.

(** The token loop under the invariant: a descriptor matches, and the cursor
    moves forward; or none does, and if the state accepts a line end the
    cursor is on a byte behind which "skip the rest of this line" finds
    something to skip. *)
Lemma token_loop_ok (input : list ascii) l r :
  parse_inv (globals r) →
  walk r ≤ length input →
  (∀ t, t ∈ l → t ∈ tokens (state (globals r))) →
  (∃ r', token_loop input l r = Ok (Handled r')
         ∧ parse_inv (globals r') ∧ walk r < walk r' ≤ length input + 1)
  ∨ (∃ w, token_loop input l r = Ok (NotHandled w)
          ∧ walk r ≤ w ≤ length input
          ∧ (has_resync l = true → walk r < skip_line input w)).
Proof.
  revert r. induction l as [|token l IH]; intros r Hinv Hw Hsub.
  { right. exists (walk r). simpl. split; [reflexivity|]. split; [lia|discriminate]. }
  assert (Hin : token ∈ tokens (state (globals r))) by apply Hsub, list_elem_of_here.
  simpl. rewrite try_token_lex.
  destruct (lex_token input (tok_name token) (walk r)) as [c w bump|w] eqn:Hlex.
  - left.
    assert (Hkind : capture_of_kind (tok_name token) c).
    { destruct c as [c|]; [|exact I].
      apply lex_token_kind in Hlex. destruct c; exact Hlex. }
    destruct (apply_lexeme_ok token r c w bump Hinv Hin Hkind) as (r' & -> & Hinv' & Hw').
    simpl. exists r'. split; [reflexivity|]. split; [exact Hinv'|]. rewrite Hw'.
    eapply lex_token_Match; [exact Hw|apply (wf_literal _ _ _ _ Hwf _ _ Hin)|exact Hlex].
  - simpl.
    destruct (lex_token_NoMatch _ _ _ _ Hw Hlex) as (Hw1 & Hline & Hend).
    destruct (IH (set_walk r w)) as [(r' & Hl & Hinv' & Hr')|(w' & Hl & Hw' & Hres)];
      [exact Hinv|simpl; lia| |left|right].
    { intros t Ht. apply Hsub, list_elem_of_further, Ht. }
    + exists r'. split; [exact Hl|]. split; [exact Hinv'|]. simpl in Hr'. lia.
    + exists w'. split; [exact Hl|]. simpl in Hw'. split; [lia|].
      intros Hany. apply orb_true_iff in Hany as [Hhead|Htail].
      * apply orb_true_iff in Hhead as [He|Hl'].
        -- apply String.eqb_eq in He. destruct (Hend He) as (c & Hc & Hlf).
           destruct (skip_line_spec input w' ltac:(lia)) as (Hge & _ & Hat).
           destruct (decide (w' = w)) as [->|Hne]; [|lia].
           destruct Hat as [Hat|Hat]; [|lia].
           destruct (decide (skip_line input w = w)) as [Heq|Hneq]; [|lia].
           rewrite Heq, Hc in Hat. congruence.
        -- apply String.eqb_eq in Hl'. contradiction.
      * specialize (Hres Htail). simpl in Hres. lia.
Qed.

(** Every pass of the main loop ends without a fault, keeps the invariant,
    leaves the cursor at most one byte past the NUL and decreases
    [measure]. *)
Lemma iteration_ok input r :
  parse_inv (globals r) →
  walk r ≤ strlen input →
  ∃ r', iteration input r = Ok r'
        ∧ parse_inv (globals r')
        ∧ walk r' ≤ strlen input + 1
        ∧ measure input r' < measure input r.
Proof.
  intros Hinv Hw. unfold iteration, strlen in *.
  set (input_bytes := c_bytes input) in *.
  pose proof (span_len_le is_blank (drop (walk r) input_bytes)) as Hblank.
  rewrite length_drop in Hblank.
  set (r1 := set_walk r (walk r + span_len is_blank (drop (walk r) input_bytes))).
  destruct (token_loop_ok input_bytes (tokens (state (globals r1))) r1)
    as [(r' & Hl & Hinv' & Hr')|(w & Hl & Hw' & Hres)];
    [exact Hinv|simpl; lia|auto| |].
  - rewrite Hl. simpl. exists r'. split; [reflexivity|]. split; [exact Hinv'|].
    simpl in Hr'. split; [lia|].
    unfold measure, strlen. fold input_bytes.
    destruct (has_resync (tokens (state (globals r')))),
             (has_resync (tokens (state (globals r)))); lia.
  - rewrite Hl. unfold obind.
    destruct (syntax_error_ok input (tokens (state (globals r1))) (set_walk r1 w))
      as (r' & Hs & Hinv' & Hres' & Hwalk); [exact Hinv|].
    rewrite Hs. exists r'. split; [reflexivity|]. split; [exact Hinv'|].
    simpl in Hwalk, Hw', Hres. fold input_bytes in Hwalk.
    pose proof (skip_line_le input_bytes w ltac:(lia)) as Hle.
    destruct (skip_line_spec input_bytes w ltac:(lia)) as (Hge & _).
    split; [lia|].
    unfold measure, strlen. fold input_bytes. rewrite Hres'.
    change (state (globals r1)) with (state (globals r)) in Hres.
    destruct (has_resync (tokens (state (globals r)))); [|lia].
    specialize (Hres eq_refl). lia.
Qed.

Lemma main_loop_ok fuel input r :
  parse_inv (globals r) →
  walk r ≤ strlen input + 1 →
  measure input r < fuel →
  ∃ r', main_loop fuel input r = Some (Ok r') ∧ walk r' = strlen input + 1.
Proof.
  revert r. induction fuel as [|fuel IH]; intros r Hinv Hw Hm; [lia|].
  simpl. destruct (decide (walk r ≤ strlen input)) as [Hin|Hout].
  - destruct (iteration_ok input r Hinv Hin) as (r1 & -> & Hinv1 & Hw1 & Hm1).
    apply IH; [exact Hinv1|exact Hw1|lia].
  - exists r. split; [reflexivity|lia].
Qed.

Lemma reaches_walk input r r' :
  reaches input r r' →
  parse_inv (globals r) → walk r ≤ strlen input + 1 →
  walk r' ≤ strlen input + 1.
Proof.
  induction 1 as [r|r r1 r2 Hw Hit _ IH]; intros Hinv Hle; [exact Hle|].
  destruct (iteration_ok input r Hinv Hw) as (r1' & Hit' & Hinv1 & Hw1 & _).
  rewrite Hit in Hit'. injection Hit' as <-. apply IH; assumption.
Qed.

Lemma free_slots_all_free st : Forall slot_free st → free_slots st = length st.
Proof.
  induction 1 as [|e st He _ IH]; simpl; [reflexivity|].
  unfold slot_free in He. rewrite He, IH. reflexivity.
Qed.

Lemma parse_start_inv p context_has_errors :
  statics_fresh p → parse_inv (globals (parse_start p context_has_errors)).
Proof.
  intros (Hlen & H0 & Hslen & Hfree). unfold parse_start. simpl.
  split; [exact Hlen|].
  split; [apply (parse_start_trail_rooted p context_has_errors), H0|].
  split; [|split; [exact Hslen|split; [|apply typed_all_free, Hfree]]].
  - unfold trail. simpl. rewrite (wf_path_initial _ _ _ _ Hwf).
    destruct (statelist p) as [|x l]; [discriminate|].
    simpl in H0. injection H0 as ->. reflexivity.
  - simpl. rewrite free_slots_all_free by exact Hfree. lia.
Qed.

(** The [end] descriptor at the terminating NUL. *)
Lemma try_token_end_at_NUL input token r :
  tok_name token = "end" →
  walk r = strlen input →
  try_token (c_bytes input) token r
  = (p' ←! next_state token (globals r);
     Ok (handled r p' (strlen input + 1) 1)).
Proof.
  intros Hname Hw. unfold try_token. rewrite Hname. simpl.
  rewrite Hw. unfold strlen. rewrite drop_ge by lia. reflexivity.
Qed.

(** Under a well-formed grammar and from fresh statics the main loop of
    [parse_config] ends normally for every input: without exit, failed
    assertion or undefined step, with the cursor one byte past the
    terminating NUL; twice the length of the input plus four passes are
    enough. *)
Corollary parse_config_completes input p context_has_errors :
  statics_fresh p →
  (∀ fuel, 2 * strlen input + 4 ≤ fuel →
     ∃ r, parse_config fuel input p context_has_errors = Some (Ok r)
          ∧ walk r = strlen input + 1)
  ∧ (∀ r, reaches input (parse_start p context_has_errors) r →
          walk r ≤ strlen input + 1)
  ∧ (∀ token r, tok_name token = "end" → walk r = strlen input →
       try_token (c_bytes input) token r
       = (p' ←! next_state token (globals r);
          Ok (handled r p' (strlen input + 1) 1))).
Proof.
  intros Hfresh.
  pose proof (parse_start_inv p context_has_errors Hfresh) as Hinv.
  split; [|split].
  - intros fuel Hfuel. unfold parse_config.
    apply main_loop_ok; [exact Hinv|simpl; lia|].
    unfold measure. simpl. destruct (has_resync _); lia.
  - intros r Hr. eapply reaches_walk; [exact Hr|exact Hinv|simpl; lia].
  - apply try_token_end_at_NUL.
Qed.

End Termination.

(** ** Termination of the main loop *)

Lemma push_string_outcome id s st :
  match push_string id s st with
  | Ok _ => True
  | Exit status message =>
      status = 1%Z ∧ message = stack_full_message ∧ free_slots st = 0
  | AssertFailed => False
  | Undefined => number_under id st
  end.
Proof.
  induction st as [|e st IH]; simpl; [auto|].
  destruct (se_identifier e) as [i|] eqn:Hi; [|exact I].
  destruct (String.eqb_spec i id) as [->|Hne].
  - destruct (se_val e) as [v|n] eqn:Hv; [exact I|].
    exists e, n. split; [apply list_elem_of_here|]. auto.
  - destruct (push_string id s st) as [st'| | |]; simpl; auto.
    destruct IH as (e' & n & Hin & Hid & Hv).
    exists e', n. split; [apply list_elem_of_further, Hin|]. auto.
Qed.

Lemma push_long_outcome id n st :
  match push_long id n st with
  | Ok _ => True
  | Exit status message =>
      status = 1%Z ∧ message = stack_full_message ∧ free_slots st = 0
  | AssertFailed | Undefined => False
  end.
Proof.
  induction st as [|e st IH]; simpl; [auto|].
  destruct (se_identifier e) as [i|] eqn:Hi; [|exact I].
  destruct (push_long id n st) as [st'| | |]; simpl; auto.
Qed.

Lemma push_capture_outcome identifier c st :
  match push_capture identifier c st with
  | Ok _ => True
  | Exit status message =>
      status = 1%Z ∧ message = stack_full_message ∧ free_slots st = 0
  | AssertFailed => False
  | Undefined => ∃ id, number_under id st
  end.
Proof.
  unfold push_capture. destruct identifier as [id|]; [|exact I].
  destruct c as [[s|n]|]; [| |exact I].
  - pose proof (push_string_outcome id s st) as H.
    destruct (push_string id s st); eauto.
  - pose proof (push_long_outcome id n st) as H.
    destruct (push_long id n st); auto. contradiction.
Qed.

Section Progress.

Variable tokens : cmdp_state → list cmdp_token.
Variable GENERATED_call : Z → cmdp_state → list stack_entry → cmdp_state.

Local Abbreviation next_state := (next_state GENERATED_call).
Local Abbreviation committed_state := (committed_state GENERATED_call).
Local Abbreviation try_token := (try_token GENERATED_call).
Local Abbreviation token_loop := (token_loop GENERATED_call).
Local Abbreviation apply_lexeme := (apply_lexeme GENERATED_call).
Local Abbreviation syntax_error := (syntax_error tokens GENERATED_call).
Local Abbreviation iteration := (iteration tokens GENERATED_call).
Local Abbreviation main_loop := (main_loop tokens GENERATED_call).
Local Abbreviation parse_config := (parse_config tokens GENERATED_call).
Local Abbreviation reaches := (reaches tokens GENERATED_call).
Local Abbreviation ends_as := (ends_as tokens GENERATED_call).
Local Abbreviation measure := (measure tokens).

Implicit Types (p q : parser) (r : run) (st : list stack_entry).

Lemma next_state_Undefined token q :
  next_state token q = Undefined → length (statelist q) ≤ statelist_idx q.
Proof.
  rewrite next_state_unfold. simpl.
  destruct (statelist_find _ _ _ _); [discriminate|].
  destruct (decide _); [discriminate|]. lia.
Qed.

Lemma apply_lexeme_outcome token r lx :
  statelist_idx (globals r) ≤ length (statelist (globals r)) →
  abnormal r (apply_lexeme token r lx)
  ∧ ∀ a, apply_lexeme token r lx = Ok a →
         match lx with
         | Match c w bump => ∃ r', a = Handled r' ∧ walk r' = w
         | NoMatch w => a = NotHandled w
         end.
Proof.
  intros Hidx. destruct lx as [c w bump|w]; simpl;
    [|split; [exact I|intros a [= <-]; reflexivity]].
  pose proof (push_capture_outcome (tok_identifier token) c (stack (globals r))) as Hp.
  destruct (push_capture _ _ _) as [stk| | |]; simpl;
    [|split; [auto|discriminate]|contradiction|split; [auto|discriminate]].
  destruct (next_state token (set_stack (globals r) stk)) as [p'| | |] eqn:Hn; simpl.
  - split; [exact I|]. intros a [= <-]. eexists. split; reflexivity.
  - destruct (next_state_outcome GENERATED_call token (set_stack (globals r) stk))
      as [[p' H]|H]; congruence.
  - destruct (next_state_outcome GENERATED_call token (set_stack (globals r) stk))
      as [[p' H]|H]; congruence.
  - split; [|discriminate]. left.
    apply next_state_Undefined in Hn. simpl in Hn. lia.
Qed.

Section Grammar.

Hypothesis Hliteral : ∀ s token, token ∈ tokens s → literal_ok (tok_name token).
Hypothesis Hresync : ∀ s token q,
  token ∈ tokens s → tok_name token = "error" →
  has_resync (tokens (committed_state token q)) = true.
Hypothesis Hinitial : find_error_token (tokens INITIAL) ≠ None.

(** The token loop: it ends abnormally only as [abnormal] says; when a
    descriptor matches the cursor moves forward; when none does and one of
    the descriptors accepts a line end, the cursor is on a byte behind which
    "skip the rest of this line" finds something to skip. *)
Lemma token_loop_progress (input : list ascii) l r :
  statelist_idx (globals r) ≤ length (statelist (globals r)) →
  walk r ≤ length input →
  (∀ t, t ∈ l → literal_ok (tok_name t)) →
  abnormal r (token_loop input l r)
  ∧ ∀ a, token_loop input l r = Ok a →
         match a with
         | Handled r' => walk r < walk r' ≤ length input + 1
         | NotHandled w =>
             walk r ≤ w ≤ length input
             ∧ (has_resync l = true → walk r < skip_line input w)
         end.
Proof.
  revert r. induction l as [|token l IH]; intros r Hidx Hw Hlit.
  { simpl. split; [exact I|]. intros a [= <-]. split; [lia|discriminate]. }
  simpl. rewrite try_token_lex.
  destruct (apply_lexeme_outcome token r
              (lex_token input (tok_name token) (walk r)) Hidx) as [Hab Hok].
  destruct (apply_lexeme token r _) as [a0| | |] eqn:Hap; simpl;
    [|split; [exact Hab|discriminate]|contradiction|split; [exact Hab|discriminate]].
  specialize (Hok a0 eq_refl).
  destruct (lex_token input (tok_name token) (walk r)) as [c w bump|w] eqn:Hlex.
  - destruct Hok as (r' & -> & Hw'). split; [exact I|]. intros a [= <-].
    rewrite Hw'.
    eapply lex_token_Match; [exact Hw|apply Hlit, list_elem_of_here|exact Hlex].
  - subst a0.
    destruct (lex_token_NoMatch _ _ _ _ Hw Hlex) as (Hw1 & Hline & Hend).
    destruct (IH (set_walk r w)) as [Hab' Hok'];
      [exact Hidx|simpl; lia|intros t Ht; apply Hlit, list_elem_of_further, Ht|].
    split; [exact Hab'|]. intros a Ha. specialize (Hok' a Ha).
    destruct a as [r'|w']; simpl in Hok'; [lia|].
    split; [lia|].
    intros Hany. apply orb_true_iff in Hany as [Hhead|Htail].
    + apply orb_true_iff in Hhead as [He|Hl'].
      * apply String.eqb_eq in He. destruct (Hend He) as (c & Hc & Hlf).
        destruct (skip_line_spec input w' ltac:(lia)) as (Hge & _ & Hat).
        destruct (decide (w' = w)) as [->|Hne]; [|lia].
        destruct Hat as [Hat|Hat]; [|lia].
        destruct (decide (skip_line input w = w)) as [Heq|Hneq]; [|lia].
        rewrite Heq, Hc in Hat. congruence.
      * apply String.eqb_eq in Hl'. contradiction.
    + destruct Hok' as [_ Hres]. specialize (Hres Htail). lia.
Qed.

(** The error branch: the assertion holds, and the branch ends in a state
    that accepts a line end. *)
Lemma syntax_error_progress input ptr r :
  trail_rooted (globals r) →
  abnormal r (syntax_error input ptr r)
  ∧ ∀ r', syntax_error input ptr r = Ok r' →
          has_resync (tokens (state (globals r'))) = true
          ∧ walk r' = skip_line (c_bytes input) (walk r).
Proof.
  intros [Hidx H0]. split.
  - unfold syntax_error. simpl.
    destruct (nearest_error_token tokens (statelist (globals r))
                (statelist_idx (globals r))) as [token|] eqn:Hnear.
    2:{ eapply (nearest_error_token_rooted tokens); eassumption. }
    destruct (next_state token _) as [p'| | |] eqn:Hn; simpl; [exact I| | |].
    + destruct (next_state_outcome GENERATED_call token
                  (set_stack (globals r) (clear_stack (stack (globals r)))))
        as [[p' H]|H]; congruence.
    + destruct (next_state_outcome GENERATED_call token
                  (set_stack (globals r) (clear_stack (stack (globals r)))))
        as [[p' H]|H]; congruence.
    + left. apply next_state_Undefined in Hn. simpl in Hn. lia.
  - intros r' H. apply syntax_error_Ok in H as (token & Hnear & Hn & Hw & _).
    split; [|exact Hw].
    destruct (nearest_error_token_Some _ _ _ _ Hnear) as (i & s & Hi & Hs & Ht & _).
    destruct (find_error_token_Some _ _ Ht) as [Hin Hname].
    rewrite (next_state_state _ _ _ _ Hn). apply (Hresync s); assumption.
Qed.

(** One pass of the main loop: the cursor does not go back, it stays within
    one byte past the NUL, and either it moves forward or the pass leads
    from a state that accepts no line end into one that does. *)
Lemma iteration_progress input r :
  trail_rooted (globals r) →
  walk r ≤ strlen input →
  abnormal r (iteration input r)
  ∧ ∀ r', iteration input r = Ok r' →
          walk r' ≤ strlen input + 1
          ∧ (walk r < walk r'
             ∨ (walk r' = walk r
                ∧ has_resync (tokens (state (globals r))) = false
                ∧ has_resync (tokens (state (globals r'))) = true)).
Proof.
  intros Hroot Hw. unfold iteration, strlen in *.
  set (input_bytes := c_bytes input) in *.
  pose proof (span_len_le is_blank (drop (walk r) input_bytes)) as Hblank.
  rewrite length_drop in Hblank.
  set (r1 := set_walk r (walk r + span_len is_blank (drop (walk r) input_bytes))).
  destruct (token_loop_progress input_bytes (tokens (state (globals r1))) r1)
    as [Hab Hok]; [destruct Hroot as [[_ Hhi] _]; exact Hhi|simpl; lia
                   |intros t Ht; eapply Hliteral, Ht|].
  destruct (token_loop input_bytes (tokens (state (globals r1))) r1) as [[r'|w]| | |] eqn:Hl; simpl;
    [| |split; [exact Hab|discriminate]|contradiction
     |split; [exact Hab|discriminate]].
  - split; [exact I|]. intros r2 [= <-].
    specialize (Hok _ eq_refl). simpl in Hok. split; [lia|left; lia].
  - specialize (Hok _ eq_refl). simpl in Hok. destruct Hok as [Hw' Hres].
    destruct (syntax_error_progress input (tokens (state (globals r1)))
                (set_walk r1 w) Hroot) as [Hab' Hok'].
    split; [exact Hab'|]. intros r' Hs.
    destruct (Hok' r' Hs) as [Hres' Hwalk]. simpl in Hwalk.
    fold input_bytes in Hwalk.
    pose proof (skip_line_le input_bytes w ltac:(lia)) as Hle.
    destruct (skip_line_spec input_bytes w ltac:(lia)) as (Hge & _).
    split; [lia|].
    change (state (globals r1)) with (state (globals r)) in Hres.
    destruct (has_resync (tokens (state (globals r)))) eqn:Hold.
    + left. specialize (Hres eq_refl). lia.
    + destruct (decide (walk r < walk r')) as [Hlt|Hge']; [left; exact Hlt|].
      right. split; [lia|]. split; [reflexivity|exact Hres'].
Qed.

Lemma iteration_measure input r r' :
  trail_rooted (globals r) →
  walk r ≤ strlen input →
  iteration input r = Ok r' →
  measure input r' < measure input r.
Proof.
  intros Hroot Hw Hit.
  destruct (iteration_progress input r Hroot Hw) as [_ Hok].
  destruct (Hok r' Hit) as [Hle Hmove]. unfold measure.
  destruct Hmove as [Hlt|(Heq & -> & ->)].
  - destruct (has_resync (tokens (state (globals r')))),
             (has_resync (tokens (state (globals r)))); lia.
  - lia.
Qed.

Lemma ends_as_step input r r' o :
  walk r ≤ strlen input →
  iteration input r = Ok r' →
  ends_as input r' o → ends_as input r o.
Proof.
  intros Hw Hit. destruct o as [r2|status message| |]; simpl.
  - intros [Hr Hend]. split; [eapply reaches_step; eassumption|exact Hend].
  - intros (H1 & H2 & r2 & Hr & Hrest). split; [exact H1|]. split; [exact H2|].
    exists r2. split; [eapply reaches_step; eassumption|exact Hrest].
  - auto.
  - intros (r2 & Hr & Hrest).
    exists r2. split; [eapply reaches_step; eassumption|exact Hrest].
Qed.

(** The main loop ends within [measure] passes, and as [ends_as] says. *)
Lemma main_loop_ends fuel input r :
  trail_rooted (globals r) →
  walk r ≤ strlen input + 1 →
  measure input r < fuel →
  ∃ o, main_loop fuel input r = Some o ∧ ends_as input r o.
Proof.
  revert r. induction fuel as [|fuel IH]; intros r Hroot Hw Hm; [lia|].
  simpl. destruct (decide (walk r ≤ strlen input)) as [Hin|Hout].
  2:{ exists (Ok r). split; [reflexivity|]. split; [apply reaches_here|lia]. }
  destruct (iteration_progress input r Hroot Hin) as [Hab Hok].
  destruct (iteration input r) as [r1|status message| |] eqn:Hit.
  - destruct (Hok r1 eq_refl) as [Hle _].
    pose proof (iteration_measure input r r1 Hroot Hin Hit) as Hm1.
    destruct (IH r1) as (o & Hrun & Hends); [|exact Hle|lia|].
    { eapply parser_step_trail_rooted; [exact Hroot|].
      eapply iteration_step, Hit. }
    exists o. split; [exact Hrun|]. eapply ends_as_step; eassumption.
  - destruct Hab as (H1 & H2 & Hfull). eexists. split; [reflexivity|].
    split; [exact H1|]. split; [exact H2|].
    exists r. split; [apply reaches_here|]. auto.
  - contradiction.
  - eexists. split; [reflexivity|].
    exists r. split; [apply reaches_here|]. auto.
Qed.

Lemma reaches_trail_rooted input r r' :
  reaches input r r' → trail_rooted (globals r) → trail_rooted (globals r').
Proof.
  apply reaches_invariant. intros p p' Hp Hstep.
  eapply parser_step_trail_rooted; eassumption.
Qed.

Lemma reaches_cursor input r r' :
  reaches input r r' →
  trail_rooted (globals r) → walk r ≤ strlen input + 1 →
  walk r' ≤ strlen input + 1.
Proof.
  induction 1 as [r|r r1 r2 Hw Hit _ IH]; intros Hroot Hle; [exact Hle|].
  destruct (iteration_progress input r Hroot Hw) as [_ Hok].
  destruct (Hok r1 Hit) as [Hle1 _]. apply IH; [|exact Hle1].
  eapply parser_step_trail_rooted; [exact Hroot|]. eapply iteration_step, Hit.
Qed.

(** C7 (as amended): when every literal of the tables spells at least one character,
    every [error] descriptor leads to a state with an [end] or [line]
    descriptor and [INITIAL] has an [error] descriptor, the main loop of
    [parse_config] ends for every input, within twice the length of the
    input plus four passes.  When it ends normally it has gone through a
    chain of passes that leaves the cursor one byte past the terminating NUL,
    that is after the offsets 0 to [strlen input]; the assertion of the
    recovery never fails, and the loop ends otherwise only by the exit of a
    full stack or by an undefined step, in the pass that [ends_as] names.  No
    pass leaves the cursor further out than one byte past the NUL; every
    pass moves the cursor forward, or leaves it in place and leads from a
    state without a descriptor for the line end into one that has one.  An
    [end] descriptor tried on the NUL matches and moves the cursor past
    it. *)
Theorem parse_config_terminates input p context_has_errors :
  statelist p !! 0 = Some INITIAL →
  (∀ fuel, 2 * strlen input + 4 ≤ fuel →
     ∃ o, parse_config fuel input p context_has_errors = Some o
          ∧ ends_as input (parse_start p context_has_errors) o)
  ∧ (∀ r, reaches input (parse_start p context_has_errors) r →
          walk r ≤ strlen input + 1)
  ∧ (∀ r r', reaches input (parse_start p context_has_errors) r →
       walk r ≤ strlen input →
       iteration input r = Ok r' →
       walk r < walk r'
       ∨ (walk r' = walk r
          ∧ has_resync (tokens (state (globals r))) = false
          ∧ has_resync (tokens (state (globals r'))) = true))
  ∧ (∀ token r, tok_name token = "end" → walk r = strlen input →
       try_token (c_bytes input) token r
       = (p' ←! next_state token (globals r);
          Ok (handled r p' (strlen input + 1) 1))).
Proof.
  intros H0.
  pose proof (parse_start_trail_rooted p context_has_errors H0) as Hroot.
  split; [|split; [|split]].
  - intros fuel Hfuel. unfold parse_config.
    apply main_loop_ends; [exact Hroot|simpl; lia|].
    unfold measure. simpl. destruct (has_resync _); lia.
  - intros r Hr. eapply reaches_cursor; [exact Hr|exact Hroot|simpl; lia].
  - intros r r' Hr Hw Hit.
    destruct (iteration_progress input r) as [_ Hok];
      [eapply reaches_trail_rooted; eassumption|exact Hw|].
    apply (Hok r' Hit).
  - apply try_token_end_at_NUL.
Qed.

End Grammar.

End Progress.

(** ** The scenario grammar is well-formed *)

Ltac each_nat n k :=
  lazymatch k with
  | O => idtac
  | S ?k' => destruct n as [|n]; [|each_nat n k']
  end.

Ltac each_state s :=
  let n := fresh "n" in
  destruct s as [| |n]; [| |each_nat n 14].

Ltac each_token H :=
  simpl in H;
  repeat (apply elem_of_cons in H as [->|H]);
  try (apply elem_of_nil in H; contradiction).

Lemma scenario_literals s token :
  token ∈ scenario_tokens s → literal_ok (tok_name token).
Proof.
  intros H. each_state s; each_token H; intros Hlit;
    try discriminate Hlit;
    (split; [discriminate|]); simpl; intros Hin;
    repeat (apply elem_of_cons in Hin as [Hin|Hin]; [discriminate Hin|]);
    apply elem_of_nil in Hin; exact Hin.
Qed.

Lemma scenario_error s token :
  token ∈ scenario_tokens s →
  tok_name token = "error" →
  tok_next_state token ≠ __CALL
  ∧ scenario_path (tok_next_state token) `prefix_of` scenario_path s
  ∧ has_resync (scenario_tokens (tok_next_state token)) = true.
Proof.
  intros H. each_state s; each_token H; intros Hname;
    try discriminate Hname;
    (split; [discriminate|]); (split; [|reflexivity]);
    exists []; reflexivity.
Qed.

Lemma scenario_path_ok s :
  NoDup (scenario_path s)
  ∧ length (scenario_path s) ≤ statelist_capacity
  ∧ last (scenario_path s) = Some s.
Proof.
  each_state s; (split; [|split; [vm_compute; lia|reflexivity]]);
    apply (bool_decide_unpack _); vm_compute; exact I.
Qed.

Lemma scenario_path_closed s s' :
  s' ∈ scenario_path s → scenario_path s' `prefix_of` scenario_path s.
Proof.
  intros H. each_state s; each_token H; eexists; reflexivity.
Qed.

Lemma scenario_transition s token p :
  token ∈ scenario_tokens s →
  scenario_path (committed_state scenario_call token p) `prefix_of` scenario_path s
  ∨ scenario_path (committed_state scenario_call token p)
    = scenario_path s ++ [committed_state scenario_call token p].
Proof.
  intros H. each_state s; each_token H;
    first [right; reflexivity | left; eexists; reflexivity].
Qed.

Lemma scenario_cap_ok s : scenario_cap s < stack_capacity.
Proof. each_state s; vm_compute; lia. Qed.

Lemma scenario_capture s token :
  token ∈ scenario_tokens s →
  tok_next_state token ≠ __CALL →
  tok_next_state token ≠ INITIAL →
  scenario_cap s + (match tok_identifier token with Some _ => 1 | None => 0 end)
  ≤ scenario_cap (tok_next_state token).
Proof.
  intros H. each_state s; each_token H; intros Hc Hi;
    try (exfalso; apply Hc; reflexivity);
    try (exfalso; apply Hi; reflexivity);
    vm_compute; lia.
Qed.

Lemma scenario_number_identifier id :
  number_identifier scenario_tokens id → id = "num".
Proof.
  intros (s & t & H & Hname & Hid).
  each_state s; each_token H; try discriminate Hname.
  simpl in Hid. congruence.
Qed.

Lemma scenario_identifiers s token id :
  token ∈ scenario_tokens s →
  tok_name token ≠ "number" →
  tok_identifier token = Some id →
  ¬ number_identifier scenario_tokens id.
Proof.
  intros H Hname Hid Hnum. apply scenario_number_identifier in Hnum. subst id.
  each_state s; each_token H; try discriminate Hid.
  apply Hname. reflexivity.
Qed.

Lemma scenario_grammar_wf :
  grammar_wf scenario_tokens scenario_call scenario_path scenario_cap.
Proof.
  split.
  - apply scenario_literals.
  - discriminate.
  - apply scenario_error.
  - reflexivity.
  - apply scenario_path_ok.
  - apply scenario_path_closed.
  - apply scenario_transition.
  - apply scenario_cap_ok.
  - apply scenario_capture.
  - apply scenario_identifiers.
Defined.

Lemma initial_parser_fresh : statics_fresh initial_parser.
Proof.
  split; [reflexivity|]. split; [reflexivity|]. split; [reflexivity|].
  apply Forall_replicate. reflexivity.
Defined.

Lemma scenario_resync s token q :
  token ∈ scenario_tokens s →
  tok_name token = "error" →
  has_resync (scenario_tokens (committed_state scenario_call token q)) = true.
Proof.
  intros H. each_state s; each_token H; intros Hname;
    try discriminate Hname; reflexivity.
Qed.

(** C7 at the scenario grammar and the input of scenario S3. *)
Lemma parse_config_terminates_witness :
  (∀ fuel, 2 * strlen bogus_input + 4 ≤ fuel →
     ∃ o, parse_config scenario_tokens scenario_call fuel bogus_input
            initial_parser false = Some o
          ∧ ends_as scenario_tokens scenario_call bogus_input
              (parse_start initial_parser false) o)
  ∧ (∀ r, reaches scenario_tokens scenario_call bogus_input
            (parse_start initial_parser false) r →
          walk r ≤ strlen bogus_input + 1)
  ∧ (∀ r r', reaches scenario_tokens scenario_call bogus_input
               (parse_start initial_parser false) r →
       walk r ≤ strlen bogus_input →
       iteration scenario_tokens scenario_call bogus_input r = Ok r' →
       walk r < walk r'
       ∨ (walk r' = walk r
          ∧ has_resync (scenario_tokens (state (globals r))) = false
          ∧ has_resync (scenario_tokens (state (globals r'))) = true))
  ∧ (∀ token r, tok_name token = "end" → walk r = strlen bogus_input →
       try_token scenario_call (c_bytes bogus_input) token r
       = (p' ←! next_state scenario_call token (globals r);
          Ok (handled r p' (strlen bogus_input + 1) 1))).
Proof.
  apply (parse_config_terminates scenario_tokens scenario_call
           scenario_literals scenario_resync ltac:(discriminate)
           bogus_input initial_parser false).
  reflexivity.
Defined.

(** The scenario grammar is well-formed: the parse of the input of scenario
    S3 ends normally. *)
Example parse_config_completes_scenario :
  (∀ fuel, 2 * strlen bogus_input + 4 ≤ fuel →
     ∃ r, parse_config scenario_tokens scenario_call fuel bogus_input
            initial_parser false = Some (Ok r)
          ∧ walk r = strlen bogus_input + 1)
  ∧ (∀ r, reaches scenario_tokens scenario_call bogus_input
            (parse_start initial_parser false) r →
          walk r ≤ strlen bogus_input + 1)
  ∧ (∀ token r, tok_name token = "end" → walk r = strlen bogus_input →
       try_token scenario_call (c_bytes bogus_input) token r
       = (p' ←! next_state scenario_call token (globals r);
          Ok (handled r p' (strlen bogus_input + 1) 1))).
Proof.
  apply (parse_config_completes scenario_tokens scenario_call
           scenario_path scenario_cap scenario_grammar_wf
           bogus_input initial_parser false initial_parser_fresh).
Defined.

(** Scenario S1 without the final newline: the [end] descriptor of
    [WORKSPACE_END] matches on the NUL (in the third pass), the handler is
    called with [num = 5] on the stack, and the loop ends one byte past the
    NUL without a diagnostic. *)
Example parse_config_no_trailing_newline :
  (∃ r, reaches scenario_tokens scenario_call "workspace 5"
          (parse_start initial_parser false) r
        ∧ walk r = strlen "workspace 5"
        ∧ state (globals r) = WORKSPACE_END
        ∧ get_long "num" (stack (globals r)) = long_val 5)
  ∧ ∃ r, parse_config scenario_tokens scenario_call 5 "workspace 5"
           initial_parser false = Some (Ok r)
         ∧ walk r = strlen "workspace 5" + 1
         ∧ json r = [] ∧ has_errors r = false
         ∧ state (globals r) = INITIAL.
Proof.
  split.
  - eexists. split.
    + eapply reaches_step; [vm_compute; lia|vm_compute; reflexivity|].
      eapply reaches_step; [vm_compute; lia|vm_compute; reflexivity|].
      apply reaches_here.
    + repeat split.
  - eexists. split; [vm_compute; reflexivity|]. repeat split.
Qed.

(** Scenario S4: before the handler call the two words are joined under
    [t]. *)
Example parse_config_tags :
  ∃ r, reaches scenario_tokens scenario_call ("tags a b" +:+ LF_string)
         (parse_start initial_parser false) r
       ∧ state (globals r) = TAGS_END
       ∧ get_string "t" (stack (globals r)) = str_ptr "a,b".
Proof.
  eexists. split.
  - eapply reaches_step; [vm_compute; lia|vm_compute; reflexivity|].
    eapply reaches_step; [vm_compute; lia|vm_compute; reflexivity|].
    eapply reaches_step; [vm_compute; lia|vm_compute; reflexivity|].
    apply reaches_here.
  - split; reflexivity.
Qed.

(** Scenario S5: one diagnostic for the line of garbage inside the mode
    block, issued in state [MODE]; the binding behind it is parsed inside the
    mode and the closing brace leads back to [INITIAL]. *)
Example parse_config_mode_input :
  ∃ r, parse_config scenario_tokens scenario_call 40 mode_input
         initial_parser false = Some (Ok r)
       ∧ map diag_error (json r)
         = ["Expected one of these tokens: <end>, 'bindsym', '}'"]
       ∧ state (globals r) = INITIAL
       ∧ walk r = strlen mode_input + 1.
Proof. eexists. split; [vm_compute; reflexivity|]. repeat split. Qed.

(** C7 as stated fails: without a descriptor for the line end in the state
    that recovery leads to, the loop does not end.  Under [chain_tokens] the
    input that consists of one LF is rejected in [INITIAL], "skip the rest of
    this line" leaves the cursor on the LF, recovery leads to [INITIAL]
    again, and the next pass starts where this one did: no number of passes
    ends the parse. *)
Lemma parse_config_terminates_counterexample :
  ∃ r, iteration chain_tokens call_to_INITIAL LF_string
         (parse_start initial_parser false) = Ok r
       ∧ walk r = 0
       ∧ globals r = globals (parse_start initial_parser false)
       ∧ ∀ fuel,
           parse_config chain_tokens call_to_INITIAL fuel LF_string
             initial_parser false
           = None.
Proof.
  eexists. split; [reflexivity|]. split; [reflexivity|]. split; [reflexivity|].
  intros fuel. unfold parse_config.
  assert (H : ∀ n r,
            globals r = globals (parse_start initial_parser false) →
            walk r = 0 →
            main_loop chain_tokens call_to_INITIAL n LF_string r = None).
  { induction n as [|n IH]; intros r Hg Hw; simpl; rewrite Hw.
    - reflexivity.
    - change (strlen LF_string) with 1. rewrite decide_True by lia.
      destruct r as [g w l j h]. simpl in Hg, Hw. subst g w.
      apply IH; reflexivity. }
  apply H; reflexivity.
Qed.

(** The other two conditions on the tables are needed as well.  A literal
    that spells nothing matches without moving the cursor, and the loop does
    not end; without an [error] descriptor in [INITIAL] the first syntax
    error fails the assertion of the recovery. *)
Example parse_config_empty_literal :
  ∀ fuel,
    parse_config empty_literal_tokens call_to_INITIAL fuel "x" initial_parser false
    = None.
Proof.
  intros fuel. unfold parse_config.
  assert (H : ∀ n r,
            globals r = globals (parse_start initial_parser false) →
            walk r = 0 →
            main_loop empty_literal_tokens call_to_INITIAL n "x" r = None).
  { induction n as [|n IH]; intros r Hg Hw; simpl; rewrite Hw.
    - reflexivity.
    - change (strlen "x") with 1. rewrite decide_True by lia.
      destruct r as [g w l j h]. simpl in Hg, Hw. subst g w.
      apply IH; reflexivity. }
  apply H; reflexivity.
Qed.

Example parse_config_no_error_descriptor :
  parse_config no_error_tokens call_to_INITIAL 1 "x" initial_parser false
  = Some AssertFailed.
Proof. reflexivity. Qed.

(** * Further properties of the code *)

(** ** The stack: capacity, independence of identifiers, types *)

Section StackMore.

Implicit Types (st : list stack_entry) (e : stack_entry) (id : string).

(** X1: [push_string] ends the program with the "stack full" message exactly
    when no slot is free and no slot holds the identifier; [push_long]
    exactly when no slot is free, whether or not a slot holds the
    identifier. *)
Theorem push_exit_iff id s num st :
  (push_string id s st = Exit 1 stack_full_message
   ↔ free_slots st = 0 ∧ slots_holding id st = 0)
  ∧ (push_long id num st = Exit 1 stack_full_message ↔ free_slots st = 0).
Proof.
  split.
  - induction st as [|e st IH]; simpl; [tauto|].
    unfold holds. destruct (se_identifier e) as [i|].
    + destruct (String.eqb i id).
      * destruct (se_val e); split; try discriminate; lia.
      * destruct (push_string id s st) as [r| | |]; simpl in *;
          split; try discriminate.
        -- intros [H1 H2]. apply proj2 in IH. specialize (IH (conj H1 H2)).
           discriminate IH.
        -- intros [= -> ->]. apply IH. reflexivity.
        -- intros H. f_equal; apply proj2 in IH; specialize (IH H);
             injection IH; auto.
        -- intros [H1 H2]. apply proj2 in IH. specialize (IH (conj H1 H2)).
           discriminate IH.
        -- intros [H1 H2]. apply proj2 in IH. specialize (IH (conj H1 H2)).
           discriminate IH.
    + split; [discriminate|lia].
  - induction st as [|e st IH]; simpl; [tauto|].
    destruct (se_identifier e) as [i|]; [|split; [discriminate|lia]].
    destruct (push_long id num st) as [r| | |]; simpl in *;
      split; try discriminate.
    + intros H. apply IH in H. discriminate H.
    + intros [= -> ->]. apply IH. reflexivity.
    + intros H. apply IH in H. exact H.
    + intros H. apply IH in H. discriminate H.
    + intros H. apply IH in H. discriminate H.
Qed.

Lemma push_long_full id num st :
  free_slots st = 0 → push_long id num st = Exit 1 stack_full_message.
Proof.
  induction st as [|e st IH]; simpl; [reflexivity|].
  destruct (se_identifier e); [|lia]. intros H. rewrite IH by lia. reflexivity.
Qed.

(** X2: the number of [push_long] calls that a stack takes is the number of
    its free slots: a sequence of pushes completes if and only if it is no
    longer than that, ten for the empty stack. *)
Theorem push_longs_capacity id nums st :
  (∃ st', push_longs id nums st = Ok st') ↔ length nums ≤ free_slots st.
Proof.
  revert st. induction nums as [|num nums IH]; intros st; simpl.
  - split; [lia|]. intros _. exists st. reflexivity.
  - destruct (decide (free_slots st = 0)) as [Hz|Hnz].
    + rewrite push_long_full by exact Hz. simpl.
      split; [intros [st' H]; discriminate H|lia].
    + destruct (push_long_counts id num st) as (st1 & -> & _ & Hf); [lia|].
      simpl. rewrite IH. lia.
Qed.

Lemma push_string_get_slot_other id id' s st st' :
  contiguous st → id' ≠ id → push_string id s st = Ok st' →
  get_slot id' st' = get_slot id' st.
Proof.
  intros Hc Hne. revert st' Hc.
  induction st as [|e st IH]; intros st'; simpl; [discriminate|].
  destruct (se_identifier e) as [i|] eqn:Hi.
  - intros Hc. destruct (String.eqb_spec i id) as [->|Hne'].
    + destruct (se_val e); [|discriminate]. intros [= <-]. simpl.
      destruct (String.eqb_spec id' id) as [|_]; [contradiction|]. reflexivity.
    + destruct (push_string id s st) as [r| | |]; simpl; try discriminate.
      intros [= <-]. simpl. rewrite Hi.
      destruct (String.eqb id' i); [reflexivity|]. apply IH; [exact Hc|reflexivity].
  - intros Hc [= <-]. simpl.
    destruct (String.eqb_spec id' id) as [|_]; [contradiction|].
    destruct Hc as [|e' st' He' _]; [reflexivity|]. simpl.
    unfold slot_free in He'. rewrite He'. reflexivity.
Qed.

Lemma push_long_get_slot_other id id' num st st' :
  contiguous st → id' ≠ id → push_long id num st = Ok st' →
  get_slot id' st' = get_slot id' st.
Proof.
  intros Hc Hne. revert st' Hc.
  induction st as [|e st IH]; intros st'; simpl; [discriminate|].
  destruct (se_identifier e) as [i|] eqn:Hi.
  - intros Hc. destruct (push_long id num st) as [r| | |]; simpl; try discriminate.
    intros [= <-]. simpl. rewrite Hi.
    destruct (String.eqb id' i); [reflexivity|]. apply IH; [exact Hc|reflexivity].
  - intros Hc [= <-]. simpl.
    destruct (String.eqb_spec id' id) as [|_]; [contradiction|].
    destruct Hc as [|e' st' He' _]; [reflexivity|]. simpl.
    unfold slot_free in He'. rewrite He'. reflexivity.
Qed.

(** X3: on a stack whose occupied slots form a prefix, a push under one
    identifier changes nothing of what [get_string] and [get_long] return
    for any other identifier. *)
Theorem push_keeps_other_identifiers id id' s num st :
  contiguous st → id' ≠ id →
  (∀ st', push_string id s st = Ok st' →
          get_string id' st' = get_string id' st
          ∧ get_long id' st' = get_long id' st)
  ∧ (∀ st', push_long id num st = Ok st' →
            get_string id' st' = get_string id' st
            ∧ get_long id' st' = get_long id' st).
Proof.
  intros Hc Hne. split; intros st' Hp;
    rewrite !get_string_get_slot, !get_long_get_slot.
  - rewrite (push_string_get_slot_other id id' s st st' Hc Hne Hp). auto.
  - rewrite (push_long_get_slot_other id id' num st st' Hc Hne Hp). auto.
Qed.

(** X4: nothing survives [clear_stack]: on a cleared stack of at least one
    slot, [push_string id s] stores [s] itself in slot 0, whatever the stack
    held under [id] before, and every other identifier is absent for both
    lookups. *)
Theorem push_after_clear id s st :
  st ≠ [] →
  ∃ st', push_string id s (clear_stack st) = Ok st'
         ∧ st' !! 0 = Some (string_entry id s)
         ∧ get_string id st' = str_ptr s
         ∧ ∀ id', id' ≠ id →
                  get_string id' st' = NULL ∧ get_long id' st' = long_val 0.
Proof.
  intros Hne. destruct st as [|e st]; [contradiction|]. simpl.
  eexists. split; [reflexivity|]. split; [reflexivity|]. simpl.
  rewrite String.eqb_refl. split; [reflexivity|].
  intros id' Hid. destruct (String.eqb_spec id' id) as [|_]; [contradiction|].
  destruct st as [|e' st]; simpl; auto.
Qed.

(** X5: neither lookup nor [push_string] looks at the type of a slot.  For
    an identifier captured by [push_long], [get_string] returns the number
    reinterpreted as a pointer (the null pointer for 0) and a following
    [push_string] formats the number as a string, which has no defined
    behaviour; for an identifier captured by [push_string], [get_long]
    returns the address of the string. *)
Theorem lookups_ignore_the_type id s num st :
  slots_holding id st = 0 → 0 < free_slots st →
  (∃ st1, push_long id num st = Ok st1
          ∧ get_string id st1 = (if decide (num = 0%Z) then NULL else wild_ptr num)
          ∧ push_string id s st1 = Undefined)
  ∧ (∃ st1, push_string id s st = Ok st1
            ∧ get_long id st1 = address_of s).
Proof.
  induction st as [|e st IH]; simpl; [lia|].
  intros Habs Hfree.
  apply (slots_holding_0_head id e st) in Habs as [Hne Habs].
  unfold holds in Hne.
  destruct (se_identifier e) as [i|] eqn:Hi.
  - destruct (IH Habs) as [(st1 & Hp1 & Hg1 & Hu1) (st2 & Hp2 & Hg2)];
      [simpl in Hfree; lia|].
    rewrite Hp1, Hp2, Hne. simpl. split.
    + eexists. split; [reflexivity|]. simpl.
      rewrite Hi, ?(eqb_sym_string id i), Hne, Hu1. auto.
    + eexists. split; [reflexivity|]. simpl.
      rewrite Hi, ?(eqb_sym_string id i), Hne. exact Hg2.
  - split; eexists; (split; [reflexivity|]); simpl; rewrite String.eqb_refl; auto.
Qed.

End StackMore.

Lemma push_keeps_other_identifiers_witness :
  let st := [string_entry "t" "a"; zero_entry; zero_entry] in
  (∀ st', push_string "cmd" "b" st = Ok st' →
          get_string "t" st' = get_string "t" st
          ∧ get_long "t" st' = get_long "t" st)
  ∧ (∀ st', push_long "cmd" 7 st = Ok st' →
            get_string "t" st' = get_string "t" st
            ∧ get_long "t" st' = get_long "t" st).
Proof.
  intros st. apply (push_keeps_other_identifiers "cmd" "t" "b" 7%Z st).
  - simpl. repeat constructor.
  - discriminate.
Defined.

Lemma push_after_clear_witness :
  ∃ st', push_string "t" "b" (clear_stack [string_entry "t" "a"; zero_entry]) = Ok st'
         ∧ st' !! 0 = Some (string_entry "t" "b")
         ∧ get_string "t" st' = str_ptr "b"
         ∧ ∀ id', id' ≠ "t" →
                  get_string id' st' = NULL ∧ get_long id' st' = long_val 0.
Proof.
  apply (push_after_clear "t" "b" [string_entry "t" "a"; zero_entry]).
  discriminate.
Defined.

Lemma lookups_ignore_the_type_witness :
  (∃ st1, push_long "num" 5 zero_stack = Ok st1
          ∧ get_string "num" st1 = (if decide (5 = 0)%Z then NULL else wild_ptr 5)
          ∧ push_string "num" "x" st1 = Undefined)
  ∧ (∃ st1, push_string "num" "x" zero_stack = Ok st1
            ∧ get_long "num" st1 = address_of "x").
Proof.
  apply (lookups_ignore_the_type "num" "x" 5%Z zero_stack).
  - reflexivity.
  - vm_compute. lia.
Defined.

(** ** The trail and the reply during a parse *)

Section DriverMore.

Variable tokens : cmdp_state → list cmdp_token.
Variable GENERATED_call : Z → cmdp_state → list stack_entry → cmdp_state.

Local Abbreviation next_state := (next_state GENERATED_call).
Local Abbreviation committed_state := (committed_state GENERATED_call).
Local Abbreviation token_loop := (token_loop GENERATED_call).
Local Abbreviation syntax_error := (syntax_error tokens GENERATED_call).
Local Abbreviation iteration := (iteration tokens GENERATED_call).
Local Abbreviation reaches := (reaches tokens GENERATED_call).

(** X6: a transition that commits [INITIAL] never fails when the trail is
    rooted, a full trail included: the array is left as it is,
    [statelist_idx] is set to 1, so that the trail is [INITIAL] alone, and
    the stack is cleared. *)
Theorem next_state_back_to_INITIAL token p :
  trail_rooted p → committed_state token p = INITIAL →
  ∃ p', next_state token p = Ok p'
        ∧ state p' = INITIAL
        ∧ statelist p' = statelist p
        ∧ statelist_idx p' = 1
        ∧ trail p' = [INITIAL]
        ∧ Forall unused (stack p').
Proof.
  intros [[Hlo Hhi] H0] Hc. rewrite next_state_unfold. simpl.
  fold (committed_state token p). rewrite Hc.
  destruct (statelist p) as [|x l] eqn:Hl; [discriminate|].
  injection H0 as ->.
  destruct (statelist_idx p) as [|n] eqn:Hn; [lia|]. simpl.
  eexists. split; [reflexivity|]. unfold trail. simpl.
  repeat split.
  destruct (decide (_ ∨ _)) as [_|Ho]; [apply clear_stack_unused|].
  exfalso. apply Ho. right. reflexivity.
Qed.

Lemma iteration_json input r r' :
  iteration input r = Ok r' →
  (json r' = json r ∧ has_errors r' = has_errors r)
  ∨ (json r' = json r ++ [{| diag_error := errormessage (tokens (state (globals r)));
                             diag_input := input |}]
     ∧ has_errors r' = true).
Proof.
  unfold iteration.
  destruct (token_loop _ _ _) as [[r1|w]| | |] eqn:Hl; simpl; try discriminate.
  - intros [= <-]. left.
    apply token_loop_Handled in Hl as (_ & _ & _ & _ & _ & _ & Hj & He).
    simpl in Hj, He. auto.
  - intros H. right.
    apply syntax_error_Ok in H as (_ & _ & _ & _ & Hj & He). simpl in Hj. auto.
Qed.

(** X7: what the statements of [parse_config] themselves do to the reply
    array and to [context->has_errors] between two heads of the main loop
    (the handlers, which are handed the same generator, are not part of the
    embedding): they only add records, every record they add carries the
    whole input and the message built from the descriptors of some state,
    and [has_errors] afterwards is what it was before, or [true] if they
    added a record: [parse_config] never resets the flag that the caller
    hands in. *)
Theorem json_during_parse input r r' :
  reaches input r r' →
  ∃ ds, json r' = json r ++ ds
        ∧ Forall (λ d, diag_input d = input
                       ∧ ∃ s, diag_error d = errormessage (tokens s)) ds
        ∧ has_errors r' = has_errors r || bool_decide (ds ≠ []).
Proof.
  induction 1 as [r|r r1 r2 _ Hit _ (ds & Hj & Hf & He)].
  - exists []. rewrite app_nil_r, orb_false_r. auto.
  - apply iteration_json in Hit as [[Hj1 He1]|[Hj1 He1]].
    + exists ds. rewrite Hj, Hj1, He, He1. auto.
    + eexists (_ :: ds). rewrite Hj, Hj1, <- app_assoc. simpl.
      split; [reflexivity|]. split.
      * constructor; [|exact Hf]. simpl. eauto.
      * rewrite He, He1, orb_true_r. reflexivity.
Qed.

Lemma span_len_drop (f : ascii → bool) (l : list ascii) k :
  k ≤ span_len f l → k + span_len f (drop k l) = span_len f l.
Proof.
  revert k. induction l as [|c l IH]; intros [|k]; simpl; try lia.
  destruct (f c); simpl; [|lia]. intros H. rewrite IH by lia. reflexivity.
Qed.

(** X8: blanks before a token are skipped at the head of every pass, so a
    pass started anywhere inside a run of spaces and tabs is the pass
    started at its beginning. *)
Theorem iteration_skips_blanks input r k :
  k ≤ span_len is_blank (drop (walk r) (c_bytes input)) →
  iteration input (set_walk r (walk r + k)) = iteration input r.
Proof.
  intros Hk. unfold iteration. simpl.
  rewrite <- drop_drop, <- Nat.add_assoc, (span_len_drop _ _ _ Hk).
  reflexivity.
Qed.

End DriverMore.

Lemma next_state_back_to_INITIAL_witness :
  ∃ p', next_state call_to_INITIAL (mk_token "end" None INITIAL 0) full_trail_parser
        = Ok p'
        ∧ state p' = INITIAL
        ∧ statelist p' = statelist full_trail_parser
        ∧ statelist_idx p' = 1
        ∧ trail p' = [INITIAL]
        ∧ Forall unused (stack p').
Proof.
  apply (next_state_back_to_INITIAL call_to_INITIAL
           (mk_token "end" None INITIAL 0) full_trail_parser).
  - vm_compute. repeat split; lia.
  - reflexivity.
Defined.

Lemma json_during_parse_witness :
  ∃ r ds, reaches scenario_tokens call_to_INITIAL bogus_input
            (parse_start initial_parser false) r
          ∧ ds ≠ []
          ∧ json r = json (parse_start initial_parser false) ++ ds
          ∧ Forall (λ d, diag_input d = bogus_input
                         ∧ ∃ s, diag_error d = errormessage (scenario_tokens s)) ds
          ∧ has_errors r
            = has_errors (parse_start initial_parser false) || bool_decide (ds ≠ []).
Proof.
  assert (H : ∃ r, reaches scenario_tokens call_to_INITIAL bogus_input
                     (parse_start initial_parser false) r
                   ∧ json r ≠ []).
  { eexists. split.
    - eapply reaches_step; [vm_compute; lia|vm_compute; reflexivity|].
      apply reaches_here.
    - discriminate. }
  destruct H as (r & Hr & Hne). exists r.
  destruct (json_during_parse scenario_tokens call_to_INITIAL bogus_input
              (parse_start initial_parser false) r Hr) as (ds & Hj & Hf & He).
  exists ds. split; [exact Hr|]. split; [|auto].
  intros ->. apply Hne. rewrite Hj. reflexivity.
Defined.

Lemma iteration_skips_blanks_witness :
  iteration scenario_tokens call_to_INITIAL "   tags a"
    (set_walk (parse_start initial_parser false) 2)
  = iteration scenario_tokens call_to_INITIAL "   tags a"
      (parse_start initial_parser false).
Proof.
  apply (iteration_skips_blanks scenario_tokens call_to_INITIAL "   tags a"
           (parse_start initial_parser false) 2).
  vm_compute. lia.
Defined.

(** ** Literals, numbers and unquoted words *)

Section LexerMore.

Implicit Types (l here lit : list ascii) (c : ascii).

Lemma tolower_of_NUL : tolower NUL = NUL.
Proof. reflexivity. Qed.

(** [strncasecmp] over the whole of a NUL-free string compares the
    lower-cased bytes. *)
Lemma strncasecmp_eq_spec here lit :
  NUL ∉ lit →
  strncasecmp_eq here lit (length lit) = true
  ↔ map tolower (take (length lit) here) = map tolower lit.
Proof.
  revert here. induction lit as [|c lit IH]; intros here Hnul.
  { split; reflexivity. }
  apply not_elem_of_cons in Hnul as [Hc Hnul].
  destruct here as [|h here]; cbn [length strncasecmp_eq map take deref hd tl].
  - change (tolower NUL) with NUL.
    destruct (is_char NUL (tolower c)) eqn:Hz.
    + apply is_char_true in Hz. symmetry in Hz. apply tolower_NUL in Hz.
      congruence.
    + split; discriminate.
  - destruct (is_char (tolower h) (tolower c)) eqn:Hz.
    + apply is_char_true in Hz.
      destruct (is_char h NUL) eqn:Hh.
      * apply is_char_true in Hh. subst h. symmetry in Hz.
        apply tolower_NUL in Hz. congruence.
      * rewrite IH by exact Hnul. rewrite Hz. split; [congruence|].
        intros [= H]. exact H.
    + apply is_char_false in Hz. split; [discriminate|]. intros [= H _].
      contradiction.
Qed.

Lemma string_length_list s : String.length s = length (list_ascii_of_string s).
Proof. induction s as [|c s IH]; simpl; congruence. Qed.

(** X9: a literal descriptor, whose name is an apostrophe followed by the
    keyword, matches exactly when the bytes under the cursor equal the
    keyword up to the case of letters; the cursor then moves over the
    keyword, and the value handed over for capture is the keyword as the
    table spells it, not as the input does. *)
Theorem literal_token_case_insensitive (input : list ascii) (keyword : string) w0 :
  NUL ∉ list_ascii_of_string keyword →
  let n := String.length keyword in
  lex_token input (String APOSTROPHE keyword) w0 =
    if decide (map tolower (take n (drop w0 input))
               = map tolower (list_ascii_of_string keyword))
    then Match (Some (capture_string keyword)) (w0 + n) 0
    else NoMatch w0.
Proof.
  intros Hnul n. unfold lex_token. simpl name_head. simpl name_tail.
  change (is_char APOSTROPHE APOSTROPHE) with true. cbv iota.
  replace (String.length (String APOSTROPHE keyword) - 1) with n by (simpl; lia).
  unfold n. rewrite string_length_list.
  pose proof (strncasecmp_eq_spec (drop w0 input) _ Hnul) as Hs.
  destruct (strncasecmp_eq _ _ _).
  - rewrite decide_True; [reflexivity|]. apply Hs. reflexivity.
  - rewrite decide_False; [reflexivity|]. intros H. apply Hs in H. discriminate.
Qed.

(** X10: what a match of a [number] descriptor consists of: white space
    (line breaks included, which are not counted as lines), an optional
    sign, and a non-empty run of digits that ends where the cursor is left;
    the value captured is the decimal value of the run, negated after a
    minus sign, and lies in the range of [long].  A descriptor that does not
    match leaves the cursor where it was; a run of digits whose value is out
    of range is no match. *)
Theorem number_token_match (input : list ascii) w0 :
  let here := drop w0 input in
  let ws := span_len isspace here in
  let negative := is_char (deref (drop ws here)) "-" in
  let sign := if negative || is_char (deref (drop ws here)) "+" then 1 else 0 in
  let nd := span_len isdigit (drop (ws + sign) here) in
  let d := decimal_value (take nd (drop (ws + sign) here)) in
  let v := if negative then (- d)%Z else d in
  (∀ cap w bump, lex_token input "number" w0 = Match cap w bump →
     cap = Some (capture_long v) ∧ bump = 0%Z ∧ w = w0 + ws + sign + nd
     ∧ 0 < nd ∧ (LONG_MIN ≤ v ≤ LONG_MAX)%Z
     ∧ isdigit (deref (drop w input)) = false)
  ∧ (∀ w, lex_token input "number" w0 = NoMatch w →
     w = w0 ∧ (nd = 0 ∨ (LONG_MAX < v)%Z ∨ (v < LONG_MIN)%Z)).
Proof.
  intros here ws negative sign nd d v.
  assert (Hlex : lex_token input "number" w0 =
            if decide (nd = 0) then NoMatch w0
            else if decide (LONG_MAX < v)%Z then NoMatch w0
            else if decide (v < LONG_MIN)%Z then NoMatch w0
            else Match (Some (capture_long v)) (w0 + (ws + sign + nd)) 0).
  { unfold lex_token. simpl name_head.
    change (is_char "n" APOSTROPHE) with false.
    change (String.eqb "number" "number") with true. cbv iota.
    unfold strtol. fold here. fold ws. rewrite drop_drop.
    fold negative. fold sign. fold nd. fold d. fold v.
    destruct (decide (nd = 0)) as [Hz|Hz]; [reflexivity|].
    destruct (decide (LONG_MAX < v)%Z) as [Hmax|Hmax]; [reflexivity|].
    destruct (decide (v < LONG_MIN)%Z) as [Hmin|Hmin]; [reflexivity|].
    simpl. rewrite decide_False by lia. reflexivity. }
  assert (Hstop : isdigit (deref (drop (w0 + (ws + sign + nd)) input)) = false).
  { rewrite <- drop_drop. fold here.
    replace (ws + sign + nd) with ((ws + sign) + nd) by lia.
    rewrite <- drop_drop.
    pose proof (span_len_le isdigit (drop (ws + sign) here)) as Hle. fold nd in Hle.
    destruct (decide (nd = length (drop (ws + sign) here))) as [He|He].
    - rewrite drop_ge by lia. reflexivity.
    - destruct (span_len_stop isdigit (drop (ws + sign) here)) as (c & Hc & Hf);
        [fold nd; lia|].
      fold nd in Hc. rewrite (drop_S _ _ _ Hc). exact Hf. }
  rewrite Hlex. split.
  - intros cap w bump.
    destruct (decide (nd = 0)); [discriminate|].
    destruct (decide (LONG_MAX < v)%Z); [discriminate|].
    destruct (decide (v < LONG_MIN)%Z); [discriminate|].
    intros [= <- <- <-]. rewrite Hstop. repeat split; lia.
  - intros w.
    destruct (decide (nd = 0)); [intros [= <-]; auto|].
    destruct (decide (LONG_MAX < v)%Z); [intros [= <-]; auto|].
    destruct (decide (v < LONG_MIN)%Z); [intros [= <-]; auto|].
    discriminate.
Qed.

(** The copy loop over [n] bytes that are not followed by a double quote
    implements the escape rule. *)
Lemma copy_escaped_delimited l n :
  n ≤ length l → l !! n ≠ Some DQUOTE →
  copy_escaped l n = unescape_spec (take n l).
Proof.
  revert l. induction n as [n IH] using lt_wf_ind. intros l Hn Hq.
  destruct n as [|n]; [rewrite take_0; reflexivity|].
  destruct l as [|c l]; [simpl in Hn; lia|].
  simpl in Hn. simpl copy_escaped. simpl take.
  destruct (is_char c BACKSLASH && is_char (deref l) DQUOTE) eqn:Hesc.
  - apply andb_true_iff in Hesc as [Hc Hd].
    apply is_char_true in Hc. subst c.
    destruct l as [|d l]; [discriminate Hd|].
    simpl in Hd. apply is_char_true in Hd. subst d.
    destruct n as [|n]; [exfalso; apply Hq; reflexivity|].
    simpl. f_equal. apply IH; [lia|simpl in Hn; lia|exact Hq].
  - rewrite (IH n) by (try lia; exact Hq).
    destruct n as [|n]; [rewrite take_0; reflexivity|].
    destruct l as [|d l]; [reflexivity|].
    simpl take. simpl in Hesc.
    change (unescape_spec (c :: d :: take n l))
      with (if is_char c BACKSLASH && is_char d DQUOTE
            then DQUOTE :: unescape_spec (take n l)
            else c :: unescape_spec (d :: take n l)).
    rewrite Hesc. reflexivity.
Qed.

Variable GENERATED_call : Z → cmdp_state → list stack_entry → cmdp_state.

Local Abbreviation next_state := (next_state GENERATED_call).
Local Abbreviation try_token := (try_token GENERATED_call).

(** X11: a [string] or [word] descriptor tried on a byte that is not a
    double quote.  The content runs to the end of the line for [string] and
    to the next blank, bracket, comma, semicolon or line end for [word];
    empty content is no match and leaves the cursor.  Otherwise the cursor
    stops behind the content, and the value captured is the content under
    the escape rule of quoted strings: also outside quotes a backslash
    before a double quote is dropped. *)
Theorem unquoted_token_capture (input : list ascii) token r :
  tok_name token = "string" ∨ tok_name token = "word" →
  let here := drop (walk r) input in
  is_char (deref here) DQUOTE = false →
  let stop := if decide (tok_name token = "string")
              then not_eol else not_word_delimiter in
  let n := span_len stop here in
  let v := string_of_list_ascii (unescape_spec (take n here)) in
  (n = 0 → try_token input token r = Ok (NotHandled (walk r)))
  ∧ (n ≠ 0 →
     try_token input token r =
       (stk ←! push_identified (tok_identifier token) v (stack (globals r));
        p' ←! next_state token (set_stack (globals r) stk);
        Ok (handled r p' (walk r + n) 0)))
  ∧ (n = length here ∨ ∃ c, here !! n = Some c ∧ stop c = false).
Proof.
  intros Hname here Hq stop n v.
  assert (Hstop : n = length here ∨ ∃ c, here !! n = Some c ∧ stop c = false).
  { pose proof (span_len_le stop here) as Hle. fold n in Hle.
    destruct (decide (n = length here)) as [He|He]; [left; exact He|right].
    apply span_len_stop. fold n. lia. }
  assert (Hnq : here !! n ≠ Some DQUOTE).
  { destruct Hstop as [->|(c & Hc & Hf)].
    - rewrite lookup_ge_None_2 by lia. discriminate.
    - rewrite Hc. intros [= ->]. unfold stop in Hf.
      destruct (decide (tok_name token = "string")); discriminate Hf. }
  assert (Hhead : is_char (name_head (tok_name token)) APOSTROPHE = false)
    by (destruct Hname as [-> | ->]; reflexivity).
  assert (Hnum : String.eqb (tok_name token) "number" = false)
    by (destruct Hname as [-> | ->]; reflexivity).
  assert (Hsw : String.eqb (tok_name token) "string"
                || String.eqb (tok_name token) "word" = true)
    by (destruct Hname as [-> | ->]; reflexivity).
  assert (Hline : String.eqb (tok_name token) "line" = false)
    by (destruct Hname as [-> | ->]; reflexivity).
  assert (Hend : String.eqb (tok_name token) "end" = false)
    by (destruct Hname as [-> | ->]; reflexivity).
  assert (Hs : (if is_char (name_head (tok_name token)) "s"
                then (0, span_len not_eol here)
                else (0, span_len not_word_delimiter here)) = (0, n)).
  { unfold n, stop. destruct Hname as [-> | ->]; reflexivity. }
  assert (Htry : try_token input token r =
            if decide (n ≠ 0) then
              stk ←! push_identified (tok_identifier token) v (stack (globals r));
              p' ←! next_state token (set_stack (globals r) stk);
              Ok (handled r p' (walk r + n) 0)
            else Ok (NotHandled (walk r))).
  { unfold try_token. fold here. rewrite Hhead, Hnum, Hsw, Hq, Hs.
    destruct (decide (n ≠ 0)) as [Hn|Hn].
    - rewrite drop_0.
      rewrite (copy_escaped_delimited here n)
        by (try exact Hnq; pose proof (span_len_le stop here); unfold n; lia).
      fold v. rewrite Nat.add_0_r.
      assert (Hd : is_char (deref (drop (walk r + n) input)) DQUOTE = false).
      { rewrite <- drop_drop. fold here.
        destruct (is_char (deref (drop n here)) DQUOTE) eqn:Hd; [|reflexivity].
        apply deref_drop in Hd as [Hd|[_ Hd]]; [contradiction|discriminate]. }
      rewrite Hd.
      destruct (push_identified _ _ _) as [stk| | |]; simpl; try reflexivity.
      destruct (next_state _ _) as [p'| | |]; reflexivity.
    - simpl. rewrite Hline, Hend, Nat.add_0_r. reflexivity. }
  split; [|split].
  - intros H. rewrite Htry, decide_False by lia. reflexivity.
  - intros H. rewrite Htry, decide_True by exact H. reflexivity.
  - exact Hstop.
Qed.

End LexerMore.

Lemma literal_token_case_insensitive_witness :
  lex_token (c_bytes "WorkSpace 7") "'workspace" 0
  = Match (Some (capture_string "workspace")) 9 0.
Proof.
  etransitivity;
    [apply (literal_token_case_insensitive (c_bytes "WorkSpace 7") "workspace" 0)
    |reflexivity].
  vm_compute. intros H. repeat (apply elem_of_cons in H as [H|H]; [discriminate H|]).
  apply elem_of_nil in H. exact H.
Defined.

Lemma unquoted_token_capture_witness :
  let input := c_bytes ("a" +:+ BACKSLASH_string +:+ DQUOTE_string +:+ "b, c") in
  let token := mk_token "word" (Some "t") TAGS_MORE 0 in
  let r := parse_start initial_parser false in
  try_token call_to_INITIAL input token r =
    (stk ←! push_identified (Some "t") ("a" +:+ DQUOTE_string +:+ "b")
              (stack (globals r));
     p' ←! next_state call_to_INITIAL token (set_stack (globals r) stk);
     Ok (handled r p' 4 0)).
Proof.
  intros input token r.
  refine (proj1 (proj2 (unquoted_token_capture call_to_INITIAL input token r
                          _ _)) _).
  - right. reflexivity.
  - reflexivity.
  - vm_compute. lia.
Defined.

Lemma number_token_match_witness :
  ∃ w, lex_token (c_bytes " -42;") "number" 0
       = Match (Some (capture_long (-42))) w 0
       ∧ w = 4
       ∧ isdigit (deref (drop w (c_bytes " -42;"))) = false.
Proof.
  assert (H : ∃ cap w bump, lex_token (c_bytes " -42;") "number" 0 = Match cap w bump)
    by (eexists _, _, _; vm_compute; reflexivity).
  destruct H as (cap & w & bump & H).
  destruct (proj1 (number_token_match (c_bytes " -42;") 0) cap w bump H)
    as (Hc & Hb & Hw & _ & _ & Hd).
  exists w. rewrite H, Hc, Hb. split; [reflexivity|]. split; [exact Hw|exact Hd].
Defined.

(** ** The list of token names in the error message *)

Section MessageMore.

Implicit Types (l : list cmdp_token) (token : cmdp_token) (a b c : string).

Lemma string_app_assoc a b c : (a +:+ b) +:+ c = a +:+ (b +:+ c).
Proof.
  induction a as [|x a IH]; [reflexivity|].
  change (String x ((a +:+ b) +:+ c) = String x (a +:+ (b +:+ c))).
  rewrite IH. reflexivity.
Qed.

Lemma string_app_nil_r a : a +:+ EmptyString = a.
Proof.
  induction a as [|x a IH]; [reflexivity|].
  change (String x (a +:+ EmptyString) = String x a).
  rewrite IH. reflexivity.
Qed.

Lemma string_length_app a b :
  String.length (a +:+ b) = String.length a + String.length b.
Proof.
  induction a as [|x a IH]; [reflexivity|].
  change (S (String.length (a +:+ b)) = S (String.length a) + String.length b).
  rewrite IH. reflexivity.
Qed.

(** [possible_tokens] one descriptor at a time, in terms of [format_token]. *)
Lemma possible_tokens_cons token l :
  possible_tokens (token :: l) =
    if listed token
    then format_token token
         +:+ (match l with [] => EmptyString | _ => ", " end)
         +:+ possible_tokens l
    else possible_tokens l.
Proof.
  unfold listed, format_token. simpl.
  destruct (is_char (name_head (tok_name token)) APOSTROPHE); simpl.
  - rewrite !string_app_assoc. reflexivity.
  - destruct (String.eqb (tok_name token) "error"); simpl; [reflexivity|].
    rewrite !string_app_assoc. reflexivity.
Qed.

Lemma filter_listed_nil_last l token :
  List.filter listed l = [] → last l = Some token → listed token = false.
Proof.
  induction l as [|t l IH]; simpl; [discriminate|].
  destruct (listed t) eqn:Ht; [discriminate|].
  destruct l as [|t' l]; [intros _ [= <-]; exact Ht|].
  intros Hf Hl. apply IH; assumption.
Qed.

Lemma filter_listed_nil_possible_tokens l :
  List.filter listed l = [] → possible_tokens l = EmptyString.
Proof.
  induction l as [|t l IH]; [reflexivity|].
  rewrite possible_tokens_cons. simpl.
  destruct (listed t); [discriminate|]. exact IH.
Qed.

(** X12: the list of names in the error message is the shown descriptors
    (all but the non-literal ones named [error]), each formatted, joined by
    a comma and a blank; and it ends in one more comma and blank exactly
    when the last descriptor of the state is one that is not shown while
    some other is. *)
Theorem possible_tokens_shape l :
  let shown := List.filter listed l in
  let dangling :=
    match last l, shown with
    | Some token, _ :: _ => negb (listed token)
    | _, _ => false
    end in
  possible_tokens l =
    String.concat ", " (map format_token shown)
    +:+ (if dangling then ", " else EmptyString).
Proof.
  induction l as [|t l IH]; [reflexivity|].
  rewrite possible_tokens_cons. cbv zeta in IH |- *.
  cbn [List.filter]. destruct (listed t) eqn:Ht.
  - destruct l as [|t' l].
    + simpl. rewrite Ht. simpl. rewrite !string_app_nil_r. reflexivity.
    + change (last (t :: t' :: l)) with (last (t' :: l)).
      destruct (last (t' :: l)) as [z|] eqn:Hlast.
      2:{ apply last_None in Hlast. discriminate. }
      destruct (List.filter listed (t' :: l)) as [|x xs] eqn:Hf.
      * rewrite (filter_listed_nil_possible_tokens _ Hf).
        rewrite (filter_listed_nil_last _ _ Hf Hlast). simpl.
        rewrite string_app_nil_r. reflexivity.
      * rewrite IH.
        change (map format_token (t :: x :: xs))
          with (format_token t :: map format_token (x :: xs)).
        change (String.concat ", " (format_token t :: map format_token (x :: xs)))
          with (format_token t +:+ ", "
                +:+ String.concat ", " (map format_token (x :: xs))).
        rewrite !string_app_assoc. reflexivity.
  - rewrite IH. destruct l as [|t' l].
    + reflexivity.
    + change (last (t :: t' :: l)) with (last (t' :: l)). reflexivity.
Qed.

Lemma tokenlen_fold l n :
  fold_left (λ n token, n + (strlen (tok_name token) + 4)) l n = n + tokenlen l.
Proof.
  unfold tokenlen. revert n. induction l as [|t l IH]; intros n; simpl; [lia|].
  rewrite (IH (n + _)), (IH (strlen _ + 4)). lia.
Qed.

Lemma tokenlen_cons token l :
  tokenlen (token :: l) = strlen (tok_name token) + 4 + tokenlen l.
Proof. unfold tokenlen at 1. simpl. rewrite tokenlen_fold. reflexivity. Qed.

Lemma span_len_all (f : ascii → bool) (s : list ascii) :
  Forall (λ x, f x = true) s → span_len f s = length s.
Proof. induction 1 as [|x s Hx _ IH]; simpl; [reflexivity|]. rewrite Hx, IH. reflexivity. Qed.

Lemma strlen_NUL_free a :
  NUL ∉ list_ascii_of_string a → strlen a = String.length a.
Proof.
  intros Hnul. unfold strlen, c_bytes.
  rewrite span_len_all, firstn_all, <- string_length_list; [reflexivity|].
  apply Forall_forall. intros x Hx.
  apply negb_true_iff, is_char_false. intros ->. exact (Hnul Hx).
Qed.

(** X13: the names written to the buffer of the error message fit: for
    descriptor names without a NUL the text built has at most [tokenlen]
    bytes, and the buffer allocated has one byte more, for the terminating
    NUL. *)
Theorem possible_tokens_fits l :
  Forall (λ token, NUL ∉ list_ascii_of_string (tok_name token)) l →
  String.length (possible_tokens l) ≤ tokenlen l.
Proof.
  induction 1 as [|t l Ht _ IH]; [simpl; lia|].
  rewrite possible_tokens_cons, tokenlen_cons, (strlen_NUL_free _ Ht).
  destruct (listed t); [|lia].
  rewrite !string_length_app.
  assert (String.length (format_token t) ≤ String.length (tok_name t) + 2).
  { unfold format_token.
    destruct (tok_name t) as [|x s]; simpl; [lia|].
    destruct (is_char x APOSTROPHE); simpl; rewrite !string_length_app; simpl; lia. }
  assert (String.length (match l with [] => EmptyString | _ => ", " end) ≤ 2)
    by (destruct l; simpl; lia).
  lia.
Qed.

End MessageMore.

Lemma possible_tokens_fits_witness :
  String.length (possible_tokens binding_state_tokens)
  ≤ tokenlen binding_state_tokens.
Proof.
  apply (possible_tokens_fits binding_state_tokens).
  repeat constructor; vm_compute; intros H;
    repeat (apply elem_of_cons in H as [H|H]; [discriminate H|]);
    apply elem_of_nil in H; exact H.
Defined.

(** ** The line and the underline of a diagnostic *)

Section Rendering.

Variable below : Z → ascii.

Implicit Types (input : list ascii) (w e n k : nat).

Lemma byte_at_nat input k :
  byte_at below input (Z.of_nat k) = deref (drop k input).
Proof.
  unfold byte_at. rewrite decide_True by lia. rewrite Nat2Z.id. reflexivity.
Qed.

Lemma start_of_line_loop_unfold input fuel (walk : Z) :
  start_of_line_loop below input fuel walk =
    if not_newline (byte_at below input walk) && bool_decide (0 ≤ walk)%Z then
      match fuel with
      | 0 => (walk + 1)%Z
      | S fuel' => start_of_line_loop below input fuel' (walk - 1)
      end
    else (walk + 1)%Z.
Proof. destruct fuel; reflexivity. Qed.

Lemma start_of_line_loop_below input fuel (walk : Z) :
  (walk < 0)%Z → start_of_line_loop below input fuel walk = (walk + 1)%Z.
Proof.
  intros H. rewrite start_of_line_loop_unfold.
  rewrite (bool_decide_false (0 ≤ walk)%Z) by lia.
  rewrite andb_false_r. reflexivity.
Qed.

Lemma start_of_line_line_start input w :
  start_of_line below input (Z.of_nat w) = Z.of_nat (line_start input (S w)).
Proof.
  unfold start_of_line.
  replace (Z.to_nat (Z.of_nat w + 1)) with (S w) by lia.
  induction w as [|w IH]; rewrite start_of_line_loop_unfold, byte_at_nat;
    rewrite (bool_decide_true (0 ≤ _)%Z) by lia; rewrite andb_true_r;
    cbn [line_start]; destruct (not_newline (deref (drop _ input))); try lia.
  - rewrite start_of_line_loop_below by lia. reflexivity.
  - replace (Z.of_nat (S w) - 1)%Z with (Z.of_nat w) by lia. exact IH.
Qed.

Lemma line_start_le input n : line_start input n ≤ n.
Proof.
  induction n as [|n IH]; simpl; [lia|].
  destruct (not_newline _); lia.
Qed.

Lemma line_start_inside input n i :
  line_start input n ≤ i < n → not_newline (deref (drop i input)) = true.
Proof.
  induction n as [|n IH]; simpl; [lia|].
  destruct (not_newline (deref (drop n input))) eqn:Hn; [|lia].
  intros Hi. destruct (decide (i = n)) as [->|Hne]; [exact Hn|].
  apply IH. lia.
Qed.

Lemma line_start_before input n :
  line_start input n = 0
  ∨ not_newline (deref (drop (line_start input n - 1) input)) = false.
Proof.
  induction n as [|n IH]; simpl; [auto|].
  destruct (not_newline (deref (drop n input))) eqn:Hn; [exact IH|].
  right. simpl. rewrite Nat.sub_0_r. exact Hn.
Qed.

(** X14: [start_of_line] called with a pointer into the buffer returns the
    offset [e] behind the last LF or CR at or before the pointer, or 0 when
    there is none: no byte from [e] to the pointer ends a line, and [e] is 0
    or the byte before it ends one.  On a first line the loop reads the byte
    before the buffer; the result does not depend on what is there.  Called
    with a pointer below the buffer it returns the next address. *)
Theorem start_of_line_spec input w :
  let e := line_start input (S w) in
  start_of_line below input (Z.of_nat w) = Z.of_nat e
  ∧ e ≤ w + 1
  ∧ (∀ i, e ≤ i ≤ w → not_newline (deref (drop i input)) = true)
  ∧ (e = 0 ∨ not_newline (deref (drop (e - 1) input)) = false)
  ∧ (∀ i : Z, (i < 0)%Z → start_of_line below input i = (i + 1)%Z).
Proof.
  intros e. split; [apply start_of_line_line_start|].
  split; [pose proof (line_start_le input (S w)); unfold e; lia|].
  split; [intros i Hi; apply (line_start_inside input (S w)); unfold e in Hi; lia|].
  split; [apply line_start_before|].
  intros i Hi. apply start_of_line_loop_below, Hi.
Qed.

Lemma span_len_NUL_free input :
  NUL ∉ input → span_len (λ c, negb (is_char c NUL)) input = length input.
Proof.
  intros Hnul. apply span_len_all, Forall_forall. intros x Hx.
  apply negb_true_iff, is_char_false. intros ->. exact (Hnul Hx).
Qed.

Lemma string_at_nat input k :
  NUL ∉ input → string_at below input (Z.of_nat k) = drop k input.
Proof.
  intros Hnul. unfold string_at. rewrite decide_True by lia. rewrite Nat2Z.id.
  rewrite span_len_NUL_free, firstn_all; [reflexivity|].
  intros H. apply Hnul. apply list_elem_of_lookup in H as [i H].
  rewrite lookup_drop in H. eapply list_elem_of_lookup_2, H.
Qed.

Lemma span_len_app_all (f : ascii → bool) (a b : list ascii) :
  Forall (λ x, f x = true) a → span_len f (a ++ b) = length a + span_len f b.
Proof.
  induction 1 as [|x a Hx _ IH]; simpl; [reflexivity|]. rewrite Hx, IH. reflexivity.
Qed.

Lemma deref_drop_lookup input i c :
  input !! i = Some c → deref (drop i input) = c.
Proof. intros H. rewrite (drop_S _ _ _ H). reflexivity. Qed.

(** The bytes of the line before the cursor, none of which ends it. *)
Lemma line_before_cursor input w :
  w ≤ length input →
  let e := line_start input (S w) in
  e ≤ w →
  drop e input = take (w - e) (drop e input) ++ drop w input
  ∧ length (take (w - e) (drop e input)) = w - e
  ∧ Forall (λ x, not_newline x = true) (take (w - e) (drop e input)).
Proof.
  intros Hw e He.
  split; [|split].
  - rewrite <- (take_drop (w - e) (drop e input)) at 1.
    rewrite drop_drop. replace (e + (w - e)) with w by lia. reflexivity.
  - rewrite length_take, length_drop. lia.
  - apply Forall_forall. intros x Hx.
    apply list_elem_of_lookup in Hx as [i Hi].
    apply lookup_take_Some in Hi as [Hi Hlt].
    rewrite lookup_drop in Hi.
    rewrite <- (deref_drop_lookup _ _ _ Hi).
    apply (line_start_inside input (S w)). fold e. lia.
Qed.

(** X15: the underline for an error found with the cursor on a byte that
    ends no line (the NUL at the end of the input included).  It has one
    byte for every byte of the cursor's line: for the bytes before the
    cursor a tab where the line has a tab and a blank otherwise, and carets
    from the cursor to the end of the line; with the cursor at the end of
    the input there is no caret at all. *)
Theorem errorposition_on_line input w :
  NUL ∉ input → w ≤ length input →
  not_newline (deref (drop w input)) = true →
  let e := line_start input (S w) in
  errorposition below input w =
    map (λ c, if is_char c TAB then TAB else SPACE) (take (w - e) (drop e input))
    ++ replicate (span_len not_newline (drop w input)) "^"%char.
Proof.
  intros Hnul Hw Hc e.
  assert (He : e ≤ w).
  { unfold e. simpl. rewrite Hc. apply line_start_le. }
  destruct (line_before_cursor input w Hw He) as (Hsplit & Hlen & Hall).
  fold e in Hsplit, Hlen, Hall.
  unfold errorposition, error_line.
  rewrite start_of_line_line_start. fold e.
  rewrite (string_at_nat _ _ Hnul).
  change (span_len _ (drop e input)) with (span_len not_newline (drop e input)).
  rewrite Hsplit at 1 2.
  rewrite (span_len_app_all _ _ _ Hall), Hlen.
  rewrite take_app_add'; [|symmetry; exact Hlen].
  rewrite imap_app, Hlen. f_equal.
  - rewrite <- (imap_const (λ c, if is_char c TAB then TAB else SPACE)).
    apply imap_ext. intros i x Hi. simpl.
    apply lookup_lt_Some in Hi. rewrite Hlen in Hi.
    rewrite decide_False by lia. reflexivity.
  - set (m := span_len not_newline (drop w input)).
    assert (Hm : length (take m (drop w input)) = m).
    { rewrite length_take. pose proof (span_len_le not_newline (drop w input)).
      unfold m. lia. }
    rewrite <- Hm at 2.
    rewrite <- (const_fmap (λ _ : ascii, "^"%char)) by reflexivity.
    rewrite <- (imap_const (λ _ : ascii, "^"%char)).
    apply imap_ext. intros i x _. simpl.
    rewrite decide_True by lia. reflexivity.
Qed.

(** X16: an error found with the cursor on the LF or CR that ends a line,
    as happens when a directive lacks an argument, is not shown on that
    line: [error_line] is the byte after the cursor, so the text logged as
    the line of the error is the text of the following line, and the
    underline has one caret for every byte of the following line and
    nothing else. *)
Theorem errorposition_at_line_end input w :
  NUL ∉ input →
  not_newline (deref (drop w input)) = false →
  error_line below input w = Z.of_nat (S w)
  ∧ error_copy below input w = single_line (drop (S w) input)
  ∧ errorposition below input w
    = replicate (span_len not_newline (drop (S w) input)) "^"%char.
Proof.
  intros Hnul Hc.
  assert (He : error_line below input w = Z.of_nat (S w)).
  { unfold error_line. rewrite start_of_line_line_start. simpl. rewrite Hc.
    reflexivity. }
  split; [exact He|]. unfold error_copy, errorposition. rewrite He.
  rewrite (string_at_nat _ _ Hnul). split; [reflexivity|].
  change (span_len _ (drop (S w) input))
    with (span_len not_newline (drop (S w) input)).
  set (m := span_len not_newline (drop (S w) input)).
  assert (Hm : length (take m (drop (S w) input)) = m).
  { rewrite length_take. pose proof (span_len_le not_newline (drop (S w) input)).
    unfold m. lia. }
  rewrite <- Hm at 2.
  rewrite <- (const_fmap (λ _ : ascii, "^"%char)) by reflexivity.
  rewrite <- (imap_const (λ _ : ascii, "^"%char)).
  apply imap_ext. intros i x _. simpl.
  rewrite decide_True by lia. reflexivity.
Qed.

(** X17: in an input whose lines end in CR LF the context line logged
    before the line of the error is empty, whatever the line before holds:
    the scan for its start begins two bytes before [error_line], which is the
    CR, and stops there at once. *)
Theorem context_before_CRLF input w (linecnt : Z) e :
  NUL ∉ input → (1 < linecnt)%Z →
  error_line below input w = Z.of_nat (S (S e)) →
  input !! e = Some CR → input !! S e = Some LF →
  last (context_before below input w linecnt) = Some ((linecnt - 1)%Z, []).
Proof.
  intros Hnul Hl He Hcr Hlf.
  assert (Hp1 : single_line (string_at below input
                  (start_of_line below input (error_line below input w - 2)))
                = []).
  { rewrite He. replace (Z.of_nat (S (S e)) - 2)%Z with (Z.of_nat e) by lia.
    rewrite start_of_line_line_start. simpl.
    rewrite (deref_drop_lookup _ _ _ Hcr). change (not_newline CR) with false.
    cbv iota. rewrite (string_at_nat _ _ Hnul).
    rewrite (drop_S _ _ _ Hlf). reflexivity. }
  unfold context_before. rewrite decide_True by exact Hl. rewrite Hp1.
  destruct (decide (2 < linecnt)%Z); reflexivity.
Qed.

End Rendering.

Lemma errorposition_on_line_witness :
  let input := c_bytes ("tags a" +:+ LF_string +:+ "x" +:+ String TAB "bogus y") in
  errorposition (λ _, LF) input 9
  = map (λ c, if is_char c TAB then TAB else SPACE) (take 2 (drop 7 input))
    ++ replicate 7 "^"%char.
Proof.
  intros input.
  refine (errorposition_on_line (λ _, LF) input 9 _ _ _).
  - vm_compute. intros H.
    repeat (apply elem_of_cons in H as [H|H]; [discriminate H|]).
    apply elem_of_nil in H. exact H.
  - vm_compute. lia.
  - reflexivity.
Defined.

Lemma errorposition_at_line_end_witness :
  let input := c_bytes ("workspace" +:+ LF_string +:+ "exec x" +:+ LF_string) in
  error_line (λ _, NUL) input 9 = 10%Z
  ∧ error_copy (λ _, NUL) input 9 = list_ascii_of_string "exec x"
  ∧ errorposition (λ _, NUL) input 9 = replicate 6 "^"%char.
Proof.
  intros input.
  refine (errorposition_at_line_end (λ _, NUL) input 9 _ _).
  - vm_compute. intros H.
    repeat (apply elem_of_cons in H as [H|H]; [discriminate H|]).
    apply elem_of_nil in H. exact H.
  - reflexivity.
Defined.

Lemma context_before_CRLF_witness :
  let input := c_bytes ("tags a" +:+ String CR LF_string +:+ "bogus") in
  last (context_before (λ _, NUL) input 8 2) = Some (1%Z, []).
Proof.
  intros input.
  refine (context_before_CRLF (λ _, NUL) input 8 2 6 _ _ _ _ _).
  - vm_compute. intros H.
    repeat (apply elem_of_cons in H as [H|H]; [discriminate H|]).
    apply elem_of_nil in H. exact H.
  - lia.
  - reflexivity.
  - reflexivity.
  - reflexivity.
Defined.

(** ** The version of a configuration file *)

Section Version.

Implicit Types (buf line walk l pre rest : list ascii) (keyword : string).

Lemma detect_version_loop_no_LF line walk :
  LF ∉ walk → detect_version_loop line walk = None.
Proof.
  induction walk as [|c walk IH]; [reflexivity|].
  intros H. apply not_elem_of_cons in H as [Hc H]. simpl.
  destruct (is_char c NUL); [reflexivity|].
  destruct (is_char c LF) eqn:Hlf; [apply is_char_true in Hlf; congruence|].
  simpl. apply IH, H.
Qed.

(** X18: only lines that end in LF are examined: for a buffer without any
    LF, whatever it holds, the function returns 3; so a statement of
    version 4 on a last line that lacks its line end is not seen. *)
Theorem detect_version_no_LF buf : LF ∉ buf → detect_version buf = 3%Z.
Proof.
  intros H. unfold detect_version.
  rewrite detect_version_loop_no_LF by exact H. reflexivity.
Qed.

Lemma detect_version_loop_line pre l rest :
  LF ∉ l → NUL ∉ l →
  detect_version_loop (pre ++ l ++ LF :: rest) (l ++ LF :: rest) =
    if existsb (starts_with (pre ++ l ++ LF :: rest)) v4_statements
       || v4_bind_command (pre ++ l ++ LF :: rest)
    then Some (take (length (pre ++ l)) (pre ++ l ++ LF :: rest))
    else detect_version_loop rest rest.
Proof.
  revert pre. induction l as [|c l IH]; intros pre Hlf Hnul.
  - cbn [app detect_version_loop].
    change (is_char LF NUL) with false. change (is_char LF LF) with true.
    cbv iota. cbn [negb].
    rewrite !length_app. cbn [length].
    replace (length pre + S (length rest) - S (length rest))
      with (length pre + 0) by lia.
    reflexivity.
  - apply not_elem_of_cons in Hlf as [Hc1 Hlf].
    apply not_elem_of_cons in Hnul as [Hc2 Hnul].
    cbn [app detect_version_loop].
    destruct (is_char c NUL) eqn:H1; [apply is_char_true in H1; congruence|].
    destruct (is_char c LF) eqn:H2; [apply is_char_true in H2; congruence|].
    cbn [negb].
    specialize (IH (pre ++ [c]) Hlf Hnul).
    rewrite <- !app_assoc in IH. cbn [app] in IH.
    rewrite IH. rewrite !length_app. cbn [length].
    replace (length pre + 1 + length l) with (length pre + S (length l)) by lia.
    reflexivity.
Qed.

(** X19: the lines are examined in order, and the line that decides is the
    one printed.  For a buffer that starts with a line [l] ended by LF, the
    function decides on [l] when one of its tests succeeds and otherwise
    goes on with the buffer behind the LF; the tests are applied to the
    buffer from the start of the line on, not to the line cut at its end. *)
Theorem detect_version_by_lines l rest :
  LF ∉ l → NUL ∉ l →
  detect_version_loop (l ++ LF :: rest) (l ++ LF :: rest) =
    if existsb (starts_with (l ++ LF :: rest)) v4_statements
       || v4_bind_command (l ++ LF :: rest)
    then Some l
    else detect_version_loop rest rest.
Proof.
  intros Hlf Hnul.
  pose proof (detect_version_loop_line [] l rest Hlf Hnul) as H.
  cbn [app] in H. rewrite H, take_app_length. reflexivity.
Qed.

Lemma split_first (x : ascii) l :
  x ∈ l → ∃ l1 l2, l = l1 ++ x :: l2 ∧ x ∉ l1.
Proof.
  induction l as [|c l IH]; intros H; [apply elem_of_nil in H; contradiction|].
  destruct (decide (c = x)) as [->|Hne].
  - exists [], l. split; [reflexivity|]. apply not_elem_of_nil.
  - apply elem_of_cons in H as [H|H]; [congruence|].
    destruct (IH H) as (l1 & l2 & -> & Hn).
    exists (c :: l1), l2. split; [reflexivity|].
    apply not_elem_of_cons. auto.
Qed.

Lemma starts_with_app l rest keyword :
  NUL ∉ list_ascii_of_string keyword →
  map tolower (take (String.length keyword) l)
  = map tolower (list_ascii_of_string keyword) →
  starts_with (l ++ rest) keyword = true.
Proof.
  intros Hnul Hl. unfold starts_with.
  rewrite (strlen_NUL_free _ Hnul), string_length_list.
  apply strncasecmp_eq_spec; [exact Hnul|].
  rewrite <- string_length_list.
  assert (Hlen : String.length keyword ≤ length l).
  { apply (f_equal length) in Hl.
    rewrite !length_map, length_take, <- string_length_list in Hl. lia. }
  rewrite take_app_le by exact Hlen. exact Hl.
Qed.

Lemma v4_statements_NUL_free keyword :
  keyword ∈ v4_statements → NUL ∉ list_ascii_of_string keyword.
Proof.
  intros H. unfold v4_statements in H.
  repeat (apply elem_of_cons in H as [->|H];
          [vm_compute; intros H;
           repeat (apply elem_of_cons in H as [H|H]; [discriminate H|]);
           apply elem_of_nil in H; exact H|]).
  apply elem_of_nil in H. contradiction.
Qed.

(** X20: a line that starts, in any case of letters, with [bindcode],
    [force_focus_wrapping], [# i3 config file (v4)] or [workspace_layout]
    and is ended by LF makes the result 4, wherever in the buffer the line
    stands. *)
Theorem detect_version_v4_statement pre l rest keyword :
  NUL ∉ pre → NUL ∉ l → LF ∉ l →
  pre = [] ∨ last pre = Some LF →
  keyword ∈ v4_statements →
  map tolower (take (String.length keyword) l)
  = map tolower (list_ascii_of_string keyword) →
  detect_version (pre ++ l ++ LF :: rest) = 4%Z.
Proof.
  intros Hnp Hnl Hlf Hpre Hk Hl.
  assert (Hloop : detect_version_loop (pre ++ l ++ LF :: rest)
                    (pre ++ l ++ LF :: rest) ≠ None).
  { remember (length pre) as m eqn:Hm. revert pre Hm Hnp Hpre.
    induction m as [m IH] using lt_wf_ind. intros pre Hm Hnp Hpre.
    destruct (decide (pre = [])) as [->|Hne].
    - cbn [app].
      pose proof (detect_version_loop_line [] l rest Hlf Hnl) as Hline.
      cbn [app] in Hline. rewrite Hline.
      assert (Hs : existsb (starts_with (l ++ LF :: rest)) v4_statements = true).
      { apply existsb_exists. exists keyword.
        split; [apply list_elem_of_In, Hk|].
        apply starts_with_app; [apply v4_statements_NUL_free, Hk|exact Hl]. }
      rewrite Hs. discriminate.
    - assert (Hlast : last pre = Some LF)
        by (destruct Hpre; [contradiction|assumption]).
      assert (Hin : LF ∈ pre).
      { apply last_Some in Hlast as [? ->].
        apply elem_of_app. right. apply list_elem_of_here. }
      destruct (split_first LF pre Hin) as (l0 & pre' & Heq & Hl0). subst pre.
      rewrite <- app_assoc. cbn [app].
      assert (Hn0 : NUL ∉ l0)
        by (intros H; apply Hnp, elem_of_app; left; exact H).
      pose proof (detect_version_loop_line [] l0 (pre' ++ l ++ LF :: rest) Hl0 Hn0)
        as Hline.
      cbn [app] in Hline. rewrite Hline.
      destruct (_ || _); [discriminate|].
      apply (IH (length pre')); [rewrite Hm, length_app; simpl; lia|reflexivity| |].
      + intros H. apply Hnp, elem_of_app. right.
        apply list_elem_of_further, H.
      + destruct pre' as [|c pre'']; [left; reflexivity|right].
        rewrite last_app in Hlast.
        change (last (LF :: c :: pre'')) with (last (c :: pre'')) in Hlast.
        destruct (last (c :: pre'')) as [z|] eqn:Hz; [exact Hlast|].
        apply last_None in Hz. discriminate Hz. }
  unfold detect_version.
  destruct (detect_version_loop _ _); [reflexivity|contradiction].
Qed.

End Version.

Lemma detect_version_no_LF_witness :
  detect_version (c_bytes "bindcode 38 exec xterm") = 3%Z.
Proof.
  apply (detect_version_no_LF (c_bytes "bindcode 38 exec xterm")).
  vm_compute. intros H.
  repeat (apply elem_of_cons in H as [H|H]; [discriminate H|]).
  apply elem_of_nil in H. exact H.
Defined.

Lemma detect_version_by_lines_witness :
  let l := c_bytes "font fixed" in
  let rest := c_bytes ("BindCode 38 exec xterm" +:+ LF_string) in
  detect_version_loop (l ++ LF :: rest) (l ++ LF :: rest)
  = detect_version_loop rest rest.
Proof.
  intros l rest.
  etransitivity; [apply (detect_version_by_lines l rest)|reflexivity];
    vm_compute; intros H;
    repeat (apply elem_of_cons in H as [H|H]; [discriminate H|]);
    apply elem_of_nil in H; exact H.
Defined.

Lemma detect_version_v4_statement_witness :
  detect_version
    (c_bytes ("font fixed" +:+ LF_string) ++ c_bytes "BindCode 38 exec xterm"
     ++ LF :: c_bytes "exec true")
  = 4%Z.
Proof.
  apply (detect_version_v4_statement
           (c_bytes ("font fixed" +:+ LF_string))
           (c_bytes "BindCode 38 exec xterm")
           (c_bytes "exec true") "bindcode").
  - vm_compute. intros H.
    repeat (apply elem_of_cons in H as [H|H]; [discriminate H|]).
    apply elem_of_nil in H. exact H.
  - vm_compute. intros H.
    repeat (apply elem_of_cons in H as [H|H]; [discriminate H|]).
    apply elem_of_nil in H. exact H.
  - vm_compute. intros H.
    repeat (apply elem_of_cons in H as [H|H]; [discriminate H|]).
    apply elem_of_nil in H. exact H.
  - right. reflexivity.
  - apply list_elem_of_here.
  - reflexivity.
Defined.

(** The tests of a [bind] line look for blanks with [strchr], which does not
    stop at the end of the line: here the command found is on the line
    after it. *)
Example detect_version_reads_past_the_line :
  detect_version (c_bytes ("bindsym" +:+ LF_string +:+ "font x bar" +:+ LF_string))
  = 4%Z
  ∧ detect_version (c_bytes ("bindsym" +:+ LF_string)) = 3%Z
  ∧ detect_version (c_bytes ("font x bar" +:+ LF_string)) = 3%Z.
Proof. repeat split. Qed.

(** ** Duplicate bindings *)

Section Bindings.

Implicit Types (bind current : Binding) (before bindings : list Binding)
  (d : duplicates).

Local Abbreviation duplicates_of bind bindings :=
  (length (filter (λ current, duplicate_binding bind current = true) bindings)).

Local Abbreviation duplicated_by before current :=
  (length (filter (λ bind, duplicate_binding bind current = true) before)).

Lemma check_against_spec before current d :
  dup_logged (check_against before current d)
  = dup_logged d ++ replicate (duplicated_by before current) current
  ∧ dup_has_errors (check_against before current d)
    = dup_has_errors d || bool_decide (0 < duplicated_by before current).
Proof.
  revert d. induction before as [|bind before IH]; intros d.
  - simpl. rewrite app_nil_r, orb_false_r. auto.
  - cbn [check_against]. rewrite filter_cons.
    destruct (IH (if duplicate_binding bind current
                  then {| dup_has_errors := true;
                          dup_logged := dup_logged d ++ [current] |}
                  else d)) as [Hl He].
    rewrite Hl, He.
    destruct (duplicate_binding bind current) eqn:Hd.
    + rewrite decide_True by reflexivity. simpl.
      rewrite <- app_assoc, orb_true_r. auto.
    + rewrite decide_False by discriminate. auto.
Qed.

Lemma check_from_spec before bindings d :
  length (dup_logged (check_from before bindings d))
  = length (dup_logged d)
    + sum_list (map (λ current, duplicated_by before current) bindings)
    + duplicate_pairs bindings
  ∧ dup_has_errors (check_from before bindings d)
    = dup_has_errors d
      || bool_decide (length (dup_logged d)
                      < length (dup_logged (check_from before bindings d)))
  ∧ Forall (λ current, current ∈ dup_logged d ∨ current ∈ bindings)
           (dup_logged (check_from before bindings d)).
Proof.
  revert before d. induction bindings as [|current rest IH]; intros before d.
  - simpl. rewrite bool_decide_false by lia. rewrite orb_false_r.
    split; [lia|]. split; [reflexivity|].
    apply Forall_forall. auto.
  - cbn [check_from].
    destruct (IH (before ++ [current]) (check_against before current d))
      as (Hl & He & Hin).
    destruct (check_against_spec before current d) as [Hl1 He1].
    rewrite Hl1, length_app, length_replicate in Hl.
    rewrite Hl1, length_app, length_replicate, He1 in He.
    rewrite Hl1 in Hin.
    assert (Hcross :
      sum_list (map (λ c, length (filter (λ bind, duplicate_binding bind c = true)
                                         (before ++ [current]))) rest)
      = sum_list (map (λ c, duplicated_by before c) rest)
        + duplicates_of current rest).
    { clear. induction rest as [|c rest IHr]; [reflexivity|].
      cbn [map sum_list_with id]. rewrite IHr, filter_app, length_app, !filter_cons.
      destruct (decide (duplicate_binding current c = true)); simpl; lia. }
    split; [|split].
    + rewrite Hl, Hcross. cbn [map sum_list_with id duplicate_pairs]. lia.
    + rewrite He.
      set (n := length (dup_logged (check_from _ rest _))) in *.
      destruct (dup_has_errors d); [reflexivity|]. simpl.
      destruct (decide (0 < duplicated_by before current)) as [Hpos|Hz].
      * rewrite (bool_decide_true _ Hpos). simpl. symmetry.
        apply bool_decide_true. lia.
      * rewrite (bool_decide_false _ Hz). simpl.
        apply bool_decide_ext. lia.
    + eapply Forall_impl; [exact Hin|]. intros x [Hx|Hx].
      * apply elem_of_app in Hx as [Hx|Hx]; [left; exact Hx|right].
        apply elem_of_replicate in Hx as [-> _]. apply list_elem_of_here.
      * right. apply list_elem_of_further, Hx.
Qed.

Lemma check_for_duplicate_bindings_pairs bindings (has_errors : bool) :
  let d := check_for_duplicate_bindings bindings has_errors in
  length (dup_logged d) = duplicate_pairs bindings
  ∧ dup_has_errors d = has_errors || bool_decide (0 < length (dup_logged d)).
Proof.
  intros d. unfold d, check_for_duplicate_bindings.
  destruct (check_from_spec [] bindings
              {| dup_has_errors := has_errors; dup_logged := [] |})
    as (Hl & He & _).
  cbn [dup_logged dup_has_errors length] in Hl, He.
  assert (Hz : sum_list (map (λ current, duplicated_by [] current) bindings) = 0).
  { clear. induction bindings as [|c l IH]; [reflexivity|]. simpl. exact IH. }
  rewrite Hz in Hl. split; [lia|exact He].
Qed.

(** X21: one message is logged for every pair of bindings, one before the
    other in the list, that agree in [release], [mods] and [keycode] and have
    either no symbol or the same symbol up to the case of letters; so three
    bindings of one key give three messages.  Every message names a binding
    of the list, and [has_errors] afterwards is what it was before or [true]
    if a message was logged. *)
Theorem check_for_duplicate_bindings_counts bindings (has_errors : bool) :
  let d := check_for_duplicate_bindings bindings has_errors in
  length (dup_logged d) = duplicate_pairs bindings
  ∧ dup_has_errors d = has_errors || bool_decide (0 < duplicate_pairs bindings)
  ∧ Forall (λ current, current ∈ bindings) (dup_logged d).
Proof.
  intros d.
  destruct (check_for_duplicate_bindings_pairs bindings has_errors) as [Hl He].
  fold d in Hl, He. rewrite <- Hl. split; [reflexivity|]. split; [exact He|].
  unfold d, check_for_duplicate_bindings.
  destruct (check_from_spec [] bindings
              {| dup_has_errors := has_errors; dup_logged := [] |})
    as (_ & _ & Hin).
  eapply Forall_impl; [exact Hin|]. intros x [Hx|Hx]; [|exact Hx].
  apply elem_of_nil in Hx. contradiction.
Qed.

Lemma strcasecmp_eq_sym (a b : string) : strcasecmp_eq a b = strcasecmp_eq b a.
Proof. unfold strcasecmp_eq. apply bool_decide_ext. split; congruence. Qed.

Lemma duplicate_binding_sym bind current :
  duplicate_binding bind current = duplicate_binding current bind.
Proof.
  unfold duplicate_binding.
  rewrite (bool_decide_ext (keycode bind = keycode current)
                           (keycode current = keycode bind)) by (split; congruence).
  rewrite (bool_decide_ext (mods bind = mods current)
                           (mods current = mods bind)) by (split; congruence).
  rewrite (bool_decide_ext (release bind = release current)
                           (release current = release bind)) by (split; congruence).
  destruct (symbol bind) as [a|], (symbol current) as [b|]; simpl;
    try reflexivity.
  rewrite (strcasecmp_eq_sym a b). reflexivity.
Qed.

Lemma duplicate_pairs_Permutation bindings bindings' :
  bindings ≡ₚ bindings' → duplicate_pairs bindings = duplicate_pairs bindings'.
Proof.
  induction 1 as [|x l l' Hp IH|x y l|l l' l'' _ IH1 _ IH2].
  - reflexivity.
  - cbn [duplicate_pairs]. rewrite IH. f_equal.
    apply Permutation_length. rewrite Hp. reflexivity.
  - cbn [duplicate_pairs]. rewrite !filter_cons.
    rewrite (duplicate_binding_sym y x).
    destruct (decide (duplicate_binding x y = true)); simpl; lia.
  - congruence.
Qed.

(** X22: the check does not depend on the order of the bindings: for a
    permutation of the list the same number of messages is logged and
    [has_errors] ends up the same. *)
Theorem check_for_duplicate_bindings_Permutation bindings bindings'
    (has_errors : bool) :
  bindings ≡ₚ bindings' →
  length (dup_logged (check_for_duplicate_bindings bindings has_errors))
  = length (dup_logged (check_for_duplicate_bindings bindings' has_errors))
  ∧ dup_has_errors (check_for_duplicate_bindings bindings has_errors)
    = dup_has_errors (check_for_duplicate_bindings bindings' has_errors).
Proof.
  intros Hp.
  destruct (check_for_duplicate_bindings_pairs bindings has_errors) as [Hl He].
  destruct (check_for_duplicate_bindings_pairs bindings' has_errors) as [Hl' He'].
  rewrite He, He', Hl, Hl', (duplicate_pairs_Permutation _ _ Hp). auto.
Qed.

End Bindings.

Lemma check_for_duplicate_bindings_Permutation_witness :
  let a := {| release := 0; symbol := Some "Return"; keycode := 0; mods := 64;
              command := "exec xterm" |} in
  let b := {| release := 0; symbol := None; keycode := 38; mods := 64;
              command := "kill" |} in
  let c := {| release := 0; symbol := Some "return"; keycode := 0; mods := 64;
              command := "exec urxvt" |} in
  length (dup_logged (check_for_duplicate_bindings [a; b; c] false))
  = length (dup_logged (check_for_duplicate_bindings [c; a; b] false))
  ∧ dup_has_errors (check_for_duplicate_bindings [a; b; c] false)
    = dup_has_errors (check_for_duplicate_bindings [c; a; b] false).
Proof.
  intros a b c.
  apply (check_for_duplicate_bindings_Permutation [a; b; c] [c; a; b] false).
  change [c; a; b] with ([c] ++ [a; b]).
  change [a; b; c] with ([a; b] ++ [c]).
  apply Permutation_app_comm.
Defined.

Example check_for_duplicate_bindings_case :
  let a := {| release := 0; symbol := Some "Return"; keycode := 0; mods := 64;
              command := "exec xterm" |} in
  let b := {| release := 0; symbol := None; keycode := 0; mods := 64;
              command := "kill" |} in
  let c := {| release := 0; symbol := Some "return"; keycode := 0; mods := 64;
              command := "exec urxvt" |} in
  check_for_duplicate_bindings [a; b; c] false
  = {| dup_has_errors := true; dup_logged := [c] |}.
Proof. reflexivity. Qed.

(** ** Variables and their replacement *)

Section Variables.

Implicit Types (buf here key value done text bytes : list ascii)
  (new : list (option ascii)) (variables : list variable).

Lemma cstr_NUL_free buf : NUL ∉ buf → cstr buf = buf.
Proof.
  intros H. unfold cstr. rewrite span_len_NUL_free by exact H.
  apply firstn_all.
Qed.


Lemma NUL_free_drop buf n : NUL ∉ buf → NUL ∉ drop n buf.
Proof.
  intros H Hd. apply H. apply list_elem_of_lookup in Hd as [i Hi].
  rewrite lookup_drop in Hi. eapply list_elem_of_lookup_2, Hi.
Qed.


Lemma count_extra_bytes_empty fuel variables bufcopy (extra_bytes : Z) :
  count_extra_bytes (S fuel) 0 variables bufcopy extra_bytes = Some extra_bytes.
Proof.
  revert bufcopy. induction variables as [|current rest IH]; intros bufcopy;
    [reflexivity|].
  cbn [count_extra_bytes count_matches].
  rewrite decide_False by lia. apply IH.
Qed.

(** X23: a file of no bytes leaves the replacement loop before its first
    pass, whatever the variables, and the one byte of [new] is never written.
    Such a file is of version 3, so [migrate_config] is called, with no byte
    for the script.  When the conversion succeeds [parse_config] is handed
    its result; when it fails [parse_config] is handed the one byte that has
    never been written, so the NUL that should end the input is not
    there. *)
Theorem replace_variables_empty_file
    (migration_script : list (option ascii) → option (list ascii))
    fuel variables :
  replace_variables (S fuel) variables [] = Some (Written [None])
  ∧ detect_version [] = 3%Z
  ∧ migrate_config migration_script [None] 0
    = converted_buffer <$> migration_script []
  ∧ config_buffer migration_script (S fuel) variables []
    = Some (Written (match migration_script [] with
                     | Some output => converted_buffer output
                     | None => [None]
                     end)).
Proof.
  assert (Hr : replace_variables (S fuel) variables [] = Some (Written [None])).
  { unfold replace_variables. cbn [length].
    rewrite count_extra_bytes_empty. reflexivity. }
  split; [exact Hr|]. split; [reflexivity|]. split; [reflexivity|].
  unfold config_buffer. rewrite Hr.
  rewrite decide_True by reflexivity.
  rewrite decide_True by (simpl; lia).
  unfold migrate_config. cbn [length take].
  destruct (migration_script []); reflexivity.
Qed.





End Variables.

Section OneVariable.

Variables (key value buf : list ascii).
Hypothesis Hkey : key ≠ [].
Hypothesis Hkey_nul : NUL ∉ key.
Hypothesis Hvalue_nul : NUL ∉ value.
Hypothesis Hbuf_nul : NUL ∉ buf.

Local Abbreviation size := (length buf).
Local Abbreviation var := {| var_key := key; var_value := value |}.
Local Abbreviation extra :=
  (Z.of_nat (length value) - Z.of_nat (length key))%Z.

(** No byte of the key but the first equals the first, the case of letters
    ignored: two occurrences of such a key do not overlap. *)
Local Abbreviation apart :=
  (∀ j c, 0 < j → key !! j = Some c → tolower c ≠ tolower (deref key)).




End OneVariable.



Lemma strchr_Some (s : list ascii) (c : ascii) i :
  c ≠ NUL → strchr s c = Some i →
  s !! i = Some c
  ∧ ∀ j x, j < i → s !! j = Some x → x ≠ c ∧ x ≠ NUL.
Proof.
  intros Hnul. unfold strchr.
  set (f := λ x, negb (is_char x c) && negb (is_char x NUL)).
  destruct (is_char (deref (drop (span_len f s) s)) c) eqn:Hc; [|discriminate].
  intros [= <-]. split.
  - apply deref_drop in Hc as [Hc|[_ Hc]]; [exact Hc|contradiction].
  - intros j x Hj Hx.
    pose proof (span_len_lookup f s j x Hj Hx) as Hf. unfold f in Hf.
    apply andb_true_iff in Hf as [H1 H2].
    apply negb_true_iff, is_char_false in H1.
    apply negb_true_iff, is_char_false in H2. auto.
Qed.









(** With two variables whose keys overlap in the file the count and the
    replacement disagree: the count marks and counts both occurrences, the
    replacement replaces the first and copies what is left of the second, and
    the stores run over the end of the buffer. *)
Example replace_variables_overrun :
  replace_variables 7
    [{| var_key := c_bytes "$a$b"; var_value := c_bytes "1" |};
     {| var_key := c_bytes "$b$c"; var_value := [] |}]
    (c_bytes "$a$b$c")
  = Some Overrun.
Proof. reflexivity. Qed.

(** ** The cursor after a failed attempt, and the dump of the input *)

Section CursorAndDump.

Implicit Types (input dumpwalk l rest : list ascii) (name : string).

Lemma quoted_len_0 (prev : ascii) l :
  prev ≠ BACKSLASH → quoted_len prev l = 0 →
  l = [] ∨ l !! 0 = Some DQUOTE.
Proof.
  intros Hp. destruct l as [|c l]; [auto|]. simpl.
  destruct (is_char c DQUOTE) eqn:Hc; simpl.
  - apply is_char_true in Hc. subst c. auto.
  - discriminate.
Qed.

(** X28: a descriptor that does not match leaves the cursor where it was,
    with one exception: a [string] or [word] descriptor tried on a double
    quote that is followed at once by another double quote or by the end of
    the input fails with the cursor behind the opening quote, and the
    descriptors tried after it, and the diagnostic, start from there. *)
Theorem lex_token_NoMatch_cursor input name w0 w :
  lex_token input name w0 = NoMatch w →
  w = w0
  ∨ (w = w0 + 1
     ∧ (name = "string" ∨ name = "word")
     ∧ input !! w0 = Some DQUOTE
     ∧ (input !! (w0 + 1) = Some DQUOTE ∨ length input ≤ w0 + 1)).
Proof.
  unfold lex_token.
  destruct (is_char (name_head name) APOSTROPHE).
  { destruct (strncasecmp_eq _ _ _); [discriminate|]. intros [= <-]. auto. }
  destruct (String.eqb name "number").
  { destruct (_ || _); [intros [= <-]; auto|].
    destruct (decide (sr_end _ = 0)); [intros [= <-]; auto|discriminate]. }
  destruct (String.eqb name "string" || String.eqb name "word") eqn:Hsw.
  2:{ destruct (String.eqb name "line"); [discriminate|].
      destruct (String.eqb name "end"); [|intros [= <-]; auto].
      destruct (is_char _ NUL || _ || _); [discriminate|]. intros [= <-]. auto. }
  assert (Hname : name = "string" ∨ name = "word").
  { apply orb_true_iff in Hsw as [H|H]; apply String.eqb_eq in H; auto. }
  assert (Hline : String.eqb name "line" = false)
    by (destruct Hname as [-> | ->]; reflexivity).
  assert (Hend : String.eqb name "end" = false)
    by (destruct Hname as [-> | ->]; reflexivity).
  destruct (is_char (deref (drop w0 input)) DQUOTE) eqn:Hq.
  - destruct (decide (quoted_len DQUOTE (tl (drop w0 input)) ≠ 0)) as [Hn|Hn];
      [destruct (is_char _ DQUOTE); discriminate|].
    rewrite Hline, Hend. intros [= <-]. right.
    apply deref_drop in Hq as [Hq|[_ Hq]]; [|discriminate].
    split; [reflexivity|]. split; [exact Hname|]. split; [exact Hq|].
    assert (Hz : quoted_len DQUOTE (tl (drop w0 input)) = 0) by lia.
    apply quoted_len_0 in Hz; [|discriminate].
    rewrite (drop_S _ _ _ Hq) in Hz. simpl in Hz.
    destruct Hz as [Hz|Hz].
    + right. apply (f_equal length) in Hz. rewrite length_drop in Hz.
      simpl in Hz. lia.
    + left. rewrite lookup_drop in Hz.
      replace (w0 + 1) with (S w0 + 0) by lia. exact Hz.
  - destruct (if is_char (name_head name) "s" then _ else _) as [skip n] eqn:Hs.
    assert (skip = 0) by (destruct (is_char (name_head name) "s"); congruence).
    subst skip.
    destruct (decide (n ≠ 0)); [destruct (is_char _ DQUOTE); discriminate|].
    rewrite Hline, Hend. intros [= <-]. left. lia.
Qed.

Lemma strchr_None (s : list ascii) (c : ascii) :
  NUL ∉ s → strchr s c = None → c ∉ s.
Proof.
  intros Hnul. unfold strchr.
  set (f := λ x, negb (is_char x c) && negb (is_char x NUL)).
  destruct (is_char (deref (drop (span_len f s) s)) c) eqn:Hc; [discriminate|].
  intros _ Hin. apply list_elem_of_lookup in Hin as [j Hj].
  assert (Hle : span_len f s ≤ j).
  { destruct (decide (j < span_len f s)) as [Hlt|]; [|lia].
    pose proof (span_len_lookup f s j c Hlt Hj) as Hf. unfold f in Hf.
    rewrite (proj2 (is_char_true c c) eq_refl) in Hf. discriminate Hf. }
  destruct (span_len_stop f s) as (x & Hx & Hf).
  { apply lookup_lt_Some in Hj. lia. }
  rewrite (deref_drop_lookup _ _ _ Hx) in Hc.
  unfold f in Hf. rewrite Hc in Hf. simpl in Hf.
  apply negb_false_iff, is_char_true in Hf. subst x.
  apply Hnul. eapply list_elem_of_lookup_2, Hx.
Qed.

Lemma dump_config_lines fuel dumpwalk (linecnt : Z) :
  NUL ∉ dumpwalk → length dumpwalk ≤ fuel →
  ∃ lines,
    dump_config fuel dumpwalk linecnt = Some lines
    ∧ flat_map (λ line, snd line ++ [LF]) lines
      = match last dumpwalk with
        | Some c => if is_char c LF then dumpwalk else dumpwalk ++ [LF]
        | None => []
        end
    ∧ map fst lines
      = map (λ i, (linecnt + Z.of_nat i)%Z) (seq 0 (length lines))
    ∧ Forall (λ line, LF ∉ snd line) lines.
Proof.
  revert dumpwalk linecnt.
  induction fuel as [|fuel IH]; intros dumpwalk linecnt Hnul Hlen.
  { destruct dumpwalk; [|simpl in Hlen; lia]. exists []. repeat split. constructor. }
  destruct dumpwalk as [|c dumpwalk'] eqn:E.
  { exists []. repeat split. constructor. }
  rewrite <- E in *. cbn [dump_config].
  assert (Hc : is_char (deref dumpwalk) NUL = false).
  { rewrite E. simpl. apply is_char_false. intros ->. apply Hnul.
    rewrite E. apply list_elem_of_here. }
  rewrite Hc.
  destruct (strchr dumpwalk LF) as [n|] eqn:Hs.
  - destruct (strchr_Some dumpwalk LF n ltac:(discriminate) Hs) as [Hn Hbefore].
    pose proof (take_drop_middle _ _ _ Hn) as Hsplit.
    pose proof (lookup_lt_Some _ _ _ Hn) as Hlt.
    destruct (IH (drop (n + 1) dumpwalk) (linecnt + 1)%Z) as (lines & Hd & Hf & Hnum & Hno).
    { apply NUL_free_drop, Hnul. }
    { rewrite length_drop. lia. }
    rewrite Hd. exists ((linecnt, take n dumpwalk) :: lines).
    split; [reflexivity|]. split; [|split].
    + cbn [flat_map snd]. rewrite Hf.
      replace (n + 1) with (S n) by lia.
      set (tk := take n dumpwalk) in *. set (dr := drop (S n) dumpwalk) in *.
      rewrite <- Hsplit. clearbody tk dr. rewrite last_app.
      destruct dr as [|x rest].
      * simpl. rewrite <- app_assoc. reflexivity.
      * change (last (LF :: x :: rest)) with (last (x :: rest)).
        destruct (last (x :: rest)) as [z|] eqn:Hz.
        2:{ apply last_None in Hz. discriminate. }
        destruct (is_char z LF); rewrite <- ?app_assoc; reflexivity.
    + cbn [map fst length seq]. f_equal; [f_equal; lia|].
      rewrite Hnum, <- seq_shift, map_map. apply map_ext. intros i. lia.
    + constructor; [|exact Hno]. simpl. intros Hin.
      apply list_elem_of_lookup in Hin as [j Hj].
      apply lookup_take_Some in Hj as [Hj Hjn].
      exact (proj1 (Hbefore j LF Hjn Hj) eq_refl).
  - exists [(linecnt, cstr dumpwalk)].
    pose proof (strchr_None _ _ Hnul Hs) as Hno.
    rewrite (cstr_NUL_free _ Hnul).
    split; [reflexivity|]. split; [|split].
    + cbn [flat_map snd]. rewrite app_nil_r.
      destruct (last dumpwalk) as [z|] eqn:Hz.
      * destruct (is_char z LF) eqn:Hzl; [|reflexivity].
        apply is_char_true in Hzl. subst z. exfalso. apply Hno.
        apply last_Some in Hz as [l' ->]. apply elem_of_app. right.
        apply list_elem_of_here.
      * apply last_None in Hz. congruence.
    + cbn [map fst length seq]. f_equal. f_equal. lia.
    + constructor; [exact Hno|constructor].
Qed.

(** X29: the dump of the input to the debug log loses nothing: it ends, the
    messages are numbered from 1 on without a gap, no text holds a LF, and
    the texts, each followed by a LF, make up the input, with a LF added
    when the last line has none. *)
Theorem dump_config_round_trip input :
  NUL ∉ input →
  ∃ lines,
    dump_config (length input) input 1 = Some lines
    ∧ flat_map (λ line, snd line ++ [LF]) lines
      = match last input with
        | Some c => if is_char c LF then input else input ++ [LF]
        | None => []
        end
    ∧ map fst lines = map (λ i, (1 + Z.of_nat i)%Z) (seq 0 (length lines))
    ∧ Forall (λ line, LF ∉ snd line) lines.
Proof. intros Hnul. apply dump_config_lines; [exact Hnul|lia]. Qed.

End CursorAndDump.

Lemma lex_token_NoMatch_cursor_witness :
  lex_token (c_bytes (DQUOTE_string +:+ DQUOTE_string)) "string" 0 = NoMatch 1.
Proof.
  assert (H : ∃ w, lex_token (c_bytes (DQUOTE_string +:+ DQUOTE_string)) "string" 0
                   = NoMatch w) by (eexists; vm_compute; reflexivity).
  destruct H as [w H]. rewrite H. f_equal.
  destruct (lex_token_NoMatch_cursor _ _ _ _ H) as [->|[-> _]];
    [vm_compute in H; discriminate H|reflexivity].
Defined.

Lemma dump_config_round_trip_witness :
  let input := c_bytes ("font fixed" +:+ LF_string +:+ "exec true") in
  ∃ lines,
    dump_config (length input) input 1 = Some lines
    ∧ flat_map (λ line, snd line ++ [LF]) lines
      = match last input with
        | Some c => if is_char c LF then input else input ++ [LF]
        | None => []
        end
    ∧ map fst lines = map (λ i, (1 + Z.of_nat i)%Z) (seq 0 (length lines))
    ∧ Forall (λ line, LF ∉ snd line) lines.
Proof.
  intros input. apply (dump_config_round_trip input).
  vm_compute. intros H.
  repeat (apply elem_of_cons in H as [H|H]; [discriminate H|]).
  apply elem_of_nil in H. exact H.
Defined.
